(** * Seam carving (utils.py): a shallow embedding and its checked properties

    The development follows [src/utils.py]: the [SeamImage] object is a
    record, its methods are state transformers that may raise, numpy arrays
    are row lists that carry their shape, and Python integers are [Z].

    Pixel values are numpy [float64] numbers.  Everything that only moves,
    compares or combines them is written over a small interface
    ([FloatOps]); the kernel's binary64 floats are the instance that stands
    for the code, and statements over an arbitrary instance hold for it. The
    real numbers are a second instance, used only where a statement is
    explicitly about exact arithmetic: a property proved over the reals is
    not a property of the rounded float64 values. *)

From Stdlib Require Import PrimFloat.
From Stdlib Require SpecFloat FloatOps.
From Stdlib Require Import ZArith Reals Lra Lia.
From stdpp Require Import base tactics numbers list.

Open Scope Z_scope.
Set Warnings "-inexact-float".

(** ** Numbers *)

(** The operations [utils.py] applies to array elements. [w_r], [w_g], [w_b]
    are [gs_weights]; [fhalf] is the padding constant 0.5; [fzero] and [fone]
    are the channels of the marker colour [1, 0, 0]. [fltb] is [<], the only
    comparison [np.argmin] needs on values that are never NaN. *)
Class FloatOps (F : Type) := {
  fzero : F;
  fone : F;
  fhalf : F;
  w_r : F;
  w_g : F;
  w_b : F;
  fadd : F -> F -> F;
  fsub : F -> F -> F;
  fmul : F -> F -> F;
  fabs : F -> F;
  fsqrt : F -> F;
  fltb : F -> F -> bool
}.

#[export] Instance float64_ops : FloatOps PrimFloat.float := {|
  fzero := 0%float;
  fone := 1%float;
  fhalf := 0.5%float;
  w_r := 0.299%float;
  w_g := 0.587%float;
  w_b := 0.114%float;
  fadd := PrimFloat.add;
  fsub := PrimFloat.sub;
  fmul := PrimFloat.mul;
  fabs := PrimFloat.abs;
  fsqrt := PrimFloat.sqrt;
  fltb := PrimFloat.ltb
|}.

#[export] Instance real_ops : FloatOps R := {|
  fzero := 0%R;
  fone := 1%R;
  fhalf := (1 / 2)%R;
  w_r := (299 / 1000)%R;
  w_g := (587 / 1000)%R;
  w_b := (114 / 1000)%R;
  fadd := Rplus;
  fsub := Rminus;
  fmul := Rmult;
  fabs := Rabs;
  fsqrt := sqrt;
  fltb := fun x y => if Rlt_dec x y then true else false
|}.

(** A float that may be [+inf]: [calc_M] fills [cost_matrix] with
    [float("inf")] before it writes the reachable candidates. *)
Inductive xfloat (F : Type) :=
  | Fin (x : F)
  | PInf.
Arguments Fin {F} x.
Arguments PInf {F}.

Definition xadd `{FloatOps F} (a b : xfloat F) : xfloat F :=
  match a, b with
  | Fin x, Fin y => Fin (fadd x y)
  | _, _ => PInf
  end.

Definition xltb `{FloatOps F} (a b : xfloat F) : bool :=
  match a, b with
  | Fin x, Fin y => fltb x y
  | Fin _, PInf => true
  | PInf, _ => false
  end.

(** ** Exceptions and the two monads *)

Inductive exn := IndexError | ValueError.

(** The result of a Python expression: a value or a raised exception. *)
Inductive outcome (A : Type) :=
  | Return (a : A)
  | Raise (e : exn).
Arguments Return {A} a.
Arguments Raise {A} e.

Definition obind {A B} (m : outcome A) (k : A -> outcome B) : outcome B :=
  match m with
  | Return a => k a
  | Raise e => Raise e
  end.

Notation "'let*' x ':=' m 'in' k" := (obind m (fun x => k))
  (at level 10, x name, m at level 100, k at level 200, only parsing).

Fixpoint omapM {A B} (f : A -> outcome B) (l : list A) : outcome (list B) :=
  match l with
  | [] => Return []
  | a :: l' => let* b := f a in let* bs := omapM f l' in Return (b :: bs)
  end.

(** ** numpy arrays of rank two *)

(** An array of shape [(nrows, ncols)]; [rows] holds [nrows] lists of
    [ncols] elements. The shape is stored, as numpy stores it: an array of
    shape (0, w) and one of shape (0, w') have the same (empty) row list. An
    (h, w, 3) image is an array of pixels, an (h, w, 2) index map an array of
    pairs. *)
Record ndarray (A : Type) := mkArr {
  nrows : nat;
  ncols : nat;
  rows : list (list A)
}.
Arguments mkArr {A} nrows ncols rows.
Arguments nrows {A} _.
Arguments ncols {A} _.
Arguments rows {A} _.

Definition shape {A} (a : ndarray A) : nat * nat := (nrows a, ncols a).

Definition wf_rows {A} (h w : nat) (m : list (list A)) : Prop :=
  length m = h /\ Forall (fun r => length r = w) m.

Definition wf_arr {A} (a : ndarray A) : Prop :=
  wf_rows (nrows a) (ncols a) (rows a).

(** [a[i]] on an axis of size [n]: negative indices count from the end. *)
Definition py_index (n : nat) (i : Z) : outcome nat :=
  if (0 <=? i) && (i <? Z.of_nat n) then Return (Z.to_nat i)
  else if (- Z.of_nat n <=? i) && (i <? 0) then Return (Z.to_nat (Z.of_nat n + i))
  else Raise IndexError.

Definition list_get {A} (l : list A) (i : nat) : outcome A :=
  match l !! i with
  | Some x => Return x
  | None => Raise IndexError
  end.

(** [a[i]]: row [i] of an array. *)
Definition get_row {A} (a : ndarray A) (i : Z) : outcome (list A) :=
  let* k := py_index (nrows a) i in list_get (rows a) k.

(** [a[i][j]] and [a[i, j]]. *)
Definition get2 {A} (a : ndarray A) (i j : Z) : outcome A :=
  let* r := get_row a i in
  let* k := py_index (ncols a) j in
  list_get r k.

Definition np_full {A} (h w : nat) (x : A) : ndarray A :=
  mkArr h w (replicate h (replicate w x)).

Definition arr_map {A B} (f : A -> B) (a : ndarray A) : ndarray B :=
  mkArr (nrows a) (ncols a) (map (map f) (rows a)).

(** Elementwise combination of two arrays of one shape. *)
Definition rows_map2 {A B C} (f : A -> B -> C) (m1 : list (list A)) (m2 : list (list B))
  : list (list C) :=
  zip_with (zip_with f) m1 m2.

(** [np.roll(l, shift)] along one axis: element [i] moves to [i + shift],
    modulo the length. *)
Definition roll {A} (shift : Z) (l : list A) : list A :=
  let n := Z.of_nat (length l) in
  if n =? 0 then l
  else let k := Z.to_nat (n - shift mod n) in drop k l ++ take k l.

(** [np.transpose] of a matrix with [w] columns: the result has [w] rows. *)
Fixpoint transpose {A} (w : nat) (m : list (list A)) : list (list A) :=
  match m with
  | [] => replicate w []
  | r :: m' => zip_with cons r (transpose w m')
  end.

(** [np.rot90(a, k=1, axes=(1, 0))]: numpy flips axis 0, then transposes. *)
Definition rot90_cw {A} (a : ndarray A) : ndarray A :=
  mkArr (ncols a) (nrows a) (transpose (ncols a) (reverse (rows a))).

(** [np.rot90(a, k=1, axes=(0, 1))]: numpy flips axis 1, then transposes. *)
Definition rot90_ccw {A} (a : ndarray A) : ndarray A :=
  mkArr (ncols a) (nrows a) (transpose (ncols a) (map reverse (rows a))).

(** [a[mask]] for a boolean [mask] of the array's shape: the selected
    elements in row-major order; numpy raises [IndexError] when the shapes
    differ. *)
Definition bool_index {A} (a : ndarray A) (mask : ndarray bool) : outcome (list A) :=
  if decide (shape a = shape mask)
  then Return (concat (zip_with (fun r mr => (filter (fun p => snd p = true) (zip r mr)).*1)
                                (rows a) (rows mask)))
  else Raise IndexError.

(** [split_rows h w l]: [h] consecutive rows of [w] elements. *)
Fixpoint split_rows {A} (h w : nat) (l : list A) : list (list A) :=
  match h with
  | O => []
  | S h' => take w l :: split_rows h' w (drop w l)
  end.

(** [flat.reshape((h, -1))] (and [(h, -1, 3)], [(h, -1, 2)] on pixels and
    pairs): numpy infers the second dimension, and raises [ValueError] when
    [h] is 0 or does not divide the number of elements. *)
Definition reshape_rows {A} (h : nat) (l : list A) : outcome (ndarray A) :=
  if decide (h = 0%nat) then Raise ValueError
  else if decide ((length l `mod` h)%nat = 0%nat)
  then let w := (length l `div` h)%nat in Return (mkArr h w (split_rows h w l))
  else Raise ValueError.

(** [a[i, j] = x]. *)
Definition arr_set {A} (a : ndarray A) (i j : Z) (x : A) : outcome (ndarray A) :=
  let* r := py_index (nrows a) i in
  let* k := py_index (ncols a) j in
  let* row := list_get (rows a) r in
  Return (mkArr (nrows a) (ncols a) (<[r := <[k := x]> row]> (rows a))).

(** [a[i] = row]. *)
Definition arr_set_row {A} (a : ndarray A) (i : Z) (row : list A) : outcome (ndarray A) :=
  let* r := py_index (nrows a) i in
  Return (mkArr (nrows a) (ncols a) (<[r := row]> (rows a))).

(** [l[:k]] for a Python integer [k]. *)
Definition slice_stop {A} (k : Z) (l : list A) : list A :=
  take (Z.to_nat (if k <? 0 then Z.of_nat (length l) + k else k)) l.

(** [np.pad(a, ((0, 1), (0, 1)), mode="constant", constant_values=x)]. *)
Definition pad_bottom_right {A} (x : A) (a : ndarray A) : ndarray A :=
  mkArr (S (nrows a)) (S (ncols a))
        (map (fun r => r ++ [x]) (rows a) ++ [replicate (S (ncols a)) x]).

(** [a[:, :-1]] and [a[:-1, :]]. *)
Definition drop_last_col {A} (a : ndarray A) : ndarray A :=
  mkArr (nrows a) (pred (ncols a)) (map (take (pred (ncols a))) (rows a)).

Definition drop_last_row {A} (a : ndarray A) : ndarray A :=
  mkArr (pred (nrows a)) (ncols a) (take (pred (nrows a)) (rows a)).

(** [np.argmin] of a non-empty sequence: the first index of a least
    element; [ValueError] on an empty one. The values compared are never
    NaN (they come from pixel values in [0, 1] and from [+inf]). *)
Fixpoint argmin_from {A} (lt : A -> A -> bool) (best : A) (bi i : nat) (l : list A) : nat :=
  match l with
  | [] => bi
  | x :: l' => if lt x best then argmin_from lt x i (S i) l'
               else argmin_from lt best bi (S i) l'
  end.

Definition argmin {A} (lt : A -> A -> bool) (l : list A) : outcome nat :=
  match l with
  | [] => Raise ValueError
  | x :: l' => Return (argmin_from lt x 0%nat 1%nat l')
  end.

(** ** The carver object *)

(** The two classes that implement [find_minimal_seam]. *)
Inductive finder := Greedy | DP.

Definition pixel (F : Type) : Type := F * F * F.

(** The attributes of a [SeamImage] that the methods below read or write.
    [C_V], [C_L], [C_R], [M] and [backtrack_mat] do not exist before their
    first assignment; they are always written before they are read, and start
    as empty arrays here. [cumm_mask] has one boolean per pixel (the code
    repeats it over the three channels). [idx_map] holds (column, row). *)
Record SeamImage (F : Type) := mkSeamImage {
  kind : finder;
  rgb : ndarray (pixel F);
  resized_rgb : ndarray (pixel F);
  vis_seams : bool;
  seams_rgb : option (ndarray (pixel F));
  h : Z;
  w : Z;
  resized_gs : ndarray F;
  cumm_mask : ndarray bool;
  E : ndarray F;
  seam_history : list (list Z);
  idx_map : ndarray (Z * Z);
  C_V : ndarray F;
  C_L : ndarray F;
  C_R : ndarray F;
  M : ndarray (xfloat F);
  backtrack_mat : ndarray Z
}.
Arguments mkSeamImage {F}.
Arguments kind {F} _.
Arguments rgb {F} _.
Arguments resized_rgb {F} _.
Arguments vis_seams {F} _.
Arguments seams_rgb {F} _.
Arguments h {F} _.
Arguments w {F} _.
Arguments resized_gs {F} _.
Arguments cumm_mask {F} _.
Arguments E {F} _.
Arguments seam_history {F} _.
Arguments idx_map {F} _.
Arguments C_V {F} _.
Arguments C_L {F} _.
Arguments C_R {F} _.
Arguments M {F} _.
Arguments backtrack_mat {F} _.

Section Setters.
Context {F : Type}.
Implicit Type st : SeamImage F.

Definition with_resized_rgb v st :=
  mkSeamImage (kind st) (rgb st) v (vis_seams st) (seams_rgb st) (h st) (w st)
    (resized_gs st) (cumm_mask st) (E st) (seam_history st) (idx_map st)
    (C_V st) (C_L st) (C_R st) (M st) (backtrack_mat st).
Definition with_seams_rgb v st :=
  mkSeamImage (kind st) (rgb st) (resized_rgb st) (vis_seams st) v (h st) (w st)
    (resized_gs st) (cumm_mask st) (E st) (seam_history st) (idx_map st)
    (C_V st) (C_L st) (C_R st) (M st) (backtrack_mat st).
Definition with_hw vh vw st :=
  mkSeamImage (kind st) (rgb st) (resized_rgb st) (vis_seams st) (seams_rgb st) vh vw
    (resized_gs st) (cumm_mask st) (E st) (seam_history st) (idx_map st)
    (C_V st) (C_L st) (C_R st) (M st) (backtrack_mat st).
Definition with_resized_gs v st :=
  mkSeamImage (kind st) (rgb st) (resized_rgb st) (vis_seams st) (seams_rgb st) (h st) (w st)
    v (cumm_mask st) (E st) (seam_history st) (idx_map st)
    (C_V st) (C_L st) (C_R st) (M st) (backtrack_mat st).
Definition with_cumm_mask v st :=
  mkSeamImage (kind st) (rgb st) (resized_rgb st) (vis_seams st) (seams_rgb st) (h st) (w st)
    (resized_gs st) v (E st) (seam_history st) (idx_map st)
    (C_V st) (C_L st) (C_R st) (M st) (backtrack_mat st).
Definition with_E v st :=
  mkSeamImage (kind st) (rgb st) (resized_rgb st) (vis_seams st) (seams_rgb st) (h st) (w st)
    (resized_gs st) (cumm_mask st) v (seam_history st) (idx_map st)
    (C_V st) (C_L st) (C_R st) (M st) (backtrack_mat st).
Definition with_seam_history v st :=
  mkSeamImage (kind st) (rgb st) (resized_rgb st) (vis_seams st) (seams_rgb st) (h st) (w st)
    (resized_gs st) (cumm_mask st) (E st) v (idx_map st)
    (C_V st) (C_L st) (C_R st) (M st) (backtrack_mat st).
Definition with_idx_map v st :=
  mkSeamImage (kind st) (rgb st) (resized_rgb st) (vis_seams st) (seams_rgb st) (h st) (w st)
    (resized_gs st) (cumm_mask st) (E st) (seam_history st) v
    (C_V st) (C_L st) (C_R st) (M st) (backtrack_mat st).
Definition with_C cv cl cr st :=
  mkSeamImage (kind st) (rgb st) (resized_rgb st) (vis_seams st) (seams_rgb st) (h st) (w st)
    (resized_gs st) (cumm_mask st) (E st) (seam_history st) (idx_map st)
    cv cl cr (M st) (backtrack_mat st).
Definition with_M v st :=
  mkSeamImage (kind st) (rgb st) (resized_rgb st) (vis_seams st) (seams_rgb st) (h st) (w st)
    (resized_gs st) (cumm_mask st) (E st) (seam_history st) (idx_map st)
    (C_V st) (C_L st) (C_R st) v (backtrack_mat st).
Definition with_backtrack_mat v st :=
  mkSeamImage (kind st) (rgb st) (resized_rgb st) (vis_seams st) (seams_rgb st) (h st) (w st)
    (resized_gs st) (cumm_mask st) (E st) (seam_history st) (idx_map st)
    (C_V st) (C_L st) (C_R st) (M st) v.
End Setters.

(** A method: it runs on the object, may change it, and returns or raises.
    When it raises, the object stays as the statements before the raise left
    it. *)
Definition meth (F A : Type) : Type := SeamImage F -> outcome A * SeamImage F.

Definition mret {F A} (a : A) : meth F A := fun st => (Return a, st).

Definition mbind {F A B} (m : meth F A) (k : A -> meth F B) : meth F B :=
  fun st => match m st with
            | (Return a, st') => k a st'
            | (Raise e, st') => (Raise e, st')
            end.

(** An expression evaluated on the object, and an assignment to it. *)
Definition eval {F A} (f : SeamImage F -> outcome A) : meth F A := fun st => (f st, st).
Definition assign {F} (f : SeamImage F -> SeamImage F) : meth F unit := fun st => (Return tt, f st).

Notation "'call' x ':=' m 'in' k" := (mbind m (fun x => k))
  (at level 10, x name, m at level 100, k at level 200, only parsing).
Notation "'run' m 'in' k" := (mbind m (fun _ => k))
  (at level 10, m at level 100, k at level 200, only parsing).

Section Carver.
Context {F : Type} `{FloatOps F}.
Implicit Type st : SeamImage F.

(** *** SeamImage.rgb_to_grayscale

    [(np_img @ self.gs_weights).squeeze()]: the weighted channel sum, an
    (h, w, 1) array, with every axis of length one dropped. The result has
    rank two unless h or w is 1; [None] stands for an array of lower
    rank.

    [gray] is the sum r*w_r + g*w_g + b*w_b with every product and every
    sum rounded, left to right. numpy leaves the rounding inside [@] to the
    matrix-product kernel, which may fuse a product with a sum, so on a
    pixel with more than one non-zero channel the float64 value of [gray]
    can differ from numpy's in the last bit. On a pixel with at most one
    non-zero channel both are the single rounded product, and the images
    the code is evaluated on below have only such pixels. The checked
    properties do not fix the float64 value of a grayscale cell through
    [gray]. *)
Definition gray (p : pixel F) : F :=
  let '(r, g, b) := p in fadd (fadd (fmul r w_r) (fmul g w_g)) (fmul b w_b).

Definition rgb_to_grayscale (np_img : ndarray (pixel F)) : option (ndarray F) :=
  if decide (nrows np_img = 1%nat \/ ncols np_img = 1%nat) then None
  else Some (arr_map gray np_img).

(** *** SeamImage.calc_gradient_magnitude *)

(** [np.diff(a, axis=0)] and [np.diff(a, axis=1)]. *)
Definition diff_axis0 (a : ndarray F) : ndarray F :=
  mkArr (pred (nrows a)) (ncols a) (rows_map2 fsub (tail (rows a)) (rows a)).

Definition diff_axis1 (a : ndarray F) : ndarray F :=
  mkArr (nrows a) (pred (ncols a)) (map (fun r => zip_with fsub (tail r) r) (rows a)).

(** [np.sqrt(np.square(a) + np.square(b))], elementwise. *)
Definition magnitude (a b : F) : F := fsqrt (fadd (fmul a a) (fmul b b)).

Definition gradient_magnitude (gs : ndarray F) : ndarray F :=
  let padded := pad_bottom_right fhalf gs in
  let d0 := drop_last_col (diff_axis0 padded) in
  let d1 := drop_last_row (diff_axis1 padded) in
  mkArr (nrows d0) (ncols d0) (rows_map2 magnitude (rows d0) (rows d1)).

Definition calc_gradient_magnitude st : ndarray F :=
  gradient_magnitude (resized_gs st).

(** *** SeamImage.calc_C *)

Definition cost_V (jp jm im : F) : F := fabs (fsub jp jm).
Definition cost_L (jp jm im : F) : F := fadd (fabs (fsub jp jm)) (fabs (fsub jm im)).
Definition cost_R (jp jm im : F) : F := fadd (fabs (fsub jp jm)) (fabs (fsub jp im)).

Definition rows_map3 (f : F -> F -> F -> F) (a b c : list (list F)) : list (list F) :=
  zip_with (fun ra p => zip_with (fun x q => f x q.1 q.2) ra (zip p.1 p.2)) a (zip b c).

Definition calc_C st : SeamImage F :=
  let gs := resized_gs st in
  let j_plus := roll (-1) (rows gs) in
  let j_minus := roll 1 (rows gs) in
  let i_minus := map (roll 1) (rows gs) in
  let grid f := mkArr (nrows gs) (ncols gs) (rows_map3 f j_plus j_minus i_minus) in
  with_C (grid cost_V) (grid cost_L) (grid cost_R) st.

(** *** SeamImage.paint_seams *)

(** [cumm_mask[ys, xs] = True] for the index arrays [ys], [xs]: numpy
    checks every index before it writes. *)
Definition set_true (m : ndarray bool) (p : Z * Z) : outcome (ndarray bool) :=
  arr_set m p.2 p.1 true.

Fixpoint set_all (m : ndarray bool) (ps : list (Z * Z)) : outcome (ndarray bool) :=
  match ps with
  | [] => Return m
  | p :: ps' => let* m' := set_true m p in set_all m' ps'
  end.

Definition red : pixel F := (fone, fzero, fzero).

(** [np.where(mask, a, [1, 0, 0])]. *)
Definition np_where (mask : ndarray bool) (a : ndarray (pixel F)) : ndarray (pixel F) :=
  mkArr (nrows a) (ncols a)
        (rows_map2 (fun (b : bool) p => if b then p else red) (rows mask) (rows a)).

Definition paint_seams : meth F unit :=
  run assign (fun st => with_cumm_mask (np_full (nrows (rgb st)) (ncols (rgb st)) false) st) in
  call m := eval (fun st =>
    set_all (cumm_mask st)
            (concat (map (slice_stop (w st)) (slice_stop (h st) (rows (idx_map st)))))) in
  run assign (with_cumm_mask m) in
  assign (fun st => with_seams_rgb (Some (np_where (cumm_mask st) (rgb st))) st).

(** *** SeamImage.remove_seam *)

(** [for i in range(h): mask[i, seam[i]] = False], [n] iterations from
    row [i]. *)
Fixpoint mask_loop (seam : list Z) (n i : nat) (mask : ndarray bool)
  : outcome (ndarray bool) :=
  match n with
  | O => Return mask
  | S n' =>
      let* c := list_get seam i in
      let* mask' := arr_set mask (Z.of_nat i) c false in
      mask_loop seam n' (S i) mask'
  end.

Definition seam_mask (hh ww : nat) (seam : list Z) : outcome (ndarray bool) :=
  mask_loop seam hh 0%nat (np_full hh ww true).

(** [a[mask].reshape((h, -1, ...))]. *)
Definition carve {A} (hh : nat) (mask : ndarray bool) (a : ndarray A) : outcome (ndarray A) :=
  let* flat := bool_index a mask in reshape_rows hh flat.

Definition remove_seam (seam : list Z) : meth F unit :=
  call hh := eval (fun st => Return (nrows (resized_rgb st))) in
  call mask := eval (fun st => seam_mask hh (ncols (resized_rgb st)) seam) in
  call new_rgb := eval (fun st => carve hh mask (resized_rgb st)) in
  run assign (with_resized_rgb new_rgb) in
  call new_gs := eval (fun st => carve hh mask (resized_gs st)) in
  run assign (with_resized_gs new_gs) in
  call vis := eval (fun st => Return (vis_seams st)) in
  run (if vis : bool
       then call new_idx := eval (fun st => carve hh mask (idx_map st)) in
            assign (with_idx_map new_idx)
       else mret tt) in
  assign (fun st => with_hw (h st) (w st - 1) st).

(** *** SeamImage.rotate_mats *)

Definition rot90 {A} (clockwise : bool) (a : ndarray A) : ndarray A :=
  if clockwise then rot90_cw a else rot90_ccw a.

Definition rotate_mats (clockwise : bool) : meth F unit :=
  run assign (fun st => with_resized_gs (rot90 clockwise (resized_gs st)) st) in
  run assign (fun st => with_resized_rgb (rot90 clockwise (resized_rgb st)) st) in
  run assign (fun st => with_hw (w st) (h st) st) in
  call vis := eval (fun st => Return (vis_seams st)) in
  if vis : bool
  then assign (fun st => with_idx_map (rot90 clockwise (idx_map st)) st)
  else mret tt.

(** *** GreedySeamImage.find_minimal_seam *)

(** One candidate: [self.E[r][c] + C[r][c]]. *)
Definition candidate st (C : ndarray F) (r c : Z) : outcome F :=
  let* e := get2 (E st) r c in
  let* k := get2 C r c in
  Return (fadd e k).

(** The body of [if i + 1 < h]: the list [candidates] for the current
    column [min_idx], its [np.argmin], and the next [min_idx]. *)
Definition candidates st (ww i min_idx : Z) : outcome (list F) :=
  let* left := (if 0 <? min_idx
                then let* x := candidate st (C_L st) (i + 1) (min_idx - 1) in Return [x]
                else Return []) in
  let* center := candidate st (C_V st) (i + 1) min_idx in
  let* right := (if min_idx <? ww - 1
                 then let* x := candidate st (C_R st) (i + 1) (min_idx + 1) in Return [x]
                 else Return []) in
  Return (left ++ [center] ++ right).

Definition greedy_next st (ww i min_idx : Z) : outcome Z :=
  let* cs := candidates st ww i min_idx in
  let* direction := argmin fltb cs in
  Return (min_idx + Z.of_nat direction - 1).

(** [for i in range(h)], [n] iterations from row [i]; [seam] is the numpy
    array the loop fills. *)
Fixpoint greedy_loop st (hh ww : Z) (n : nat) (i min_idx : Z) (seam : list Z)
  : outcome (list Z) :=
  match n with
  | O => Return seam
  | S n' =>
      let seam' := <[Z.to_nat i := min_idx]> seam in
      if i + 1 <? hh
      then let* next := greedy_next st ww i min_idx in
           greedy_loop st hh ww n' (i + 1) next seam'
      else greedy_loop st hh ww n' (i + 1) min_idx seam'
  end.

Definition greedy_find_minimal_seam : meth F (list Z) :=
  call hh := eval (fun st => Return (nrows (E st))) in
  call ww := eval (fun st => Return (ncols (E st))) in
  run assign calc_C in
  call row0 := eval (fun st => get_row (E st) 0) in
  call min_idx := eval (fun _ => argmin fltb row0) in
  eval (fun st => greedy_loop st (Z.of_nat hh) (Z.of_nat ww) hh 0 (Z.of_nat min_idx)
                              (replicate hh 0)).

(** *** DPSeamImage.calc_M *)

(** [cost_matrix] for one row: three rows of [w] costs. The slice
    assignments need [CL], [CV] and [CR] to have [w] entries, as they do
    whenever the cost grids and [E] come from one grayscale buffer; numpy
    raises [ValueError] on operands it cannot broadcast. *)
Definition cost_matrix (ww : nat) (m_prev : list (xfloat F)) (CL CV CR : list F)
  : outcome (list (list (xfloat F))) :=
  if decide (length m_prev = ww /\ length CL = ww /\ length CV = ww /\ length CR = ww)
  then
    let full := replicate ww PInf in
    let left := take 1 full ++ zip_with xadd (take (ww - 1) m_prev) (map Fin (drop 1 CL)) in
    let vertical := zip_with xadd m_prev (map Fin CV) in
    let right := zip_with xadd (drop 1 m_prev) (map Fin (take (ww - 1) CR))
                 ++ drop (ww - 1) full in
    Return [left; vertical; right]
  else Raise ValueError.

(** Column [j] of a list of rows. *)
Definition column {A} (m : list (list A)) (j : nat) : list A :=
  omap (fun r => r !! j) m.

Definition direction_map : list Z := [-1; 0; 1].

(** [np.argmin(cost_matrix, axis=0)]. *)
Definition argmin_axis0 (ww : nat) (cm : list (list (xfloat F))) : outcome (list nat) :=
  omapM (fun j => argmin xltb (column cm j)) (seq 0 ww).

(** [cost_matrix[min_indices, np.arange(w)]]. *)
Definition take_along (cm : list (list (xfloat F))) (ks : list nat)
  : outcome (list (xfloat F)) :=
  omapM (fun kj : nat * nat => let* r := list_get cm kj.1 in list_get r kj.2)
        (zip ks (seq 0 (length ks))).

(** [for i in range(1, h)], [n] iterations from row [i]; [Mg] is the
    local [M]. *)
Fixpoint calc_M_loop (ww : nat) (n : nat) (i : Z) (Mg : ndarray (xfloat F))
  : meth F (ndarray (xfloat F)) :=
  match n with
  | O => mret Mg
  | S n' =>
      call m_prev := eval (fun _ => get_row Mg (i - 1)) in
      call CL := eval (fun st => get_row (C_L st) (i - 1)) in
      call CV := eval (fun st => get_row (C_V st) (i - 1)) in
      call CR := eval (fun st => get_row (C_R st) (i - 1)) in
      call cm := eval (fun _ => cost_matrix ww m_prev CL CV CR) in
      call min_indices := eval (fun _ => argmin_axis0 ww cm) in
      call min_values := eval (fun _ => take_along cm min_indices) in
      call dirs := eval (fun _ => omapM (list_get direction_map) min_indices) in
      call bt := eval (fun st => arr_set_row (backtrack_mat st) i dirs) in
      run assign (with_backtrack_mat bt) in
      call Mi := eval (fun _ => get_row Mg i) in
      call Mg' := eval (fun _ => arr_set_row Mg i (zip_with xadd Mi min_values)) in
      calc_M_loop ww n' (i + 1) Mg'
  end.

Definition calc_M : meth F (ndarray (xfloat F)) :=
  call hh := eval (fun st => Return (nrows (E st))) in
  call ww := eval (fun st => Return (ncols (E st))) in
  call M0 := eval (fun st => Return (arr_map Fin (E st))) in
  run assign (with_backtrack_mat (np_full hh ww 0)) in
  calc_M_loop ww (hh - 1) 1 M0.

(** *** DPSeamImage.init_mats *)

Definition init_mats : meth F unit :=
  run assign (fun st => with_backtrack_mat (np_full (nrows (E st)) (ncols (E st)) 0) st) in
  run assign calc_C in
  call Mg := calc_M in
  assign (with_M Mg).

(** *** DPSeamImage.find_minimal_seam *)

(** [for i in range(self.h - 2, -1, -1)]: [n] iterations, the first at
    [i + 1 = n]; the columns are returned in the order they are appended. *)
Fixpoint backtrack_loop st (n : nat) (min_idx : Z) : outcome (list Z) :=
  match n with
  | O => Return []
  | S n' =>
      let* L_V_or_R := get2 (backtrack_mat st) (Z.of_nat n) min_idx in
      let min_idx' := Z.max 0 (Z.min (min_idx + L_V_or_R) (w st - 2)) in
      let* rest := backtrack_loop st n' min_idx' in
      Return (min_idx' :: rest)
  end.

Definition dp_find_minimal_seam : meth F (list Z) :=
  run init_mats in
  call last := eval (fun st => get_row (M st) (-1)) in
  call min_idx := eval (fun _ => argmin xltb last) in
  call walk := eval (fun st => backtrack_loop st (Z.to_nat (h st - 1)) (Z.of_nat min_idx)) in
  mret (reverse (Z.of_nat min_idx :: walk)).

Definition find_minimal_seam : meth F (list Z) :=
  fun st => match kind st with
            | Greedy => greedy_find_minimal_seam st
            | DP => dp_find_minimal_seam st
            end.

(** *** SeamImage.seams_removal *)

(** [for _ in tqdm(range(num_remove))], [n] iterations. ([self.mask], a
    grid of ones nothing reads, is left out.) The progress bar is left out
    too: it asks [range(num_remove)] for its length, which raises
    OverflowError for [num_remove >= 2^63] before the first iteration, so
    the loop stands for the code for [num_remove < 2^63] only. A count that
    the loop can complete is at most the width of the image, far below
    that. *)
Fixpoint removal_loop (n : nat) : meth F unit :=
  match n with
  | O => mret tt
  | S n' =>
      run assign (fun st => with_E (calc_gradient_magnitude st) st) in
      call seam := find_minimal_seam in
      run assign (fun st => with_seam_history (seam_history st ++ [seam]) st) in
      run remove_seam seam in
      removal_loop n'
  end.

Definition seams_removal (num_remove : Z) : meth F unit :=
  run removal_loop (Z.to_nat num_remove) in
  call vis := eval (fun st => Return (vis_seams st)) in
  if vis : bool then paint_seams else mret tt.

Definition seams_removal_vertical (num_remove : Z) : meth F unit :=
  seams_removal num_remove.

Definition seams_removal_horizontal (num_remove : Z) : meth F unit :=
  run rotate_mats true in
  run seams_removal num_remove in
  rotate_mats false.

(** *** SeamImage.__init__ and DPSeamImage.__init__

    [img] is the decoded image, [load_image(img_path)]. The constructor
    raises when the grayscale has lost an axis to [squeeze]: [np.pad] in
    [calc_gradient_magnitude] refuses a pad width for two axes. *)
Definition meshgrid (hh ww : nat) : ndarray (Z * Z) :=
  mkArr hh ww (map (fun i => map (fun j => (Z.of_nat j, Z.of_nat i)) (seq 0 ww)) (seq 0 hh)).

Definition empty_arr {A} : ndarray A := mkArr 0 0 [].

Definition SeamImage_init (k : finder) (img : ndarray (pixel F)) (vis : bool)
  : outcome (SeamImage F) :=
  match rgb_to_grayscale img with
  | None => Raise ValueError
  | Some gs =>
      let st :=
        {| kind := k;
           rgb := img;
           resized_rgb := img;
           vis_seams := vis;
           seams_rgb := if vis then Some img else None;
           h := Z.of_nat (nrows img);
           w := Z.of_nat (ncols img);
           resized_gs := gs;
           cumm_mask := np_full (nrows gs) (ncols gs) true;
           E := gradient_magnitude gs;
           seam_history := [];
           idx_map := meshgrid (nrows img) (ncols img);
           C_V := empty_arr;
           C_L := empty_arr;
           C_R := empty_arr;
           M := empty_arr;
           backtrack_mat := empty_arr |} in
      match k with
      | Greedy => Return st
      | DP => match init_mats st with
              | (Return _, st') => Return st'
              | (Raise e, _) => Raise e
              end
      end
  end.

(** *** SeamImage.reinit

    [self.__init__(img_path=self.path)]: the same file is decoded again,
    and [vis_seams] takes its default, [True]. [__init__] runs on the object
    itself, so an attribute it does not assign keeps the value it had:
    [SeamImage.__init__] assigns neither the cost grids [C_V], [C_L], [C_R]
    nor [M] and [backtrack_mat], which a [GreedySeamImage] therefore keeps;
    [DPSeamImage.__init__] assigns all of them through [init_mats]. (When
    [__init__] raises, the object is left as it was here; it cannot raise on
    an object whose image a constructor has accepted.) *)
Definition reinit : meth F unit :=
  fun st => match SeamImage_init (kind st) (rgb st) true with
            | Return st' =>
                (Return tt,
                 match kind st with
                 | Greedy =>
                     with_C (C_V st) (C_L st) (C_R st)
                       (with_M (M st) (with_backtrack_mat (backtrack_mat st) st'))
                 | DP => st'
                 end)
            | Raise e => (Raise e, st)
            end.

(** *** resize_seam_carving

    [shapes] is the pair (original shape, target shape), each (y, x). *)
Definition height_diff (shapes : (Z * Z) * (Z * Z)) : Z := shapes.1.1 - shapes.2.1.
Definition width_diff (shapes : (Z * Z) * (Z * Z)) : Z := shapes.1.2 - shapes.2.2.

Definition resize_seam_carving (shapes : (Z * Z) * (Z * Z)) : meth F (ndarray (pixel F)) :=
  run reinit in
  run seams_removal_vertical (width_diff shapes) in
  run seams_removal_horizontal (height_diff shapes) in
  eval (fun st => Return (resized_rgb st)).

End Carver.


(** ** Predicates the properties are stated with *)

(** The mask row that hides column [k]. *)
Definition marked (ww k : nat) : list bool := <[k := false]> (replicate ww true).

(** The array without column [ks !! i] of row [i]. *)
Definition cut_columns {A} (ks : list nat) (a : ndarray A) : ndarray A :=
  mkArr (nrows a) (ncols a - 1) (zip_with (fun k r => delete k r) ks (rows a)).

(** The rows of a backtrack grid hold direction codes. *)
Definition directions (bt : ndarray Z) : Prop :=
  Forall (Forall (fun d => -1 <= d <= 1)) (rows bt).

(** A seam for an image of height [hh] and width [ww]: one column per row,
    each inside the image, neighbours at most one column apart. *)
Definition valid_seam (hh ww : nat) (seam : list Z) : Prop :=
  length seam = hh /\
  Forall (fun c => 0 <= c < Z.of_nat ww) seam /\
  forall i a b, seam !! i = Some a -> seam !! S i = Some b -> Z.abs (b - a) <= 1.

(** An index-map entry (column, row) that lies inside the array [img]. *)
Definition in_bounds {A} (img : ndarray A) (p : Z * Z) : Prop :=
  0 <= p.1 < Z.of_nat (ncols img) /\ 0 <= p.2 < Z.of_nat (nrows img).

Section Invariants.
Context {F : Type}.
Implicit Type st : SeamImage F.

(** The working buffers are arrays of one shape, and [h], [w] store it. *)
Definition buffers_in_sync st : Prop :=
  wf_arr (rgb st) /\
  wf_arr (resized_rgb st) /\ wf_arr (resized_gs st) /\
  shape (resized_gs st) = shape (resized_rgb st) /\
  h st = Z.of_nat (nrows (resized_rgb st)) /\
  w st = Z.of_nat (ncols (resized_rgb st)).

(** The entries of the index map, in row-major order. *)
Definition idx_entries st : list (Z * Z) := concat (rows (idx_map st)).

(** The index map has the shape of the working image, no entry twice, and
    only coordinates of the original image. *)
Definition idx_map_ok st : Prop :=
  wf_arr (idx_map st) /\ shape (idx_map st) = shape (resized_rgb st) /\
  NoDup (idx_entries st) /\ Forall (in_bounds (rgb st)) (idx_entries st).

Definition carver_inv st : Prop :=
  buffers_in_sync st /\ wf_arr (idx_map st) /\ (vis_seams st = true -> idx_map_ok st).

(** The attributes that seam finding and painting leave alone. *)
Definition frame_eq st st' : Prop :=
  kind st' = kind st /\ rgb st' = rgb st /\ resized_rgb st' = resized_rgb st /\
  vis_seams st' = vis_seams st /\ h st' = h st /\ w st' = w st /\
  resized_gs st' = resized_gs st /\ idx_map st' = idx_map st /\
  seam_history st' = seam_history st.

Definition framed {A} (m : meth F A) : Prop := forall st, frame_eq st (m st).2.
End Invariants.

(** The objects a program can hold: a freshly constructed carver, and what
    the public methods and [resize_seam_carving] make of one when they
    return. *)
Inductive reachable {F : Type} `{FloatOps F} : SeamImage F -> Prop :=
  | reach_init k img vis st :
      wf_arr img -> SeamImage_init k img vis = Return st -> reachable st
  | reach_remove_seam seam st st' :
      reachable st -> remove_seam seam st = (Return tt, st') -> reachable st'
  | reach_rotate_mats b st st' :
      reachable st -> rotate_mats b st = (Return tt, st') -> reachable st'
  | reach_seams_removal n st st' :
      reachable st -> seams_removal n st = (Return tt, st') -> reachable st'
  | reach_seams_removal_vertical n st st' :
      reachable st -> seams_removal_vertical n st = (Return tt, st') -> reachable st'
  | reach_seams_removal_horizontal n st st' :
      reachable st -> seams_removal_horizontal n st = (Return tt, st') -> reachable st'
  | reach_resize shapes st img st' :
      reachable st -> resize_seam_carving shapes st = (Return img, st') -> reachable st'.

(** ** The recurrence for M, as the specification words it

    These two definitions follow the specification, not [calc_M]: the least
    of three candidates, the left one first among equals, and the value of
    M[i][j] for a row i > 0, read off the grids of a state: E[i][j] plus the
    least of M[i-1][j-1] + C_L[i][j] (infinite when j = 0),
    M[i-1][j] + C_V[i][j] and M[i-1][j+1] + C_R[i][j] (infinite when
    j = w - 1). They are compared with what [calc_M] stores. *)
Definition xmin3 `{FloatOps F} (a b c : xfloat F) : xfloat F :=
  let m := if xltb b a then b else a in
  if xltb c m then c else m.

Definition recurrence_M_cell `{FloatOps F} (st : SeamImage F) (i j : Z)
  : outcome (xfloat F) :=
  let* e := get2 (E st) i j in
  let* left :=
    (if decide (j = 0) then Return PInf
     else let* m := get2 (M st) (i - 1) (j - 1) in
          let* c := get2 (C_L st) i j in
          Return (xadd m (Fin c))) in
  let* up := get2 (M st) (i - 1) j in
  let* cv := get2 (C_V st) i j in
  let* right :=
    (if decide (j = Z.of_nat (ncols (E st)) - 1) then Return PInf
     else let* m := get2 (M st) (i - 1) (j + 1) in
          let* c := get2 (C_R st) i j in
          Return (xadd m (Fin c))) in
  Return (xadd (Fin e) (xmin3 left (xadd up (Fin cv)) right)).

(** ** Concrete inputs

    Small float64 images on which the code is run: black 2x2 and 10x10
    images (every grayscale value is exactly 0, whatever the order in which
    the weighted channels are summed). *)
Definition black : pixel PrimFloat.float := (0%float, 0%float, 0%float).

Definition black_image (hh ww : nat) : ndarray (pixel PrimFloat.float) :=
  np_full hh ww black.



(** A pixel with red channel [r] and no green or blue: its grayscale is
    [r * 0.299]. *)
Definition px (r : PrimFloat.float) : pixel PrimFloat.float := (r, 0%float, 0%float).

(** A 3x2 image, black but for one red pixel at row 1, column 0. *)
Definition red_dot : ndarray (pixel PrimFloat.float) :=
  mkArr 3 2 [[px 0; px 0]; [px 1; px 0]; [px 0; px 0]].
(** ** Predicates for the walks of the seam finders *)

(** What the greedy loop has written before row [i]: the rows below [i]
    hold the walk, which has moved by at most one column per row, never
    right of the last column and at most one column to the left per row;
    the current column [min_idx] is next to the column of row [i - 1]. *)
Definition walked (ww : nat) (i : nat) (min_idx : Z) (seam : list Z) : Prop :=
  (forall k c, (k < i)%nat -> seam !! k = Some c -> - Z.of_nat k <= c <= Z.of_nat ww - 1) /\
  (forall k a b, (S k < i)%nat -> seam !! k = Some a -> seam !! S k = Some b ->
                 Z.abs (b - a) <= 1) /\
  (forall k a, i = S k -> seam !! k = Some a -> Z.abs (min_idx - a) <= 1).

(** The three candidates [calc_M] compares for cell (i, j), read off the
    grids of an object: [cost_matrix[:, j]] of the iteration for row [i],
    that is M[i-1][j-1] + C_L[i-1][j] (infinite when j = 0),
    M[i-1][j] + C_V[i-1][j] and M[i-1][j+1] + C_R[i-1][j] (infinite when
    j = w - 1). *)
Definition M_candidates `{FloatOps F} (st : SeamImage F) (i j : Z)
  : outcome (list (xfloat F)) :=
  let* left :=
    (if decide (j = 0) then Return PInf
     else let* m := get2 (M st) (i - 1) (j - 1) in
          let* c := get2 (C_L st) (i - 1) j in
          Return (xadd m (Fin c))) in
  let* up := get2 (M st) (i - 1) j in
  let* cv := get2 (C_V st) (i - 1) j in
  let* right :=
    (if decide (j = Z.of_nat (ncols (E st)) - 1) then Return PInf
     else let* m := get2 (M st) (i - 1) (j + 1) in
          let* c := get2 (C_R st) (i - 1) j in
          Return (xadd m (Fin c))) in
  Return [left; xadd up (Fin cv); right].

(** ** SeamImage.update_ref_mat

    [for i, s in enumerate(self.seam_history[-1]): self.idx_map[i, s:] += 1].
    The slice [s:] starts at [s] clipped to the row (a negative [s] counts
    from the end), and [+= 1] adds one to both numbers of every pair in it.
    The array is updated in place, row after row: when [idx_map[i]] raises,
    the rows before [i] stay updated. (Integers are unbounded here; the
    entries of [idx_map] are int64 in numpy.) *)
Definition slice_start (n : nat) (s : Z) : nat :=
  if s <? 0 then Z.to_nat (Z.max 0 (Z.of_nat n + s)) else Z.to_nat (Z.min s (Z.of_nat n)).

Definition bump (p : Z * Z) : Z * Z := (p.1 + 1, p.2 + 1).

Definition bump_from (s : Z) (row : list (Z * Z)) : list (Z * Z) :=
  let k := slice_start (length row) s in take k row ++ map bump (drop k row).

Fixpoint update_ref_loop {F} (seam : list Z) (i : nat) : meth F unit :=
  match seam with
  | [] => mret tt
  | s :: seam' =>
      call row := eval (fun st => get_row (idx_map st) (Z.of_nat i)) in
      run assign (fun st =>
            with_idx_map (mkArr (nrows (idx_map st)) (ncols (idx_map st))
                                (<[i := bump_from s row]> (rows (idx_map st)))) st) in
      update_ref_loop seam' (S i)
  end.

Definition update_ref_mat {F} : meth F unit :=
  call seam := eval (fun st => let* k := py_index (length (seam_history st)) (-1) in
                               list_get (seam_history st) k) in
  update_ref_loop seam 0.

(** * Properties

    ** Arrays: transposition and rotation *)

Section ArrayFacts.
Context {A : Type}.
Implicit Types (m : list (list A)) (r : list A).

Lemma wf_rows_cons hh ww r m :
  wf_rows (S hh) ww (r :: m) <-> length r = ww /\ wf_rows hh ww m.
Proof.
  unfold wf_rows. rewrite Forall_cons. simpl. intuition lia.
Qed.

Lemma wf_rows_nil ww (m : list (list A)) : wf_rows 0 ww m <-> m = [].
Proof.
  unfold wf_rows. split.
  - intros [Hl _]. by destruct m.
  - intros ->. split; [done | constructor].
Qed.

Lemma transpose_length ww m :
  Forall (fun r => length r = ww) m -> length (transpose ww m) = ww.
Proof.
  induction 1 as [| r m Hr Hm IH]; simpl.
  - by rewrite length_replicate.
  - rewrite length_zip_with. lia.
Qed.

Lemma transpose_wf hh ww m : wf_rows hh ww m -> wf_rows ww hh (transpose ww m).
Proof.
  revert hh. induction m as [| r m IH]; intros hh [Hl Hf]; simpl in *; subst hh.
  - split; [by rewrite length_replicate |]. apply Forall_replicate. done.
  - inversion Hf as [| ? ? Hr Hm]; subst.
    destruct (IH (length m)) as [IH1 IH2]; [by split |].
    split; [rewrite length_zip_with; lia |].
    clear IH1 Hf Hm IH. revert IH2. generalize (transpose (length r) m) as T.
    induction r as [| x r IHr]; intros T HT; destruct T as [| c T]; simpl; try constructor.
    + inversion HT; subst. simpl. lia.
    + inversion HT; subst. by apply IHr.
Qed.

Lemma transpose_cons_rows hh ww (T : list (list A)) r :
  wf_rows ww hh T -> length r = ww ->
  transpose (S hh) (zip_with cons r T) = r :: transpose hh T.
Proof.
  revert ww r. induction T as [| c T IH]; intros ww r [Hl Hf] Hr; simpl in *.
  - subst ww. destruct r; [| done]. done.
  - destruct r as [| x r]; [simpl in *; lia |]. simpl.
    inversion Hf; subst. rewrite (IH (length T) r); [| by split | simpl in Hr; lia].
    done.
Qed.

Lemma transpose_involutive hh ww m :
  wf_rows hh ww m -> transpose hh (transpose ww m) = m.
Proof.
  revert hh. induction m as [| r m IH]; intros hh [Hl Hf]; simpl in *; subst hh.
  - by destruct ww.
  - inversion Hf; subst.
    rewrite (transpose_cons_rows (length m) (length r)); [| by apply transpose_wf | done].
    rewrite IH; [done | by split].
Qed.

Lemma transpose_snoc ww m r :
  Forall (fun r => length r = ww) m -> length r = ww ->
  transpose ww (m ++ [r]) = zip_with (fun c x => c ++ [x]) (transpose ww m) r.
Proof.
  intros Hf Hr. induction Hf as [| r' m Hr' Hm IH]; simpl.
  - subst ww. clear. induction r as [| x r IH]; simpl; [done |]. by rewrite IH.
  - rewrite IH. clear IH.
    assert (Hl : length (transpose ww m) = ww) by by apply transpose_length.
    revert Hl Hr Hr'. generalize (transpose ww m) as T. clear.
    intros T. revert r r' ww.
    induction T as [| c T IH]; intros r r' ww Hl Hr Hr'; simpl in *.
    + subst ww. destruct r, r'; done.
    + destruct r as [| x r]; [simpl in *; lia |].
      destruct r' as [| x' r']; [simpl in *; lia |]. simpl.
      rewrite (IH r r' (length T)); simpl in *; [done | done | lia | lia].
Qed.

Lemma transpose_reverse ww m :
  Forall (fun r => length r = ww) m ->
  transpose ww (reverse m) = map reverse (transpose ww m).
Proof.
  induction 1 as [| r m Hr Hm IH]; simpl.
  - induction ww; simpl; [done |]. rewrite <- IHww. by rewrite reverse_nil.
  - rewrite reverse_cons, transpose_snoc; [| by apply Forall_reverse | done].
    rewrite IH.
    assert (Hl : length (transpose ww m) = ww) by by apply transpose_length.
    revert Hl Hr. generalize (transpose ww m) as T. clear.
    intros T. revert r ww. induction T as [| c T IH]; intros r ww Hl Hr; simpl in *.
    + by destruct r.
    + destruct r as [| x r]; [simpl in *; lia |]. simpl.
      rewrite reverse_cons. f_equal. apply (IH r (length T)); simpl in *; lia.
Qed.

Lemma map_reverse_involutive m : map reverse (map reverse m) = m.
Proof.
  induction m as [| r m IH]; simpl; [done |]. by rewrite reverse_involutive, IH.
Qed.
End ArrayFacts.

Lemma rot90_ccw_cw {A} (a : ndarray A) : wf_arr a -> rot90_ccw (rot90_cw a) = a.
Proof.
  destruct a as [hh ww m]. unfold wf_arr, rot90_ccw, rot90_cw. simpl. intros Hwf.
  f_equal. destruct Hwf as [Hl Hf].
  rewrite transpose_reverse by done. rewrite map_reverse_involutive.
  by apply transpose_involutive.
Qed.

(** ** Methods *)

Section MethodFacts.
Context {F : Type} `{FloatOps F}.
Implicit Type st : SeamImage F.

Lemma SeamImage_eta st :
  st = mkSeamImage (kind st) (rgb st) (resized_rgb st) (vis_seams st) (seams_rgb st)
         (h st) (w st) (resized_gs st) (cumm_mask st) (E st) (seam_history st)
         (idx_map st) (C_V st) (C_L st) (C_R st) (M st) (backtrack_mat st).
Proof. by destruct st. Qed.

Lemma rot90_shape {A} b (a : ndarray A) : shape (rot90 b a) = (ncols a, nrows a).
Proof. by destruct b. Qed.

Lemma rot90_wf {A} b (a : ndarray A) : wf_arr a -> wf_arr (rot90 b a).
Proof.
  destruct a as [hh ww m]. intros [Hl Hf].
  destruct b; unfold wf_arr, rot90, rot90_cw, rot90_ccw; simpl in *.
  - apply transpose_wf. split; [by rewrite length_reverse | by apply Forall_reverse].
  - apply transpose_wf. split; [by rewrite length_map |].
    apply Forall_fmap. eapply Forall_impl; [exact Hf |].
    intros r Hr. simpl. by rewrite length_reverse.
Qed.

Lemma rotate_mats_run b st :
  rotate_mats b st =
  (Return tt,
   (if vis_seams st then with_idx_map (rot90 b (idx_map st)) else fun s => s)
     (with_hw (w st) (h st)
        (with_resized_rgb (rot90 b (resized_rgb st))
           (with_resized_gs (rot90 b (resized_gs st)) st)))).
Proof. unfold rotate_mats, mbind, assign, eval, mret. simpl. by destruct (vis_seams st). Qed.
End MethodFacts.


(** ** Indexing *)

Lemma py_index_inv n i k :
  py_index n i = Return k ->
  (k < n)%nat /\ - Z.of_nat n <= i < Z.of_nat n /\
  Z.of_nat k = (if i <? 0 then Z.of_nat n + i else i).
Proof.
  unfold py_index. intros Hk.
  destruct (i <? 0) eqn:Hneg; [apply Z.ltb_lt in Hneg | apply Z.ltb_ge in Hneg].
  - replace (0 <=? i) with false in Hk by (symmetry; apply Z.leb_gt; lia).
    simpl in Hk. destruct (- Z.of_nat n <=? i) eqn:Hlo; simpl in Hk; [| done].
    apply Z.leb_le in Hlo. injection Hk as <-. lia.
  - replace (0 <=? i) with true in Hk by (symmetry; apply Z.leb_le; lia).
    simpl in Hk. destruct (i <? Z.of_nat n) eqn:Hhi; simpl in Hk.
    + apply Z.ltb_lt in Hhi. injection Hk as <-. lia.
    + rewrite andb_false_r in Hk. done.
Qed.

Lemma py_index_nonneg n i :
  0 <= i < Z.of_nat n -> py_index n i = Return (Z.to_nat i).
Proof.
  intros Hi. unfold py_index.
  replace (0 <=? i) with true by (symmetry; apply Z.leb_le; lia).
  replace (i <? Z.of_nat n) with true by (symmetry; apply Z.ltb_lt; lia). done.
Qed.

Lemma py_index_neg n i :
  - Z.of_nat n <= i < 0 -> py_index n i = Return (Z.to_nat (Z.of_nat n + i)).
Proof.
  intros Hi. unfold py_index.
  replace (0 <=? i) with false by (symmetry; apply Z.leb_gt; lia).
  replace (- Z.of_nat n <=? i) with true by (symmetry; apply Z.leb_le; lia).
  replace (i <? 0) with true by (symmetry; apply Z.ltb_lt; lia). done.
Qed.

Lemma py_index_nat n (i : nat) : (i < n)%nat -> py_index n (Z.of_nat i) = Return i.
Proof. intros Hi. rewrite py_index_nonneg by lia. by rewrite Nat2Z.id. Qed.

Lemma py_index_out n i :
  ~ (- Z.of_nat n <= i < Z.of_nat n) -> py_index n i = Raise IndexError.
Proof.
  intros Hi. unfold py_index.
  destruct ((0 <=? i) && (i <? Z.of_nat n)) eqn:H1.
  - apply andb_true_iff in H1 as [?%Z.leb_le ?%Z.ltb_lt]. lia.
  - destruct ((- Z.of_nat n <=? i) && (i <? 0)) eqn:H2; [| done].
    apply andb_true_iff in H2 as [?%Z.leb_le ?%Z.ltb_lt]. lia.
Qed.

Lemma py_index_exn n i e : py_index n i = Raise e -> e = IndexError.
Proof.
  unfold py_index. repeat case_match; congruence.
Qed.

Lemma list_get_exn {A} (l : list A) i e : list_get l i = Raise e -> e = IndexError.
Proof. unfold list_get. case_match; congruence. Qed.

Lemma list_get_Return {A} (l : list A) i x : list_get l i = Return x <-> l !! i = Some x.
Proof.
  unfold list_get. destruct (l !! i); split; intros Heq; by inversion Heq.
Qed.

Lemma list_get_lt {A} (l : list A) i :
  (i < length l)%nat -> exists x, list_get l i = Return x /\ l !! i = Some x.
Proof.
  intros Hi. destruct (lookup_lt_is_Some_2 l i Hi) as [x Hx].
  exists x. split; [by apply list_get_Return | done].
Qed.

Lemma obind_Return {A B} (m : outcome A) (k : A -> outcome B) b :
  obind m k = Return b <-> exists a, m = Return a /\ k a = Return b.
Proof.
  destruct m as [a | e]; simpl; split.
  - intros Hk. by exists a.
  - by intros (a' & [= <-] & Hk).
  - intros [=].
  - by intros (a' & [=] & _).
Qed.

Lemma obind_Raise {A B} (m : outcome A) (k : A -> outcome B) e :
  obind m k = Raise e <-> m = Raise e \/ exists a, m = Return a /\ k a = Raise e.
Proof.
  destruct m as [a | e']; simpl; split.
  - intros Hk. right. by exists a.
  - by intros [[=] | (a' & [= <-] & Hk)].
  - intros [= ->]. by left.
  - intros [[= ->] | (a' & [=] & _)]. done.
Qed.

Lemma arr_set_exn {A} (a : ndarray A) i j x e : arr_set a i j x = Raise e -> e = IndexError.
Proof.
  unfold arr_set. intros Hr.
  apply obind_Raise in Hr as [Hr | (? & _ & Hr)]; [by eapply py_index_exn |].
  apply obind_Raise in Hr as [Hr | (? & _ & Hr)]; [by eapply py_index_exn |].
  apply obind_Raise in Hr as [Hr | (? & _ & Hr)]; [by eapply list_get_exn |].
  done.
Qed.

Lemma arr_set_shape {A} (a a' : ndarray A) i j x :
  arr_set a i j x = Return a' -> nrows a' = nrows a /\ ncols a' = ncols a.
Proof.
  unfold arr_set. intros Hr.
  repeat (apply obind_Return in Hr as (? & _ & Hr)).
  by injection Hr as <-.
Qed.

Lemma arr_set_col_out {A} (a : ndarray A) i j x :
  ~ (- Z.of_nat (ncols a) <= j < Z.of_nat (ncols a)) -> arr_set a i j x = Raise IndexError.
Proof.
  intros Hj. unfold arr_set. destruct (py_index (nrows a) i) eqn:Hi; simpl.
  - by rewrite py_index_out.
  - by rewrite (py_index_exn _ _ _ Hi).
Qed.

(** ** The seam mask *)

Section MaskFacts.
Context {F : Type} `{FloatOps F}.

Lemma mask_loop_exn seam n i mask e :
  mask_loop seam n i mask = Raise e -> e = IndexError.
Proof.
  revert i mask. induction n as [| n IH]; intros i mask; simpl; [done |].
  intros Hr. apply obind_Raise in Hr as [Hr | (c & _ & Hr)];
    [by eapply list_get_exn |].
  apply obind_Raise in Hr as [Hr | (m' & _ & Hr)]; [by eapply arr_set_exn |].
  by eapply IH.
Qed.

(** A row the loop cannot mark (the seam has no entry for it, or the
    entry is no index of a column) makes the loop raise. *)
Lemma mask_loop_bad_row seam n i mask j :
  (i <= j < i + n)%nat ->
  (forall c, seam !! j = Some c ->
             ~ (- Z.of_nat (ncols mask) <= c < Z.of_nat (ncols mask))) ->
  mask_loop seam n i mask = Raise IndexError.
Proof.
  revert i mask. induction n as [| n IH]; intros i mask Hj Hbad; [lia |].
  simpl. destruct (list_get seam i) as [c | e] eqn:Hc; simpl.
  - destruct (arr_set mask (Z.of_nat i) c false) as [mask' | e] eqn:Hset; simpl.
    + destruct (decide (i = j)) as [-> | Hne].
      * apply list_get_Return in Hc. rewrite arr_set_col_out in Hset; [done |].
        by apply Hbad.
      * apply arr_set_shape in Hset as [_ Hcols].
        apply IH; [lia |]. by rewrite Hcols.
    + by rewrite (arr_set_exn _ _ _ _ _ Hset).
  - by rewrite (list_get_exn _ _ _ Hc).
Qed.
End MaskFacts.


(** ** Carving a seam out of a buffer *)

Section CarveFacts.
Context {F : Type} `{FloatOps F}.

Lemma mask_loop_spec seam ww n : forall i done mask,
  length done = i ->
  mask_loop seam n i (mkArr (i + n) ww (done ++ replicate n (replicate ww true)))
    = Return mask ->
  exists ks, length ks = n /\
    (forall j k, ks !! j = Some k ->
       exists c, seam !! (i + j)%nat = Some c /\ py_index ww c = Return k) /\
    mask = mkArr (i + n) ww (done ++ map (marked ww) ks).
Proof.
  induction n as [| n IH]; intros i done mask Hlen; simpl.
  - intros [= <-]. exists []. split; [done |]. split; [| done].
    intros j k Hj. by rewrite lookup_nil in Hj.
  - intros Hrun.
    apply obind_Return in Hrun as (c & Hc & Hrun).
    apply obind_Return in Hrun as (mask' & Hset & Hrun).
    apply list_get_Return in Hc.
    unfold arr_set in Hset. simpl in Hset.
    rewrite py_index_nat in Hset by lia. simpl in Hset.
    apply obind_Return in Hset as (k & Hk & Hset).
    assert (Hrow : list_get (done ++ replicate ww true :: replicate n (replicate ww true)) i
                   = Return (replicate ww true)).
    { apply list_get_Return. rewrite lookup_app_r by lia.
      by replace (i - length done)%nat with 0%nat by lia. }
    rewrite Hrow in Hset. simpl in Hset. injection Hset as <-.
    rewrite insert_app_r_alt in Hrun by lia.
    replace (i - length done)%nat with 0%nat in Hrun by lia. simpl in Hrun.
    replace (i + S n)%nat with (S i + n)%nat in * by lia.
    change (<[k:=false]> (replicate ww true)) with (marked ww k) in Hrun.
    rewrite (cons_middle (marked ww k)), app_assoc in Hrun.
    apply IH in Hrun as (ks & Hks & Hseam & ->); [| rewrite length_app; simpl; lia].
    exists (k :: ks). split; [simpl; lia |]. split.
    + intros [| j] k' Hj; simpl in Hj.
      * injection Hj as <-. exists c. by rewrite Nat.add_0_r.
      * destruct (Hseam j k' Hj) as (c' & Hc' & Hk').
        exists c'. split; [| done]. by replace (i + S j)%nat with (S i + j)%nat by lia.
    + by rewrite <- app_assoc.
Qed.

Lemma seam_mask_spec hh ww seam mask :
  seam_mask hh ww seam = Return mask ->
  exists ks, length ks = hh /\
    (forall j k, ks !! j = Some k ->
       exists c, seam !! j = Some c /\ py_index ww c = Return k) /\
    mask = mkArr hh ww (map (marked ww) ks).
Proof.
  unfold seam_mask, np_full. intros Hrun.
  by apply (mask_loop_spec seam ww hh 0%nat []) in Hrun.
Qed.

Lemma mask_loop_ok seam ww n : forall i done ks,
  length done = i -> length ks = n ->
  (forall j k, ks !! j = Some k ->
     exists c, seam !! (i + j)%nat = Some c /\ py_index ww c = Return k) ->
  mask_loop seam n i (mkArr (i + n) ww (done ++ replicate n (replicate ww true)))
    = Return (mkArr (i + n) ww (done ++ map (marked ww) ks)).
Proof.
  induction n as [| n IH]; intros i done ks Hlen Hks Hseam; simpl.
  - destruct ks; [done | simpl in Hks; lia].
  - destruct ks as [| k ks]; [simpl in Hks; lia |].
    destruct (Hseam 0%nat k eq_refl) as (c & Hc & Hk).
    rewrite Nat.add_0_r in Hc.
    apply list_get_Return in Hc. rewrite Hc. simpl.
    unfold arr_set. simpl. rewrite py_index_nat by lia. simpl. rewrite Hk. simpl.
    assert (Hrow : list_get (done ++ replicate ww true :: replicate n (replicate ww true)) i
                   = Return (replicate ww true)).
    { apply list_get_Return. rewrite lookup_app_r by lia.
      by replace (i - length done)%nat with 0%nat by lia. }
    rewrite Hrow. simpl.
    rewrite insert_app_r_alt by lia.
    replace (i - length done)%nat with 0%nat by lia. simpl.
    replace (i + S n)%nat with (S i + n)%nat by lia.
    change (<[k:=false]> (replicate ww true)) with (marked ww k).
    simpl.
    replace (done ++ marked ww k :: map (marked ww) ks)
      with ((done ++ [marked ww k]) ++ map (marked ww) ks)
      by (by rewrite <- app_assoc).
    rewrite (cons_middle (marked ww k)), app_assoc.
    apply IH; [rewrite length_app; simpl; lia | simpl in Hks; lia |].
    intros j k' Hj. destruct (Hseam (S j) k' Hj) as (c' & Hc' & Hk').
    exists c'. split; [| done]. by replace (S i + j)%nat with (i + S j)%nat by lia.
Qed.
End CarveFacts.

Section CarveArrayFacts.
Context {A : Type}.
Implicit Types (r : list A) (m : list (list A)).

Lemma select_all r ww :
  length r = ww ->
  (filter (fun p : A * bool => p.2 = true) (zip r (replicate ww true))).*1 = r.
Proof.
  revert ww. induction r as [| x r IH]; intros ww Hr; simpl in Hr; subst ww; [done |].
  cbn [replicate zip_with]. rewrite filter_cons_True by done.
  cbn [fmap list_fmap fst]. by rewrite IH.
Qed.

Lemma select_marked r ww k :
  length r = ww -> (k < ww)%nat ->
  (filter (fun p : A * bool => p.2 = true) (zip r (marked ww k))).*1 = delete k r.
Proof.
  unfold marked. revert ww k.
  induction r as [| x r IH]; intros ww k Hr Hk; simpl in Hr; subst ww; [simpl in Hk; lia |].
  destruct k as [| k]; cbn [replicate insert list_insert zip_with].
  - rewrite filter_cons_False by (simpl; congruence). by apply select_all.
  - rewrite filter_cons_True by done. cbn [fmap list_fmap fst delete list_delete].
    rewrite IH; [done | done | lia].
Qed.

Lemma split_rows_concat hh ww m :
  wf_rows hh ww m -> split_rows hh ww (concat m) = m.
Proof.
  revert hh. induction m as [| r m IH]; intros hh [Hl Hf]; simpl in *; subst hh; [done |].
  inversion Hf as [| ? ? Hr Hm]; subst. simpl.
  rewrite take_app_length, drop_app_length. f_equal. apply IH. by split.
Qed.

Lemma length_concat_wf hh ww m : wf_rows hh ww m -> length (concat m) = (hh * ww)%nat.
Proof.
  revert hh. induction m as [| r m IH]; intros hh [Hl Hf]; simpl in *; subst hh; [done |].
  inversion Hf as [| ? ? Hr Hm]; subst. rewrite length_app, (IH (length m)); [lia | by split].
Qed.

Lemma delete_rows_wf hh ww ks m :
  wf_rows hh ww m -> length ks = hh -> Forall (fun k => (k < ww)%nat) ks ->
  wf_rows hh (ww - 1) (zip_with (fun k r => delete k r) ks m).
Proof.
  intros [Hl Hf] Hks Hlt. split; [rewrite length_zip_with; lia |].
  clear Hl Hks. revert ks Hlt. induction Hf as [| r m Hr Hm IH]; intros ks Hlt.
  - destruct ks; constructor.
  - destruct ks as [| k ks]; simpl; [constructor |].
    inversion Hlt; subst. constructor; [| by apply IH].
    rewrite length_delete; [done |]. apply lookup_lt_is_Some_2. lia.
Qed.

Lemma select_rows ww ks m :
  Forall (fun r => length r = ww) m -> Forall (fun k => (k < ww)%nat) ks ->
  zip_with (fun r (mr : list bool) => (filter (fun p : A * bool => p.2 = true) (zip r mr)).*1)
           m (map (marked ww) ks)
  = zip_with (fun k r => delete k r) ks m.
Proof.
  intros Hf. revert ks. induction Hf as [| r m Hr Hm IH]; intros ks Hlt.
  - by destruct ks.
  - destruct ks as [| k ks]; simpl; [done |]. inversion Hlt; subst.
    rewrite select_marked by done. by rewrite IH.
Qed.

(** Carving with the mask of the columns [ks] deletes column [ks !! i]
    from row [i]. *)
Lemma carve_spec (a : ndarray A) hh ww ks :
  wf_arr a -> shape a = (hh, ww) -> hh <> 0%nat ->
  length ks = hh -> Forall (fun k => (k < ww)%nat) ks ->
  carve hh (mkArr hh ww (map (marked ww) ks)) a = Return (cut_columns ks a).
Proof.
  destruct a as [ha wa m]. unfold wf_arr, shape, carve, bool_index, cut_columns. simpl.
  intros Hwf [= -> ->] Hhh Hks Hlt.
  rewrite decide_True by done. simpl.
  rewrite select_rows by (done || apply Hwf).
  pose proof (delete_rows_wf hh ww ks m Hwf Hks Hlt) as Hwf'.
  unfold reshape_rows. rewrite decide_False by done.
  rewrite (length_concat_wf hh (ww - 1)) by done.
  rewrite Nat.mul_comm, Nat.Div0.mod_mul, decide_True by done.
  rewrite Nat.div_mul by done. by rewrite (split_rows_concat hh).
Qed.

Lemma carve_shape_mismatch (a : ndarray A) hh mask :
  shape a <> shape mask -> carve hh mask a = Raise IndexError.
Proof. intros Hne. unfold carve, bool_index. by rewrite decide_False. Qed.
End CarveArrayFacts.

(** ** Frames: what a method leaves alone *)

Ltac proj :=
  cbn [kind rgb resized_rgb vis_seams seams_rgb h w resized_gs cumm_mask E
       seam_history idx_map C_V C_L C_R M backtrack_mat
       with_resized_rgb with_seams_rgb with_hw with_resized_gs with_cumm_mask
       with_E with_seam_history with_idx_map with_C with_M with_backtrack_mat] in *.

Section FrameFacts.
Context {F : Type} `{FloatOps F}.
Implicit Type st : SeamImage F.

Lemma frame_eq_refl st : frame_eq st st.
Proof. by repeat split. Qed.

Lemma frame_eq_trans st1 st2 st3 : frame_eq st1 st2 -> frame_eq st2 st3 -> frame_eq st1 st3.
Proof.
  unfold frame_eq. intros (?&?&?&?&?&?&?&?&?) (?&?&?&?&?&?&?&?&?).
  repeat split; congruence.
Qed.

Lemma mbind_Return {A B} (m : meth F A) (k : A -> meth F B) st a st' :
  m st = (Return a, st') -> mbind m k st = k a st'.
Proof. unfold mbind. by intros ->. Qed.

Lemma mbind_Raise {A B} (m : meth F A) (k : A -> meth F B) st e st' :
  m st = (Raise e, st') -> mbind m k st = (Raise e, st').
Proof. unfold mbind. by intros ->. Qed.

Lemma mbind_inv {A B} (m : meth F A) (k : A -> meth F B) st b st' :
  mbind m k st = (Return b, st') ->
  exists a st1, m st = (Return a, st1) /\ k a st1 = (Return b, st').
Proof.
  unfold mbind. destruct (m st) as [[a | e] st1]; [| done].
  intros Hk. by exists a, st1.
Qed.

Lemma framed_mret {A} (a : A) : framed (mret a : meth F A).
Proof. intros st. apply frame_eq_refl. Qed.

Lemma framed_eval {A} (f : SeamImage F -> outcome A) : framed (eval f).
Proof. intros st. apply frame_eq_refl. Qed.

Lemma framed_assign (f : SeamImage F -> SeamImage F) :
  (forall st, frame_eq st (f st)) -> framed (assign f).
Proof. intros Hf st. apply Hf. Qed.

Lemma framed_bind {A B} (m : meth F A) (k : A -> meth F B) :
  framed m -> (forall a, framed (k a)) -> framed (mbind m k).
Proof.
  intros Hm Hk st. unfold mbind. specialize (Hm st).
  destruct (m st) as [[a | e] st1]; simpl in *; [| done].
  eapply frame_eq_trans; [exact Hm | apply Hk].
Qed.

Lemma framed_run {A} (m : meth F A) st r st' : framed m -> m st = (r, st') -> frame_eq st st'.
Proof. intros Hm Hrun. specialize (Hm st). by rewrite Hrun in Hm. Qed.
End FrameFacts.

Ltac framed_step :=
  lazymatch goal with
  | |- framed (mret _) => apply framed_mret
  | |- framed (eval _) => apply framed_eval
  | |- framed (assign _) => apply framed_assign; intros ?; by repeat split
  | |- framed (mbind _ _) => apply framed_bind; [| intros ?]
  | |- framed (if ?b then _ else _) => destruct b
  end.

Ltac framed := repeat framed_step.

Section FinderFrames.
Context {F : Type} `{FloatOps F}.
Implicit Type st : SeamImage F.

Lemma paint_seams_framed : framed (paint_seams (F:=F)).
Proof. unfold paint_seams. framed. Qed.

Lemma calc_M_loop_framed ww n i Mg : framed (calc_M_loop ww n i Mg).
Proof.
  revert i Mg. induction n as [| n IH]; intros i Mg; simpl; framed. apply IH.
Qed.

Lemma calc_M_framed : framed (calc_M (F:=F)).
Proof. unfold calc_M. framed. apply calc_M_loop_framed. Qed.

Lemma init_mats_framed : framed (init_mats (F:=F)).
Proof. unfold init_mats. framed. apply calc_M_framed. Qed.

Lemma greedy_find_minimal_seam_framed : framed (greedy_find_minimal_seam (F:=F)).
Proof. unfold greedy_find_minimal_seam. framed. Qed.

Lemma dp_find_minimal_seam_framed : framed (dp_find_minimal_seam (F:=F)).
Proof. unfold dp_find_minimal_seam. framed. apply init_mats_framed. Qed.

Lemma find_minimal_seam_framed : framed (find_minimal_seam (F:=F)).
Proof.
  intros st. unfold find_minimal_seam. destruct (kind st).
  - apply greedy_find_minimal_seam_framed.
  - apply dp_find_minimal_seam_framed.
Qed.
End FinderFrames.

(** ** The invariant of the carver *)

Section PermFacts.
Context {A : Type}.
Implicit Types (r : list A) (m : list (list A)).

Lemma concat_zip_with_cons r (T : list (list A)) :
  length r = length T -> concat (zip_with cons r T) ≡ₚ r ++ concat T.
Proof.
  revert T. induction r as [| x r IH]; intros [| c T] Hl; simpl in *; try done.
  rewrite IH by lia. rewrite !app_assoc. f_equiv.
  rewrite (comm (++) c r). done.
Qed.

Lemma concat_transpose ww m :
  Forall (fun r => length r = ww) m -> concat (transpose ww m) ≡ₚ concat m.
Proof.
  induction 1 as [| r m Hr Hm IH]; simpl.
  - induction ww; simpl; done.
  - rewrite concat_zip_with_cons by (by rewrite transpose_length).
    by rewrite IH.
Qed.

Lemma concat_reverse m : concat (reverse m) ≡ₚ concat m.
Proof.
  induction m as [| r m IH]; simpl; [done |].
  rewrite reverse_cons, concat_app, IH. simpl. rewrite app_nil_r.
  apply (comm (++)).
Qed.

Lemma concat_map_reverse m : concat (map reverse m) ≡ₚ concat m.
Proof.
  induction m as [| r m IH]; simpl; [done |]. by rewrite IH, reverse_Permutation.
Qed.

Lemma concat_rot90 b (a : ndarray A) :
  wf_arr a -> concat (rows (rot90 b a)) ≡ₚ concat (rows a).
Proof.
  destruct a as [hh ww m]. intros [Hl Hf]. destruct b; simpl in *.
  - rewrite concat_transpose by (by apply Forall_reverse). apply concat_reverse.
  - rewrite concat_transpose; [apply concat_map_reverse |].
    apply Forall_fmap. eapply Forall_impl; [exact Hf |].
    intros r Hr. simpl. by rewrite length_reverse.
Qed.

Lemma concat_delete_sublist (ks : list nat) m :
  concat (zip_with (fun k r => delete k r) ks m) `sublist_of` concat m.
Proof.
  revert ks. induction m as [| r m IH]; intros [| k ks]; simpl; try done.
  - apply sublist_nil_l.
  - apply sublist_app; [apply sublist_delete | apply IH].
Qed.

Lemma elem_of_concat (x : A) (ls : list (list A)) :
  x ∈ concat ls <-> exists l, x ∈ l /\ l ∈ ls.
Proof.
  induction ls as [| l ls IH]; simpl.
  - split; [by intros ?%elem_of_nil | by intros (l & _ & ?%elem_of_nil)].
  - rewrite elem_of_app, IH. split.
    + intros [Hx | (l' & Hx & Hl')].
      * exists l. split; [done | by left].
      * exists l'. split; [done | by right].
    + intros (l' & Hx & Hl'). apply elem_of_cons in Hl' as [-> | Hl'].
      * by left.
      * right. by exists l'.
Qed.

Lemma Forall_sublist (P : A -> Prop) (l1 l2 : list A) :
  l1 `sublist_of` l2 -> Forall P l2 -> Forall P l1.
Proof.
  intros Hsub. rewrite !Forall_forall. intros Hall x Hx.
  apply Hall. by eapply elem_of_sublist.
Qed.
End PermFacts.

Section InvariantFacts.
Context {F : Type} `{FloatOps F}.
Implicit Type st : SeamImage F.

Lemma carver_inv_frame st st' : frame_eq st st' -> carver_inv st -> carver_inv st'.
Proof.
  unfold frame_eq, carver_inv, buffers_in_sync, idx_map_ok, idx_entries.
  intros (_ & -> & -> & -> & -> & -> & -> & -> & _). done.
Qed.

Lemma remove_seam_unfold seam st :
  remove_seam seam st =
  let hh := nrows (resized_rgb st) in
  match seam_mask hh (ncols (resized_rgb st)) seam with
  | Raise e => (Raise e, st)
  | Return mask =>
      match carve hh mask (resized_rgb st) with
      | Raise e => (Raise e, st)
      | Return new_rgb =>
          let st1 := with_resized_rgb new_rgb st in
          match carve hh mask (resized_gs st) with
          | Raise e => (Raise e, st1)
          | Return new_gs =>
              let st2 := with_resized_gs new_gs st1 in
              if vis_seams st
              then match carve hh mask (idx_map st) with
                   | Raise e => (Raise e, st2)
                   | Return new_idx =>
                       (Return tt, with_hw (h st) (w st - 1) (with_idx_map new_idx st2))
                   end
              else (Return tt, with_hw (h st) (w st - 1) st2)
          end
      end
  end.
Proof.
  unfold remove_seam, mbind, eval, assign, mret. cbn zeta.
  destruct (seam_mask _ _ seam) as [mask | e]; [| done].
  destruct (carve _ mask (resized_rgb st)) as [new_rgb | e]; [| done]. proj.
  destruct (carve _ mask (resized_gs st)) as [new_gs | e]; [| done]. proj.
  destruct (vis_seams st); proj; [| done].
  destruct (carve _ mask (idx_map st)) as [new_idx | e]; proj; done.
Qed.

Lemma carve_zero {A} mask (a : ndarray A) : exists e, carve 0 mask a = Raise e.
Proof.
  unfold carve. destruct (bool_index a mask) as [flat | e]; simpl; [| by exists e].
  exists ValueError. unfold reshape_rows. by rewrite decide_True.
Qed.

(** What a successful [remove_seam] did: it deleted one column, [ks !! i]
    in row [i], from every buffer. *)
Lemma remove_seam_inv seam st st' :
  carver_inv st -> remove_seam seam st = (Return tt, st') ->
  exists ks,
    length ks = nrows (resized_rgb st) /\ nrows (resized_rgb st) <> 0%nat /\
    (forall j k, ks !! j = Some k ->
       exists c, seam !! j = Some c /\ py_index (ncols (resized_rgb st)) c = Return k) /\
    st' = with_hw (h st) (w st - 1)
            ((if vis_seams st then with_idx_map (cut_columns ks (idx_map st)) else fun s => s)
               (with_resized_gs (cut_columns ks (resized_gs st))
                  (with_resized_rgb (cut_columns ks (resized_rgb st)) st))).
Proof.
  intros (Hsync & Hwfi & Hidx) Hrun.
  destruct Hsync as (Hwf0 & Hwfr & Hwfg & Hsh & Hh & Hw).
  rewrite remove_seam_unfold in Hrun. cbn zeta in Hrun.
  set (hh := nrows (resized_rgb st)) in *. set (ww := ncols (resized_rgb st)) in *.
  destruct (seam_mask hh ww seam) as [mask | e] eqn:Hmask; [| done].
  apply seam_mask_spec in Hmask as (ks & Hks & Hseam & ->).
  destruct (decide (hh = 0%nat)) as [Hz | Hnz].
  { rewrite Hz in Hrun.
    destruct (carve_zero (mkArr 0 ww (map (marked ww) ks)) (resized_rgb st)) as [e He].
    by rewrite He in Hrun. }
  assert (Hlt : Forall (fun k => (k < ww)%nat) ks).
  { apply Forall_lookup. intros j k Hj. destruct (Hseam j k Hj) as (c & _ & Hk).
    by apply py_index_inv in Hk as [? _]. }
  rewrite carve_spec in Hrun by done.
  assert (Hshg : shape (resized_gs st) = (hh, ww)) by done.
  rewrite carve_spec in Hrun by done.
  exists ks. split; [done |]. split; [done |]. split; [done |].
  destruct (vis_seams st) eqn:Hvis.
  - destruct (Hidx eq_refl) as (_ & Hshi & _).
    assert (Hshi' : shape (idx_map st) = (hh, ww)) by done.
    rewrite carve_spec in Hrun by done. by injection Hrun as <-.
  - by injection Hrun as <-.
Qed.

Lemma cut_columns_wf {A} ks (a : ndarray A) :
  wf_arr a -> length ks = nrows a -> Forall (fun k => (k < ncols a)%nat) ks ->
  wf_arr (cut_columns ks a).
Proof. intros Hwf Hks Hlt. by apply delete_rows_wf. Qed.

Lemma remove_seam_preserves seam st st' :
  carver_inv st -> remove_seam seam st = (Return tt, st') ->
  carver_inv st' /\ h st' = h st /\ w st' = w st - 1 /\
  seam_history st' = seam_history st /\ kind st' = kind st /\ rgb st' = rgb st /\
  vis_seams st' = vis_seams st.
Proof.
  intros Hinv Hrun.
  destruct (remove_seam_inv seam st st' Hinv Hrun) as (ks & Hks & Hnz & Hseam & Hst').
  subst st'. clear Hrun.
  destruct Hinv as ((Hwf0 & Hwfr & Hwfg & Hsh & Hh & Hw) & Hwfi & Hidx).
  assert (Hlt : Forall (fun k => (k < ncols (resized_rgb st))%nat) ks).
  { apply Forall_lookup. intros j k Hj. destruct (Hseam j k Hj) as (c & _ & Hk).
    by apply py_index_inv in Hk as [? _]. }
  assert (Hpos : (0 < ncols (resized_rgb st))%nat).
  { destruct ks as [| k ks]; [simpl in Hks; lia |]. inversion Hlt; subst. lia. }
  injection Hsh as Hg1 Hg2.
  assert (Hr' : wf_arr (cut_columns ks (resized_rgb st))) by by apply cut_columns_wf.
  assert (Hg' : wf_arr (cut_columns ks (resized_gs st))).
  { apply cut_columns_wf; [done | congruence | by rewrite Hg2]. }
  assert (Hs' : shape (cut_columns ks (resized_gs st)) = shape (cut_columns ks (resized_rgb st))).
  { unfold shape, cut_columns. simpl. congruence. }
  assert (Hw' : w st - 1 = Z.of_nat (ncols (cut_columns ks (resized_rgb st)))).
  { unfold cut_columns. simpl. lia. }
  split; [| by destruct (vis_seams st) eqn:Hvis; proj; rewrite ?Hvis; repeat split].
  unfold carver_inv, buffers_in_sync, idx_map_ok, idx_entries.
  destruct (vis_seams st) eqn:Hvis; proj; rewrite ?Hvis.
  - destruct (Hidx eq_refl) as (_ & Hshi & Hnd & Hbd). injection Hshi as Hi1 Hi2.
    unfold idx_entries in *.
    assert (Hi' : wf_arr (cut_columns ks (idx_map st))).
    { apply cut_columns_wf; [done | congruence | by rewrite Hi2]. }
    split_and!; try done. intros _. split_and!; try done.
    + unfold shape, cut_columns. simpl. congruence.
    + unfold cut_columns. simpl.
      eapply sublist_NoDup; [exact Hnd | apply concat_delete_sublist].
    + unfold cut_columns. simpl.
      eapply Forall_sublist; [apply concat_delete_sublist | done].
  - split_and!; done.
Qed.

Lemma rotate_mats_preserves b st st' :
  carver_inv st -> rotate_mats b st = (Return tt, st') ->
  carver_inv st' /\ h st' = w st /\ w st' = h st /\
  seam_history st' = seam_history st /\ kind st' = kind st /\ rgb st' = rgb st /\
  vis_seams st' = vis_seams st.
Proof.
  intros ((Hwf0 & Hwfr & Hwfg & Hsh & Hh & Hw) & Hwfi & Hidx).
  rewrite rotate_mats_run. intros [= <-].
  injection Hsh as Hg1 Hg2.
  split; [| by destruct (vis_seams st) eqn:Hvis; proj; rewrite ?Hvis; repeat split].
  unfold carver_inv, buffers_in_sync, idx_map_ok, idx_entries.
  destruct (vis_seams st) eqn:Hvis; proj; rewrite ?Hvis, ?rot90_shape.
  - destruct (Hidx eq_refl) as (_ & Hshi & Hnd & Hbd). injection Hshi as Hi1 Hi2.
    unfold idx_entries in *.
    split_and!; try done; try (by apply rot90_wf); try congruence;
      try (by destruct b).
    intros _. split_and!; try done; try (by apply rot90_wf); try congruence.
    + by rewrite concat_rot90.
    + by rewrite concat_rot90.
  - split_and!; try done; try (by apply rot90_wf); try congruence;
      try (by destruct b).
Qed.
End InvariantFacts.

Section InitFacts.
Context {F : Type} `{FloatOps F}.
Implicit Type st : SeamImage F.

Lemma meshgrid_wf hh ww : wf_arr (meshgrid hh ww).
Proof.
  unfold meshgrid, wf_arr. simpl. split.
  - by rewrite length_map, length_seq.
  - apply Forall_fmap, Forall_forall. intros i _. simpl.
    by rewrite length_map, length_seq.
Qed.

Lemma meshgrid_entries hh ww p :
  p ∈ concat (rows (meshgrid hh ww)) <->
  exists i j, (i < hh)%nat /\ (j < ww)%nat /\ p = (Z.of_nat j, Z.of_nat i).
Proof.
  unfold meshgrid. simpl. rewrite elem_of_concat. split.
  - intros (r & Hp & Hr). apply list_elem_of_fmap in Hr as (i & -> & Hi).
    apply list_elem_of_fmap in Hp as (j & -> & Hj).
    apply elem_of_seq in Hi, Hj. exists i, j. split_and!; (done || lia).
  - intros (i & j & Hi & Hj & ->).
    exists (map (fun j => (Z.of_nat j, Z.of_nat i)) (seq 0 ww)). split.
    + apply list_elem_of_fmap. exists j. split; [done |]. apply elem_of_seq. lia.
    + apply list_elem_of_fmap. exists i. split; [done |]. apply elem_of_seq. lia.
Qed.

Lemma meshgrid_NoDup hh ww : NoDup (concat (rows (meshgrid hh ww))).
Proof.
  unfold meshgrid. simpl.
  enough (Hgen : forall s, NoDup (concat (map
            (fun i => map (fun j => (Z.of_nat j, Z.of_nat i)) (seq 0 ww)) (seq s hh))))
    by apply Hgen.
  induction hh as [| hh IH]; intros s; simpl; [constructor |].
  apply NoDup_app. split_and!.
  - apply NoDup_fmap_2; [| apply NoDup_seq].
    intros j1 j2 [= Hj]. lia.
  - intros p Hp Hq. apply list_elem_of_fmap in Hp as (j & -> & _).
    apply elem_of_concat in Hq as (r & Hq & Hr).
    apply list_elem_of_fmap in Hr as (i & -> & Hi).
    apply list_elem_of_fmap in Hq as (j' & [= _ Hi'] & _).
    apply elem_of_seq in Hi. lia.
  - apply IH.
Qed.

Lemma meshgrid_in_bounds {A} (img : ndarray A) :
  Forall (in_bounds img) (concat (rows (meshgrid (nrows img) (ncols img)))).
Proof.
  apply Forall_forall. intros p Hp.
  apply meshgrid_entries in Hp as (i & j & Hi & Hj & ->).
  unfold in_bounds. simpl. lia.
Qed.

Lemma arr_map_wf {A B} (f : A -> B) (a : ndarray A) : wf_arr a -> wf_arr (arr_map f a).
Proof.
  intros [Hl Hf]. unfold wf_arr, arr_map. simpl. split; [by rewrite length_map |].
  apply Forall_fmap. eapply Forall_impl; [exact Hf |]. intros r Hr. simpl.
  by rewrite length_map.
Qed.

(** The object [__init__] builds, before [DPSeamImage.__init__] calls
    [init_mats]. *)
Lemma SeamImage_init_inv k img vis st :
  wf_arr img -> SeamImage_init k img vis = Return st ->
  carver_inv st /\ kind st = k /\ rgb st = img /\ vis_seams st = vis /\
  resized_rgb st = img /\ resized_gs st = arr_map gray img /\
  h st = Z.of_nat (nrows img) /\ w st = Z.of_nat (ncols img) /\
  seam_history st = [] /\ idx_map st = meshgrid (nrows img) (ncols img) /\
  nrows img <> 1%nat /\ ncols img <> 1%nat.
Proof.
  intros Hwf. unfold SeamImage_init, rgb_to_grayscale.
  destruct (decide (nrows img = 1%nat \/ ncols img = 1%nat)) as [Hsq | Hsq]; [done |].
  set (st0 := mkSeamImage k img img vis _ _ _ _ _ _ _ _ _ _ _ _ _).
  assert (Hst0 : carver_inv st0 /\ kind st0 = k /\ rgb st0 = img /\ vis_seams st0 = vis /\
    resized_rgb st0 = img /\ resized_gs st0 = arr_map gray img /\
    h st0 = Z.of_nat (nrows img) /\ w st0 = Z.of_nat (ncols img) /\
    seam_history st0 = [] /\ idx_map st0 = meshgrid (nrows img) (ncols img) /\
    nrows img <> 1%nat /\ ncols img <> 1%nat).
  { split_and!; try done; try lia.
    unfold carver_inv, buffers_in_sync, idx_map_ok, idx_entries. simpl.
    split_and!; try done.
    - by apply arr_map_wf.
    - apply meshgrid_wf.
    - intros _. split_and!; try done.
      + apply meshgrid_wf.
      + apply meshgrid_NoDup.
      + apply meshgrid_in_bounds. }
  destruct k.
  - by intros [= <-].
  - destruct (init_mats st0) as [[[] | e] st1] eqn:Hrun; [| done].
    intros [= <-]. apply framed_run in Hrun; [| apply init_mats_framed].
    destruct Hst0 as (Hinv & Hrest).
    split; [by eapply carver_inv_frame |].
    destruct Hrun as (-> & -> & -> & -> & -> & -> & -> & -> & ->). done.
Qed.
End InitFacts.

Section RemovalFacts.
Context {F : Type} `{FloatOps F}.
Implicit Type st : SeamImage F.

(** What the loop of [seams_removal] leaves behind when it completes. *)
Lemma removal_loop_preserves n st st' :
  carver_inv st -> removal_loop n st = (Return tt, st') ->
  carver_inv st' /\ h st' = h st /\ w st' = w st - Z.of_nat n /\
  kind st' = kind st /\ rgb st' = rgb st /\ vis_seams st' = vis_seams st /\
  length (seam_history st') = (length (seam_history st) + n)%nat.
Proof.
  revert st. induction n as [| n IH]; intros st Hinv; simpl.
  - intros [= <-]. split_and!; try done; lia.
  - intros Hrun.
    apply mbind_inv in Hrun as ([] & st1 & [= <-] & Hrun).
    apply mbind_inv in Hrun as (seam & st2 & Hfind & Hrun).
    apply mbind_inv in Hrun as ([] & st3 & [= <-] & Hrun).
    apply mbind_inv in Hrun as ([] & st4 & Hrem & Hrun).
    apply framed_run in Hfind; [| apply find_minimal_seam_framed].
    set (sta := with_E _ st) in *.
    assert (Ha : frame_eq st sta) by by repeat split.
    set (stb := with_seam_history _ st2) in *.
    assert (Hb : carver_inv stb).
    { assert (Hi2 : carver_inv st2).
      { eapply carver_inv_frame; [exact Hfind |]. by eapply carver_inv_frame. }
      exact Hi2. }
    destruct (remove_seam_preserves _ _ _ Hb Hrem) as (Hi4 & Hh4 & Hw4 & Hs4 & Hk4 & Hr4 & Hv4).
    destruct (IH st4 Hi4 Hrun) as (Hi' & Hh' & Hw' & Hk' & Hr' & Hv' & Hs').
    destruct Hfind as (Hk2 & Hr2 & _ & Hv2 & Hh2 & Hw2 & _ & _ & Hs2).
    split; [done |].
    rewrite Hh', Hw', Hk', Hr', Hv', Hs', Hh4, Hw4, Hk4, Hr4, Hv4, Hs4.
    subst stb. proj. rewrite Hh2, Hw2, Hk2, Hr2, Hv2, Hs2. subst sta. proj.
    rewrite length_app. simpl. split_and!; try done; lia.
Qed.

Lemma seams_removal_preserves n st st' :
  carver_inv st -> seams_removal n st = (Return tt, st') ->
  carver_inv st' /\ h st' = h st /\ w st' = w st - Z.of_nat (Z.to_nat n) /\
  kind st' = kind st /\ rgb st' = rgb st /\ vis_seams st' = vis_seams st /\
  length (seam_history st') = (length (seam_history st) + Z.to_nat n)%nat.
Proof.
  intros Hinv Hrun. unfold seams_removal in Hrun.
  apply mbind_inv in Hrun as ([] & st1 & Hloop & Hrun).
  apply mbind_inv in Hrun as (vis & st2 & [= <- <-] & Hrun).
  destruct (removal_loop_preserves _ _ _ Hinv Hloop) as (Hi1 & Hrest).
  assert (Hfr : frame_eq st1 st').
  { destruct (vis_seams st1).
    - eapply framed_run; [apply paint_seams_framed | exact Hrun].
    - injection Hrun as <-. apply frame_eq_refl. }
  split; [by eapply carver_inv_frame |].
  destruct Hfr as (-> & -> & _ & -> & -> & -> & _ & _ & ->). done.
Qed.

Lemma seams_removal_horizontal_preserves n st st' :
  carver_inv st -> seams_removal_horizontal n st = (Return tt, st') ->
  carver_inv st' /\ h st' = h st - Z.of_nat (Z.to_nat n) /\ w st' = w st /\
  kind st' = kind st /\ rgb st' = rgb st /\ vis_seams st' = vis_seams st /\
  length (seam_history st') = (length (seam_history st) + Z.to_nat n)%nat.
Proof.
  intros Hinv Hrun. unfold seams_removal_horizontal in Hrun.
  apply mbind_inv in Hrun as ([] & st1 & Hrot1 & Hrun).
  apply mbind_inv in Hrun as ([] & st2 & Hrem & Hrot2).
  destruct (rotate_mats_preserves _ _ _ Hinv Hrot1) as (Hi1 & Hh1 & Hw1 & Hs1 & Hk1 & Hr1 & Hv1).
  destruct (seams_removal_preserves _ _ _ Hi1 Hrem) as (Hi2 & Hh2 & Hw2 & Hk2 & Hr2 & Hv2 & Hs2).
  destruct (rotate_mats_preserves _ _ _ Hi2 Hrot2) as (Hi3 & Hh3 & Hw3 & Hs3 & Hk3 & Hr3 & Hv3).
  split; [done |]. split_and!; congruence.
Qed.

Lemma reinit_inv st st' :
  wf_arr (rgb st) -> reinit st = (Return tt, st') ->
  exists s0, SeamImage_init (kind st) (rgb st) true = Return s0 /\ frame_eq s0 st'.
Proof.
  unfold reinit. intros Hwf.
  destruct (SeamImage_init _ _ _) as [s | e]; [| done].
  intros [= <-]. exists s. split; [done |].
  destruct (kind st); by repeat split.
Qed.

(** After [reinit] the object is, up to the grids a greedy carver keeps,
    the one the constructor builds. *)
Lemma reinit_state st st' :
  wf_arr (rgb st) -> reinit st = (Return tt, st') ->
  carver_inv st' /\ kind st' = kind st /\ rgb st' = rgb st /\ vis_seams st' = true /\
  resized_rgb st' = rgb st /\ resized_gs st' = arr_map gray (rgb st) /\
  h st' = Z.of_nat (nrows (rgb st)) /\ w st' = Z.of_nat (ncols (rgb st)) /\
  seam_history st' = [] /\ idx_map st' = meshgrid (nrows (rgb st)) (ncols (rgb st)) /\
  nrows (rgb st) <> 1%nat /\ ncols (rgb st) <> 1%nat.
Proof.
  intros Hwf Hrun. destruct (reinit_inv st st' Hwf Hrun) as (s0 & Hinit & Hfr).
  apply SeamImage_init_inv in Hinit
    as (Hi & Hk & Hr & Hv & Hrr & Hg & Hh & Hw & Hs & Hx & Hn1 & Hn2); [| done].
  split; [by eapply carver_inv_frame |].
  destruct Hfr as (-> & -> & -> & -> & -> & -> & -> & -> & ->). by split_and!.
Qed.

Lemma resize_preserves shapes st im st' :
  carver_inv st -> resize_seam_carving shapes st = (Return im, st') ->
  carver_inv st' /\ vis_seams st' = true /\ rgb st' = rgb st /\ kind st' = kind st /\
  im = resized_rgb st' /\
  h st' = Z.of_nat (nrows (rgb st)) - Z.of_nat (Z.to_nat (height_diff shapes)) /\
  w st' = Z.of_nat (ncols (rgb st)) - Z.of_nat (Z.to_nat (width_diff shapes)) /\
  length (seam_history st')
    = (Z.to_nat (width_diff shapes) + Z.to_nat (height_diff shapes))%nat.
Proof.
  intros Hinv Hrun. unfold resize_seam_carving, seams_removal_vertical in Hrun.
  apply mbind_inv in Hrun as ([] & st1 & Hre & Hrun).
  apply mbind_inv in Hrun as ([] & st2 & Hv & Hrun).
  apply mbind_inv in Hrun as ([] & st3 & Hh & [= <- <-]).
  apply reinit_state in Hre as (Hi1 & Hk1 & Hr1 & Hv1 & _ & _ & Hh1 & Hw1 & Hs1 & _);
    [| apply Hinv].
  destruct (seams_removal_preserves _ _ _ Hi1 Hv) as (Hi2 & Hh2 & Hw2 & Hk2 & Hr2 & Hv2 & Hs2).
  destruct (seams_removal_horizontal_preserves _ _ _ Hi2 Hh)
    as (Hi3 & Hh3 & Hw3 & Hk3 & Hr3 & Hv3 & Hs3).
  split; [done |]. rewrite Hs1 in Hs2. simpl in Hs2.
  split_and!; try congruence; lia.
Qed.

Theorem reachable_inv st : reachable st -> carver_inv st.
Proof.
  induction 1 as [k img vis st Hwf Hinit | seam st st' _ IH Hrun | b st st' _ IH Hrun
                 | n st st' _ IH Hrun | n st st' _ IH Hrun | n st st' _ IH Hrun
                 | shapes st img st' _ IH Hrun].
  - by apply SeamImage_init_inv in Hinit as [? _].
  - by apply remove_seam_preserves in Hrun as [? _].
  - by apply rotate_mats_preserves in Hrun as [? _].
  - by apply seams_removal_preserves in Hrun as [? _].
  - by apply seams_removal_preserves in Hrun as [? _].
  - by apply seams_removal_horizontal_preserves in Hrun as [? _].
  - by apply resize_preserves in Hrun as [? _].
Qed.
End RemovalFacts.

(** ** Shapes of the computed grids *)

Lemma roll_length {A} s (l : list A) : length (roll s l) = length l.
Proof.
  unfold roll. destruct (Z.of_nat (length l) =? 0) eqn:Hn; [done |].
  rewrite length_app, length_drop, length_take. lia.
Qed.

Lemma length_tail {A} (l : list A) : length (tail l) = pred (length l).
Proof. by destruct l. Qed.

Section ShapeFacts.
Context {A B C : Type}.

Lemma wf_rows_Forall hh ww (m : list (list A)) :
  wf_rows hh ww m -> Forall (fun r => length r = ww) m.
Proof. by intros [_ ?]. Qed.

Lemma Forall_rows_map2 (f : A -> B -> C) ww m1 m2 :
  Forall (fun r => length r = ww) m1 -> Forall (fun r => length r = ww) m2 ->
  Forall (fun r => length r = ww) (rows_map2 f m1 m2).
Proof.
  unfold rows_map2. intros Hf1. revert m2.
  induction Hf1 as [| r1 m1 Hr1 _ IH]; intros m2 Hf2; [constructor |].
  destruct Hf2 as [| r2 m2 Hr2 Hf2]; simpl; constructor.
  - rewrite length_zip_with. lia.
  - by apply IH.
Qed.

Lemma wf_rows_zip_with (f : A -> B -> C) hh ww m1 m2 :
  wf_rows hh ww m1 -> wf_rows hh ww m2 -> wf_rows hh ww (rows_map2 f m1 m2).
Proof.
  intros [Hl1 Hf1] [Hl2 Hf2]. split; [| by apply Forall_rows_map2].
  unfold rows_map2. rewrite length_zip_with. lia.
Qed.

Lemma wf_rows_map (g : list A -> list B) hh w1 w2 m :
  (forall r, length r = w1 -> length (g r) = w2) ->
  wf_rows hh w1 m -> wf_rows hh w2 (map g m).
Proof.
  intros Hg [Hl Hf]. split; [by rewrite length_map |].
  apply Forall_fmap. eapply Forall_impl; [exact Hf |]. intros r Hr. by apply Hg.
Qed.

Lemma wf_rows_take hh ww n (m : list (list A)) :
  (n <= hh)%nat -> wf_rows hh ww m -> wf_rows n ww (take n m).
Proof.
  intros Hn [Hl Hf]. split; [rewrite length_take; lia | by apply Forall_take].
Qed.

Lemma wf_rows_tail hh ww (m : list (list A)) :
  wf_rows (S hh) ww m -> wf_rows hh ww (tail m).
Proof.
  intros [Hl Hf]. destruct m as [| r m]; [done |]. simpl in *.
  inversion Hf; subst. split; [lia | done].
Qed.

Lemma wf_rows_roll s hh ww (m : list (list A)) :
  wf_rows hh ww m -> wf_rows hh ww (roll s m).
Proof.
  intros [Hl Hf]. split; [by rewrite roll_length |].
  unfold roll. destruct (Z.of_nat (length m) =? 0); [done |].
  apply Forall_app. split; [by apply Forall_drop | by apply Forall_take].
Qed.

Lemma wf_rows_replicate hh ww (x : A) : wf_rows hh ww (replicate hh (replicate ww x)).
Proof.
  split; [by rewrite length_replicate |].
  apply Forall_replicate. by rewrite length_replicate.
Qed.

Lemma wf_rows_insert hh ww (m : list (list A)) i r :
  wf_rows hh ww m -> length r = ww -> wf_rows hh ww (<[i := r]> m).
Proof.
  intros [Hl Hf] Hr. split; [by rewrite length_insert | by apply Forall_insert].
Qed.
End ShapeFacts.

Section GridFacts.
Context {F : Type} `{FloatOps F}.
Implicit Type st : SeamImage F.

Lemma rows_map3_wf f hh ww (a b c : list (list F)) :
  wf_rows hh ww a -> wf_rows hh ww b -> wf_rows hh ww c ->
  wf_rows hh ww (rows_map3 f a b c).
Proof.
  unfold rows_map3. intros [Hla Hfa] [Hlb Hfb] [Hlc Hfc].
  split; [rewrite length_zip_with, length_zip_with; lia |].
  clear Hla Hlb Hlc. revert b c Hfb Hfc.
  induction Hfa as [| ra a Hra _ IH]; intros b c Hfb Hfc; [constructor |].
  destruct Hfb as [| rb b Hrb Hfb]; [constructor |].
  destruct Hfc as [| rc c Hrc Hfc]; simpl; constructor.
  - rewrite length_zip_with, length_zip_with. lia.
  - by apply IH.
Qed.

Lemma calc_C_wf st :
  wf_arr (resized_gs st) ->
  let st' := calc_C st in
  wf_arr (C_V st') /\ wf_arr (C_L st') /\ wf_arr (C_R st') /\
  shape (C_V st') = shape (resized_gs st) /\ shape (C_L st') = shape (resized_gs st) /\
  shape (C_R st') = shape (resized_gs st).
Proof.
  intros Hwf. cbn zeta. unfold calc_C. proj. unfold wf_arr, shape. cbn [nrows ncols rows].
  assert (Hp : wf_rows (nrows (resized_gs st)) (ncols (resized_gs st))
                       (roll (-1) (rows (resized_gs st)))) by by apply wf_rows_roll.
  assert (Hm : wf_rows (nrows (resized_gs st)) (ncols (resized_gs st))
                       (roll 1 (rows (resized_gs st)))) by by apply wf_rows_roll.
  assert (Hi : wf_rows (nrows (resized_gs st)) (ncols (resized_gs st))
                       (map (roll 1) (rows (resized_gs st)))).
  { eapply wf_rows_map; [| exact Hwf]. intros r Hr. by rewrite roll_length. }
  split_and!; try done; by apply rows_map3_wf.
Qed.

Lemma gradient_magnitude_wf (gs : ndarray F) :
  wf_arr gs ->
  wf_arr (gradient_magnitude gs) /\ shape (gradient_magnitude gs) = shape gs.
Proof.
  destruct gs as [hh ww m]. unfold wf_arr. simpl. intros Hwf.
  unfold gradient_magnitude, shape. cbn [nrows ncols rows pad_bottom_right diff_axis0
    diff_axis1 drop_last_col drop_last_row pred].
  split; [| done].
  assert (Hpad : wf_rows (S hh) (S ww)
                   (map (fun r => r ++ [fhalf]) m ++ [replicate (S ww) fhalf])).
  { destruct Hwf as [Hl Hf]. split.
    - rewrite length_app, length_map. simpl. lia.
    - apply Forall_app. split.
      + apply Forall_fmap. eapply Forall_impl; [exact Hf |]. intros r Hr.
        simpl in *. rewrite length_app. simpl. lia.
      + constructor; [by rewrite length_replicate | constructor]. }
  set (P := map (fun r => r ++ [fhalf]) m ++ [replicate (S ww) fhalf]) in *.
  destruct Hpad as [HlP HfP].
  assert (H0 : wf_rows hh (S ww) (rows_map2 fsub (tail P) P)).
  { split.
    - unfold rows_map2. rewrite length_zip_with, length_tail. lia.
    - apply Forall_rows_map2; [| done]. destruct P; [done |]. by inversion HfP. }
  assert (H1 : wf_rows (S hh) ww (map (fun r => zip_with fsub (tail r) r) P)).
  { apply (wf_rows_map _ (S hh) (S ww)); [| done].
    intros r Hr. rewrite length_zip_with, length_tail. lia. }
  apply wf_rows_zip_with.
  - apply (wf_rows_map _ hh (S ww)); [| done].
    intros r Hr. rewrite length_take. lia.
  - apply (wf_rows_take (S hh)); [lia | done].
Qed.
End GridFacts.

(** ** The dynamic-programming finder returns *)

Lemma omapM_Forall2 {A B} (f : A -> outcome B) l bs :
  omapM f l = Return bs -> Forall2 (fun a b => f a = Return b) l bs.
Proof.
  revert bs. induction l as [| a l IH]; intros bs; simpl.
  - intros [= <-]. constructor.
  - intros Hrun. apply obind_Return in Hrun as (b & Hb & Hrun).
    apply obind_Return in Hrun as (bs' & Hbs & [= <-]).
    constructor; [done | by apply IH].
Qed.

Lemma omapM_ok {A B} (f : A -> outcome B) l :
  Forall (fun a => exists b, f a = Return b) l -> exists bs, omapM f l = Return bs.
Proof.
  induction 1 as [| a l [b Hb] _ [bs Hbs]]; simpl.
  - by exists [].
  - exists (b :: bs). by rewrite Hb, Hbs.
Qed.

Lemma argmin_from_bound {A} (lt : A -> A -> bool) best bi i l :
  (bi < i)%nat -> (argmin_from lt best bi i l < i + length l)%nat.
Proof.
  revert best bi i. induction l as [| x l IH]; intros best bi i Hbi; simpl; [lia |].
  destruct (lt x best).
  - specialize (IH x i (S i)). lia.
  - specialize (IH best bi (S i)). lia.
Qed.

Lemma argmin_ok {A} (lt : A -> A -> bool) l :
  l <> [] -> exists k, argmin lt l = Return k /\ (k < length l)%nat.
Proof.
  destruct l as [| x l]; [done |]. intros _. simpl. eexists. split; [done |].
  pose proof (argmin_from_bound lt x 0 1 l). lia.
Qed.

Lemma get_row_ok {A} (a : ndarray A) (i : nat) :
  wf_arr a -> (i < nrows a)%nat ->
  exists r, get_row a (Z.of_nat i) = Return r /\ rows a !! i = Some r /\ length r = ncols a.
Proof.
  intros [Hl Hf] Hi. unfold get_row. rewrite py_index_nat by done. simpl.
  destruct (list_get_lt (rows a) i) as (r & Hr & Hr'); [lia |].
  exists r. split_and!; try done. by eapply (Forall_lookup_1 _ _ _ _ Hf Hr').
Qed.

Lemma get2_ok {A} (a : ndarray A) (i j : nat) :
  wf_arr a -> (i < nrows a)%nat -> (j < ncols a)%nat ->
  exists x, get2 a (Z.of_nat i) (Z.of_nat j) = Return x.
Proof.
  intros Hwf Hi Hj. unfold get2.
  destruct (get_row_ok a i Hwf Hi) as (r & -> & _ & Hr). simpl.
  rewrite py_index_nat by done. simpl.
  destruct (list_get_lt r j) as (x & -> & _); [lia |]. by exists x.
Qed.

Lemma arr_set_row_ok {A} (a : ndarray A) (i : nat) r :
  wf_arr a -> (i < nrows a)%nat -> length r = ncols a ->
  arr_set_row a (Z.of_nat i) r = Return (mkArr (nrows a) (ncols a) (<[i := r]> (rows a))) /\
  wf_arr (mkArr (nrows a) (ncols a) (<[i := r]> (rows a))).
Proof.
  intros Hwf Hi Hr. unfold arr_set_row. rewrite py_index_nat by done. simpl.
  split; [done |]. by apply wf_rows_insert.
Qed.

Section DPFacts.
Context {F : Type} `{FloatOps F}.
Implicit Type st : SeamImage F.

Lemma cost_matrix_ok ww (m_prev : list (xfloat F)) CL CV CR :
  length m_prev = ww -> length CL = ww -> length CV = ww -> length CR = ww ->
  exists l v r, cost_matrix ww m_prev CL CV CR = Return [l; v; r] /\
                length l = ww /\ length v = ww /\ length r = ww.
Proof.
  intros Hm Hl Hv Hr. unfold cost_matrix. rewrite decide_True by done.
  eexists _, _, _. split; [done |].
  rewrite !length_app, !length_zip_with, !length_take, !length_drop, !length_map,
    !length_take, !length_drop, !length_replicate.
  split_and!; lia.
Qed.

Lemma argmin_axis0_ok ww (l v r : list (xfloat F)) :
  length l = ww -> length v = ww -> length r = ww ->
  exists ks, argmin_axis0 ww [l; v; r] = Return ks /\ length ks = ww /\
             Forall (fun k => (k < 3)%nat) ks.
Proof.
  intros Hl Hv Hr. unfold argmin_axis0.
  assert (Hcol : forall j, (j < ww)%nat ->
            exists a b c, column [l; v; r] j = [a; b; c]).
  { intros j Hj. unfold column. simpl.
    destruct (lookup_lt_is_Some_2 l j) as [a ->]; [lia |].
    destruct (lookup_lt_is_Some_2 v j) as [b ->]; [lia |].
    destruct (lookup_lt_is_Some_2 r j) as [c ->]; [lia |].
    simpl. by exists a, b, c. }
  destruct (omapM_ok (fun j => argmin xltb (column [l; v; r] j)) (seq 0 ww)) as [ks Hks].
  { apply Forall_forall. intros j Hj%elem_of_seq.
    destruct (Hcol j) as (a & b & c & ->); [lia |].
    destruct (argmin_ok xltb [a; b; c]) as (k & -> & _); [done |]. by exists k. }
  exists ks. split; [done |]. apply omapM_Forall2 in Hks.
  split; [by rewrite <- (Forall2_length _ _ _ Hks), length_seq |].
  apply Forall_forall. intros k Hk.
  apply list_elem_of_lookup in Hk as [n Hn].
  destruct (Forall2_lookup_r _ _ _ _ _ Hks Hn) as (j & Hj & Harg).
  apply lookup_seq in Hj as [Hjn Hj]. rewrite Nat.add_0_l in Hjn. subst j.
  destruct (Hcol n Hj) as (a & b & c & Hc). cbv beta in Harg. rewrite Hc in Harg.
  destruct (argmin_ok xltb [a; b; c]) as (k' & Hk' & Hlt); [done |].
  rewrite Hk' in Harg. injection Harg as <-. simpl in Hlt. lia.
Qed.

Lemma take_along_ok ww (l v r : list (xfloat F)) ks :
  length l = ww -> length v = ww -> length r = ww ->
  length ks = ww -> Forall (fun k => (k < 3)%nat) ks ->
  exists vals, take_along [l; v; r] ks = Return vals /\ length vals = ww.
Proof.
  intros Hl Hv Hr Hks Hlt. unfold take_along.
  destruct (omapM_ok (fun kj : nat * nat =>
              let* row := list_get [l; v; r] kj.1 in list_get row kj.2)
              (zip ks (seq 0 (length ks)))) as [vals Hvals].
  { apply Forall_forall. intros [k j] Hkj.
    apply list_elem_of_lookup in Hkj as [n Hn].
    apply lookup_zip_with_Some in Hn as (k' & j' & [= -> ->] & Hk & Hj).
    apply lookup_seq in Hj as [Hjn Hj]. rewrite Nat.add_0_l in Hjn. subst j'. simpl.
    assert (Hk3 : (k' < 3)%nat) by by eapply (Forall_lookup_1 _ _ _ _ Hlt Hk).
    destruct k' as [| [| [| k']]]; [| | | lia]; simpl.
    - destruct (list_get_lt l n) as (x & -> & _); [lia |]. by exists x.
    - destruct (list_get_lt v n) as (x & -> & _); [lia |]. by exists x.
    - destruct (list_get_lt r n) as (x & -> & _); [lia |]. by exists x. }
  exists vals. split; [done |]. apply omapM_Forall2, Forall2_length in Hvals.
  rewrite <- Hvals, length_zip_with, length_seq. lia.
Qed.

Lemma directions_ok ww ks :
  length ks = ww -> Forall (fun k => (k < 3)%nat) ks ->
  exists dirs, omapM (list_get direction_map) ks = Return dirs /\ length dirs = ww /\
               Forall (fun d => -1 <= d <= 1) dirs.
Proof.
  intros Hks Hlt.
  destruct (omapM_ok (list_get direction_map) ks) as [dirs Hdirs].
  { eapply Forall_impl; [exact Hlt |]. intros k Hk. simpl in Hk.
    destruct k as [| [| [| k]]]; [| | | lia]; simpl; eauto. }
  exists dirs. split; [done |]. apply omapM_Forall2 in Hdirs.
  split; [by rewrite <- (Forall2_length _ _ _ Hdirs) |].
  apply Forall_forall. intros d Hd.
  apply list_elem_of_lookup in Hd as [n Hn].
  destruct (Forall2_lookup_r _ _ _ _ _ Hdirs Hn) as (k & Hk & Hget).
  apply list_get_Return in Hget.
  destruct k as [| [| [| k]]]; simpl in Hget; [| | | done];
    injection Hget as <-; lia.
Qed.
End DPFacts.

Section DPRun.
Context {F : Type} `{FloatOps F}.
Implicit Type st : SeamImage F.

Lemma with_backtrack_mat_id st : with_backtrack_mat (backtrack_mat st) st = st.
Proof. by destruct st. Qed.

Lemma calc_M_loop_ok ww n : forall (i : nat) Mg st,
  (1 <= i)%nat ->
  wf_arr Mg -> shape Mg = ((i + n)%nat, ww) ->
  wf_arr (C_L st) -> shape (C_L st) = ((i + n)%nat, ww) ->
  wf_arr (C_V st) -> shape (C_V st) = ((i + n)%nat, ww) ->
  wf_arr (C_R st) -> shape (C_R st) = ((i + n)%nat, ww) ->
  wf_arr (backtrack_mat st) -> shape (backtrack_mat st) = ((i + n)%nat, ww) ->
  directions (backtrack_mat st) ->
  exists Mg' bt',
    calc_M_loop ww n (Z.of_nat i) Mg st = (Return Mg', with_backtrack_mat bt' st) /\
    wf_arr Mg' /\ shape Mg' = ((i + n)%nat, ww) /\
    wf_arr bt' /\ shape bt' = ((i + n)%nat, ww) /\ directions bt'.
Proof.
  induction n as [| n IH]; intros i Mg st Hi HwM HsM HwL HsL HwV HsV HwR HsR Hwb Hsb Hdb.
  - exists Mg, (backtrack_mat st). simpl. rewrite with_backtrack_mat_id.
    split_and!; done.
  - injection HsM as HM1 HM2. injection HsL as HL1 HL2. injection HsV as HV1 HV2.
    injection HsR as HR1 HR2. injection Hsb as Hb1 Hb2.
    destruct (get_row_ok Mg (i - 1)) as (m_prev & Hmp & _ & Hlmp); [done | lia |].
    destruct (get_row_ok (C_L st) (i - 1)) as (CL & HCL & _ & HlCL); [done | lia |].
    destruct (get_row_ok (C_V st) (i - 1)) as (CV & HCV & _ & HlCV); [done | lia |].
    destruct (get_row_ok (C_R st) (i - 1)) as (CR & HCR & _ & HlCR); [done | lia |].
    replace (Z.of_nat (i - 1)) with (Z.of_nat i - 1) in * by lia.
    destruct (cost_matrix_ok ww m_prev CL CV CR) as (l & v & r & Hcm & Hl & Hv & Hr);
      [congruence .. |].
    destruct (argmin_axis0_ok ww l v r) as (ks & Hks & Hlks & Hk3); [done .. |].
    destruct (take_along_ok ww l v r ks) as (vals & Hvals & Hlvals); [done .. |].
    destruct (directions_ok ww ks) as (dirs & Hdirs & Hldirs & Hdd); [done .. |].
    destruct (arr_set_row_ok (backtrack_mat st) i dirs) as [Hbt Hwbt];
      [done | lia | congruence |].
    destruct (get_row_ok Mg i) as (Mi & HMi & _ & HlMi); [done | lia |].
    destruct (arr_set_row_ok Mg i (zip_with xadd Mi vals)) as [HMg' HwMg'];
      [done | lia | rewrite length_zip_with; lia |].
    set (bt1 := mkArr _ _ (<[i := dirs]> (rows (backtrack_mat st)))) in *.
    set (Mg1 := mkArr _ _ (<[i := zip_with xadd Mi vals]> (rows Mg))) in *.
    destruct (IH (S i) Mg1 (with_backtrack_mat bt1 st)) as (Mg' & bt' & Hrun & Hrest).
    { lia. } { done. }
    { unfold shape. subst Mg1. simpl. f_equal; lia. }
    { done. } { proj. unfold shape. f_equal; lia. }
    { done. } { proj. unfold shape. f_equal; lia. }
    { done. } { proj. unfold shape. f_equal; lia. }
    { done. }
    { proj. unfold shape. subst bt1. simpl. f_equal; lia. }
    { unfold directions. subst bt1. proj. simpl. by apply Forall_insert. }
    exists Mg', bt'. replace (i + S n)%nat with (S i + n)%nat by lia.
    split; [| done].
    cbn [calc_M_loop]. unfold mbind, eval, assign.
    rewrite Hmp, HCL, HCV, HCR, Hcm, Hks, Hvals, Hdirs, Hbt, HMi, HMg'.
    replace (Z.of_nat i + 1) with (Z.of_nat (S i)) by lia.
    exact Hrun.
Qed.


Lemma init_mats_ok st :
  wf_arr (E st) -> wf_arr (resized_gs st) -> shape (E st) = shape (resized_gs st) ->
  exists Mg bt st',
    init_mats st = (Return tt, st') /\
    M st' = Mg /\ backtrack_mat st' = bt /\ frame_eq st st' /\
    wf_arr Mg /\ shape Mg = shape (E st) /\
    wf_arr bt /\ shape bt = shape (E st) /\ directions bt.
Proof.
  intros HwE Hwg HsE.
  set (st1 := calc_C (with_backtrack_mat (np_full (nrows (E st)) (ncols (E st)) 0) st)).
  assert (HwM0 : wf_arr (arr_map Fin (E st))) by by apply arr_map_wf.
  assert (Hwz : wf_arr (np_full (nrows (E st)) (ncols (E st)) (0:Z))).
  { apply wf_rows_replicate. }
  assert (Hdz : directions (np_full (nrows (E st)) (ncols (E st)) (0:Z))).
  { unfold directions. simpl. apply Forall_replicate, Forall_replicate. lia. }
  destruct (calc_C_wf (with_backtrack_mat (np_full (nrows (E st)) (ncols (E st)) 0) st))
    as (HwV & HwL & HwR & HsV & HsL & HsR); [by proj |].
  fold st1 in HwV, HwL, HwR, HsV, HsL, HsR. proj.
  assert (Hrun : exists Mg bt,
    calc_M st1 = (Return Mg, with_backtrack_mat bt st1) /\
    wf_arr Mg /\ shape Mg = shape (E st) /\
    wf_arr bt /\ shape bt = shape (E st) /\ directions bt).
  { unfold calc_M, mbind, eval, assign. cbn beta iota.
    change (E st1) with (E st).
    destruct (nrows (E st)) as [| n] eqn:Hn.
    - exists (arr_map Fin (E st)), (np_full 0 (ncols (E st)) 0). simpl.
      split_and!; try done; unfold shape, arr_map; simpl; by rewrite ?Hn.
    - cbn [Nat.sub]. rewrite Nat.sub_0_r.
      destruct (calc_M_loop_ok (ncols (E st)) n 1 (arr_map Fin (E st))
                  (with_backtrack_mat (np_full (S n) (ncols (E st)) 0) st1))
        as (Mg & bt & Hloop & HwM & HsM & Hwb & Hsb & Hdb); try done.
      + unfold shape, arr_map. simpl. by rewrite Hn.
      + proj. rewrite HsL, <- HsE. unfold shape. by rewrite Hn.
      + proj. rewrite HsV, <- HsE. unfold shape. by rewrite Hn.
      + proj. rewrite HsR, <- HsE. unfold shape. by rewrite Hn.
      + exists Mg, bt. split; [exact Hloop |]. unfold shape in *. rewrite Hn.
        split_and!; done. }
  destruct Hrun as (Mg & bt & Hrun & HwM & HsM & Hwb & Hsb & Hdb).
  exists Mg, bt, (with_M Mg (with_backtrack_mat bt st1)).
  split; [| split_and!; try done; by repeat split].
  unfold init_mats, mbind, assign. cbn beta iota. fold st1. by rewrite Hrun.
Qed.

Lemma backtrack_loop_ok st (hh ww : nat) :
  wf_arr (backtrack_mat st) -> shape (backtrack_mat st) = (hh, ww) ->
  directions (backtrack_mat st) -> w st = Z.of_nat ww ->
  forall n min_idx,
    (n < hh)%nat -> 0 <= min_idx < Z.of_nat ww ->
    exists walk,
      backtrack_loop st n min_idx = Return walk /\ length walk = n /\
      Forall (fun c => 0 <= c < Z.of_nat ww) walk /\
      forall i a b, (min_idx :: walk) !! i = Some a -> (min_idx :: walk) !! S i = Some b ->
                    Z.abs (b - a) <= 1.
Proof.
  intros Hwb Hsb Hdb Hw. injection Hsb as Hb1 Hb2.
  induction n as [| n IH]; intros min_idx Hn Hm.
  - exists []. simpl. split_and!; done.
  - cbn [backtrack_loop]. unfold get2.
    destruct (get_row_ok (backtrack_mat st) (S n)) as (row & -> & Hrow & Hlrow);
      [done | lia |].
    simpl. rewrite py_index_nonneg by lia. simpl.
    destruct (list_get_lt row (Z.to_nat min_idx)) as (d & -> & Hd); [lia |]. simpl.
    assert (Hdir : -1 <= d <= 1).
    { pose proof (Forall_lookup_1 _ _ _ _ Hdb Hrow) as Hr.
      by apply (Forall_lookup_1 _ _ _ _ Hr Hd). }
    set (m' := Z.max 0 (Z.min (min_idx + d) (w st - 2))).
    destruct (IH m') as (walk & -> & Hlen & Hall & Hadj); [lia | subst m'; lia |].
    simpl. exists (m' :: walk). split_and!; try done.
    + simpl. lia.
    + constructor; [subst m'; lia | done].
    + intros [| i] a b Ha Hb; simpl in Ha, Hb.
      * injection Ha as <-. injection Hb as <-. subst m'. lia.
      * by apply (Hadj i).
Qed.

(** The dynamic-programming finder returns a valid seam whenever the
    image has at least one row and one column. *)
Lemma dp_find_minimal_seam_ok st :
  carver_inv st -> wf_arr (E st) -> shape (E st) = shape (resized_gs st) ->
  (0 < nrows (resized_rgb st))%nat -> (0 < ncols (resized_rgb st))%nat ->
  exists seam st',
    dp_find_minimal_seam st = (Return seam, st') /\ frame_eq st st' /\
    valid_seam (nrows (resized_rgb st)) (ncols (resized_rgb st)) seam.
Proof.
  intros ((_ & _ & Hwg & Hsg & Hh & Hw) & _) HwE HsE Hpos_h Hpos_w.
  destruct (init_mats_ok st HwE Hwg HsE)
    as (Mg & bt & st1 & Hinit & HM & Hbt & Hfr & HwM & HsM & Hwb & Hsb & Hdb).
  set (hh := nrows (resized_rgb st)) in *. set (ww := ncols (resized_rgb st)) in *.
  assert (HsE' : shape (E st) = (hh, ww)) by (by rewrite HsE, Hsg).
  rewrite HsE' in HsM, Hsb. injection HsM as HM1 HM2.
  destruct (get_row_ok Mg (hh - 1)) as (last & _ & Hlast & Hllast); [done | lia |].
  assert (Hget : get_row Mg (-1) = Return last).
  { unfold get_row. rewrite py_index_neg by lia. simpl.
    apply list_get_Return. by replace (Z.to_nat (Z.of_nat (nrows Mg) + -1)) with (hh - 1)%nat by lia. }
  destruct (argmin_ok xltb last) as (k & Hk & Hklt).
  { intros ->. simpl in Hllast. lia. }
  destruct Hfr as (Hf1 & Hf2 & Hf3 & Hf4 & Hf5 & Hf6 & Hf7 & Hf8 & Hf9).
  destruct (backtrack_loop_ok st1 hh ww) with (n := (hh - 1)%nat) (min_idx := Z.of_nat k)
    as (walk & Hwalk & Hlw & Hall & Hadj); try (subst bt; done); try lia.
  exists (reverse (Z.of_nat k :: walk)), st1. split; [| split; [by repeat split |]].
  - unfold dp_find_minimal_seam, mbind, eval, mret. rewrite Hinit. cbn beta iota.
    rewrite HM, Hget. cbn beta iota. rewrite Hk. cbn beta iota.
    replace (Z.to_nat (h st1 - 1)) with (hh - 1)%nat by lia.
    by rewrite Hwalk.
  - split_and!.
    + rewrite length_reverse. simpl. lia.
    + apply Forall_reverse. constructor; [lia | done].
    + intros i a b Ha Hb.
      assert (Hi : (S i < length (Z.of_nat k :: walk))%nat).
      { apply lookup_lt_Some in Hb. by rewrite length_reverse in Hb. }
      rewrite reverse_lookup in Ha by lia. rewrite reverse_lookup in Hb by lia.
      replace (length (Z.of_nat k :: walk) - S i)%nat
        with (S (length (Z.of_nat k :: walk) - S (S i)))%nat in Ha by lia.
      pose proof (Hadj _ _ _ Hb Ha). lia.
Qed.
End DPRun.

(** ** The greedy finder returns when the walk stays inside Python's
    index range *)

Lemma get2_py {A} (a : ndarray A) (i : nat) (c : Z) :
  wf_arr a -> (i < nrows a)%nat -> - Z.of_nat (ncols a) <= c < Z.of_nat (ncols a) ->
  exists x, get2 a (Z.of_nat i) c = Return x.
Proof.
  intros Hwf Hi Hc. unfold get2.
  destruct (get_row_ok a i Hwf Hi) as (r & -> & _ & Hr). simpl.
  destruct (py_index (ncols a) c) as [k | e] eqn:Hk.
  - simpl. apply py_index_inv in Hk as (Hk & _).
    destruct (list_get_lt r k) as (x & -> & _); [lia |]. by exists x.
  - destruct (decide (c < 0)).
    + by rewrite py_index_neg in Hk by lia.
    + by rewrite py_index_nonneg in Hk by lia.
Qed.

Section GreedyRun.
Context {F : Type} `{FloatOps F}.
Implicit Type st : SeamImage F.

Lemma candidate_ok st (Cg : ndarray F) (hh ww i : nat) c :
  wf_arr (E st) -> shape (E st) = (hh, ww) -> wf_arr Cg -> shape Cg = (hh, ww) ->
  (i < hh)%nat -> - Z.of_nat ww <= c < Z.of_nat ww ->
  exists x, candidate st Cg (Z.of_nat i) c = Return x.
Proof.
  intros HwE [= HE1 HE2] HwC [= HC1 HC2] Hi Hc. unfold candidate.
  destruct (get2_py (E st) i c) as [e ->]; [done | lia | lia |]. simpl.
  destruct (get2_py Cg i c) as [k ->]; [done | lia | lia |]. simpl. eauto.
Qed.

Lemma greedy_next_ok st (hh ww i : nat) min_idx :
  wf_arr (E st) -> shape (E st) = (hh, ww) ->
  wf_arr (C_L st) -> shape (C_L st) = (hh, ww) ->
  wf_arr (C_V st) -> shape (C_V st) = (hh, ww) ->
  wf_arr (C_R st) -> shape (C_R st) = (hh, ww) ->
  (S i < hh)%nat -> - Z.of_nat ww <= min_idx <= Z.of_nat ww - 1 ->
  exists next, greedy_next st (Z.of_nat ww) (Z.of_nat i) min_idx = Return next /\
               min_idx - 1 <= next <= Z.of_nat ww - 1.
Proof.
  intros HwE HsE HwL HsL HwV HsV HwR HsR Hi Hm.
  unfold greedy_next, candidates.
  replace (Z.of_nat i + 1) with (Z.of_nat (S i)) by lia.
  destruct (candidate_ok st (C_V st) hh ww (S i) min_idx) as [cc Hcc]; try done; [lia |].
  destruct (0 <? min_idx) eqn:Hleft; [apply Z.ltb_lt in Hleft | apply Z.ltb_ge in Hleft].
  - destruct (candidate_ok st (C_L st) hh ww (S i) (min_idx - 1)) as [cl ->];
      try done; [lia |].
    cbn [obind]. rewrite Hcc. cbn [obind].
    destruct (min_idx <? Z.of_nat ww - 1) eqn:Hright;
      [apply Z.ltb_lt in Hright | apply Z.ltb_ge in Hright].
    + destruct (candidate_ok st (C_R st) hh ww (S i) (min_idx + 1)) as [cr ->];
        try done; [lia |].
      cbn [obind app]. destruct (argmin_ok fltb [cl; cc; cr]) as (d & -> & Hd); [done |].
      cbn [obind length] in *. eexists. split; [done | lia].
    + cbn [obind app]. destruct (argmin_ok fltb [cl; cc]) as (d & -> & Hd); [done |].
      cbn [obind length] in *. eexists. split; [done | lia].
  - cbn [obind]. rewrite Hcc. cbn [obind].
    destruct (min_idx <? Z.of_nat ww - 1) eqn:Hright;
      [apply Z.ltb_lt in Hright | apply Z.ltb_ge in Hright].
    + destruct (candidate_ok st (C_R st) hh ww (S i) (min_idx + 1)) as [cr ->];
        try done; [lia |].
      cbn [obind app]. destruct (argmin_ok fltb [cc; cr]) as (d & -> & Hd); [done |].
      cbn [obind length] in *. eexists. split; [done | lia].
    + cbn [obind app]. destruct (argmin_ok fltb [cc]) as (d & -> & Hd); [done |].
      cbn [obind length] in *. eexists. split; [done | lia].
Qed.

Lemma greedy_loop_ok st (hh ww : nat) :
  wf_arr (E st) -> shape (E st) = (hh, ww) ->
  wf_arr (C_L st) -> shape (C_L st) = (hh, ww) ->
  wf_arr (C_V st) -> shape (C_V st) = (hh, ww) ->
  wf_arr (C_R st) -> shape (C_R st) = (hh, ww) ->
  (hh <= ww + 1)%nat ->
  forall n (i : nat) min_idx seam,
    (i + n = hh)%nat -> length seam = hh ->
    - Z.of_nat i <= min_idx <= Z.of_nat ww - 1 ->
    Forall (fun c => - Z.of_nat ww <= c < Z.of_nat ww) seam ->
    exists seam',
      greedy_loop st (Z.of_nat hh) (Z.of_nat ww) n (Z.of_nat i) min_idx seam = Return seam' /\
      length seam' = hh /\ Forall (fun c => - Z.of_nat ww <= c < Z.of_nat ww) seam'.
Proof.
  intros HwE HsE HwL HsL HwV HsV HwR HsR Hhw.
  induction n as [| n IH]; intros i min_idx seam Hin Hlen Hm Hall.
  - exists seam. by split_and!.
  - cbn [greedy_loop]. rewrite Nat2Z.id.
    assert (Hall' : Forall (fun c => - Z.of_nat ww <= c < Z.of_nat ww) (<[i := min_idx]> seam)).
    { apply Forall_insert; [done | lia]. }
    replace (Z.of_nat i + 1) with (Z.of_nat (S i)) by lia.
    destruct (Z.of_nat (S i) <? Z.of_nat hh) eqn:Hnext;
      [apply Z.ltb_lt in Hnext | apply Z.ltb_ge in Hnext].
    + destruct (greedy_next_ok st hh ww i min_idx) as (next & -> & Hn); try done; try lia.
      simpl. apply IH; [lia | by rewrite length_insert | lia | done].
    + destruct n; [| lia]. simpl. exists (<[i := min_idx]> seam).
      split_and!; [done | by rewrite length_insert | done].
Qed.

(** The greedy finder returns when the image is not taller than it is
    wide by more than one row; its columns may be negative. *)
Lemma greedy_find_minimal_seam_ok st :
  carver_inv st -> wf_arr (E st) -> shape (E st) = shape (resized_gs st) ->
  (0 < nrows (resized_rgb st))%nat -> (0 < ncols (resized_rgb st))%nat ->
  (nrows (resized_rgb st) <= ncols (resized_rgb st) + 1)%nat ->
  exists seam st',
    greedy_find_minimal_seam st = (Return seam, st') /\ frame_eq st st' /\
    length seam = nrows (resized_rgb st) /\
    Forall (fun c => - Z.of_nat (ncols (resized_rgb st)) <= c
                     < Z.of_nat (ncols (resized_rgb st))) seam.
Proof.
  intros ((_ & _ & Hwg & Hsg & Hh & Hw) & _) HwE HsE Hpos_h Hpos_w Hhw.
  set (hh := nrows (resized_rgb st)) in *. set (ww := ncols (resized_rgb st)) in *.
  assert (HsE' : shape (E st) = (hh, ww)) by (by rewrite HsE, Hsg).
  destruct (calc_C_wf st Hwg) as (HwV & HwL & HwR & HsV & HsL & HsR).
  set (st1 := calc_C st) in *. rewrite Hsg in HsV, HsL, HsR.
  injection HsE' as HE1 HE2.
  destruct (get_row_ok (E st) 0) as (row0 & Hrow0 & _ & Hlrow0); [done | lia |].
  destruct (argmin_ok fltb row0) as (k & Hk & Hklt).
  { intros ->. simpl in Hlrow0. lia. }
  assert (HsE1 : shape (E st1) = (hh, ww)).
  { change (E st1) with (E st). unfold shape. by rewrite HE1, HE2. }
  assert (Hlz : length (replicate hh (0:Z)) = hh) by by rewrite length_replicate.
  assert (Hfz : Forall (fun c => - Z.of_nat ww <= c < Z.of_nat ww) (replicate hh 0)).
  { apply Forall_replicate. lia. }
  destruct (greedy_loop_ok st1 hh ww) with (n := hh) (i := 0%nat)
    (min_idx := Z.of_nat k) (seam := replicate hh 0)
    as (seam & Hloop & Hlen & Hall); try done; try lia.
  change (Z.of_nat 0) with 0 in Hrow0, Hloop.
  exists seam, st1. split; [| split_and!; try done; by repeat split].
  unfold greedy_find_minimal_seam, mbind, eval, assign. cbn beta iota.
  fold st1. change (E st1) with (E st). rewrite Hrow0. cbn beta iota.
  rewrite Hk. cbn beta iota. rewrite HE1, HE2. by rewrite Hloop.
Qed.
End GreedyRun.

(** ** The removal loop returns *)

Section RemovalRun.
Context {F : Type} `{FloatOps F}.
Implicit Type st : SeamImage F.

Lemma carver_inv_dims st :
  carver_inv st ->
  h st = Z.of_nat (nrows (resized_rgb st)) /\ w st = Z.of_nat (ncols (resized_rgb st)).
Proof. by intros ((_ & _ & _ & _ & Hh & Hw) & _). Qed.

Lemma remove_seam_ok seam st :
  carver_inv st -> (0 < nrows (resized_rgb st))%nat ->
  length seam = nrows (resized_rgb st) ->
  Forall (fun c => - Z.of_nat (ncols (resized_rgb st)) <= c
                   < Z.of_nat (ncols (resized_rgb st))) seam ->
  exists st', remove_seam seam st = (Return tt, st').
Proof.
  intros ((Hwf0 & Hwfr & Hwfg & Hsh & Hh & Hw) & Hwfi & Hidx) Hpos Hlen Hall.
  set (hh := nrows (resized_rgb st)) in *. set (ww := ncols (resized_rgb st)) in *.
  set (ks := map (fun c => Z.to_nat (if c <? 0 then Z.of_nat ww + c else c)) seam).
  assert (Hks : forall j k, ks !! j = Some k ->
            exists c, seam !! (0 + j)%nat = Some c /\ py_index ww c = Return k).
  { intros j k Hj. subst ks. rewrite list_lookup_fmap in Hj.
    destruct (seam !! j) as [c |] eqn:Hc; [| done]. simpl in Hj. injection Hj as <-.
    exists c. split; [done |].
    pose proof (Forall_lookup_1 _ _ _ _ Hall Hc) as Hr. simpl in Hr.
    destruct (c <? 0) eqn:Hneg; [apply Z.ltb_lt in Hneg | apply Z.ltb_ge in Hneg].
    - by rewrite py_index_neg by lia.
    - by rewrite py_index_nonneg by lia. }
  assert (Hlks : length ks = hh) by (subst ks; by rewrite length_map).
  assert (Hlt : Forall (fun k => (k < ww)%nat) ks).
  { apply Forall_lookup. intros j k Hj. destruct (Hks j k Hj) as (c & _ & Hk).
    by apply py_index_inv in Hk as [? _]. }
  pose proof (mask_loop_ok seam ww hh 0 [] ks eq_refl Hlks Hks) as Hmask.
  simpl in Hmask.
  rewrite remove_seam_unfold. cbn zeta. fold hh ww. unfold seam_mask, np_full.
  rewrite Hmask.
  rewrite carve_spec by (done || lia).
  rewrite carve_spec by (done || lia).
  destruct (vis_seams st) eqn:Hvis; [| by eexists].
  destruct (Hidx eq_refl) as (_ & Hshi & _).
  rewrite carve_spec by (done || lia || congruence). by eexists.
Qed.

Lemma set_all_ok (m : ndarray bool) ps :
  wf_arr m -> Forall (in_bounds m) ps -> exists m', set_all m ps = Return m'.
Proof.
  intros Hwf Hall. revert m Hwf Hall.
  induction ps as [| p ps IH]; intros m Hwf Hall; simpl; [by eexists |].
  inversion Hall as [| ? ? [Hx Hy] Hrest]; subst.
  unfold set_true, arr_set.
  rewrite py_index_nonneg by lia. simpl. rewrite py_index_nonneg by lia. simpl.
  destruct (list_get_lt (rows m) (Z.to_nat p.2)) as (r & -> & Hr);
    [destruct Hwf; lia |].
  simpl. apply IH.
  - destruct Hwf as [Hl Hf]. split; simpl.
    + by rewrite length_insert.
    + apply Forall_insert; [done |]. rewrite length_insert.
      by apply (Forall_lookup_1 _ _ _ _ Hf Hr).
  - done.
Qed.

Lemma slice_sublist {A} k (l : list A) : slice_stop k l `sublist_of` l.
Proof. apply sublist_take. Qed.

Lemma concat_sublist {A} (l1 l2 : list (list A)) :
  l1 `sublist_of` l2 -> concat l1 `sublist_of` concat l2.
Proof.
  induction 1; simpl; [done | |].
  - by apply sublist_app.
  - by apply sublist_inserts_l.
Qed.

Lemma concat_map_slice_sublist {A} k (m : list (list A)) :
  concat (map (slice_stop k) m) `sublist_of` concat m.
Proof.
  induction m as [| r m IH]; simpl; [done |].
  apply sublist_app; [apply slice_sublist | done].
Qed.

Lemma paint_seams_ok st :
  carver_inv st -> vis_seams st = true ->
  exists st', paint_seams st = (Return tt, st') /\ frame_eq st st'.
Proof.
  intros (Hsync & Hwfi & Hidx) Hvis. destruct (Hidx Hvis) as (_ & _ & _ & Hbd).
  set (mask := np_full (nrows (rgb st)) (ncols (rgb st)) false).
  destruct (set_all_ok mask
              (concat (map (slice_stop (w st)) (slice_stop (h st) (rows (idx_map st))))))
    as [m' Hm'].
  { apply wf_rows_replicate. }
  { eapply Forall_sublist.
    - etrans; [apply concat_map_slice_sublist |].
      apply concat_sublist, slice_sublist.
    - exact Hbd. }
  eexists. split.
  - unfold paint_seams, mbind, assign, eval. cbn beta iota. proj. fold mask.
    rewrite Hm'. reflexivity.
  - by repeat split.
Qed.

Lemma find_minimal_seam_ok st :
  carver_inv st -> wf_arr (E st) -> shape (E st) = shape (resized_gs st) ->
  (0 < nrows (resized_rgb st))%nat -> (0 < ncols (resized_rgb st))%nat ->
  (kind st = Greedy -> (nrows (resized_rgb st) <= ncols (resized_rgb st) + 1)%nat) ->
  exists seam st',
    find_minimal_seam st = (Return seam, st') /\ frame_eq st st' /\
    length seam = nrows (resized_rgb st) /\
    Forall (fun c => - Z.of_nat (ncols (resized_rgb st)) <= c
                     < Z.of_nat (ncols (resized_rgb st))) seam.
Proof.
  intros Hinv HwE HsE Hh Hw Hg. unfold find_minimal_seam.
  destruct (kind st).
  - by apply greedy_find_minimal_seam_ok; [.. | apply Hg].
  - destruct (dp_find_minimal_seam_ok st) as (seam & st' & Hrun & Hfr & Hlen & Hall & _);
      try done.
    exists seam, st'. split_and!; try done.
    eapply Forall_impl; [exact Hall |]. intros c Hc. simpl in Hc. lia.
Qed.

Lemma removal_loop_ok n : forall st,
  carver_inv st ->
  (n <> 0%nat -> (0 < nrows (resized_rgb st))%nat) ->
  (n <= ncols (resized_rgb st))%nat ->
  (kind st = Greedy -> (nrows (resized_rgb st) + n <= ncols (resized_rgb st) + 2)%nat) ->
  exists st', removal_loop n st = (Return tt, st').
Proof.
  induction n as [| n IH]; intros st Hinv Hpos Hle Hg; [by eexists |].
  cbn [removal_loop].
  set (sta := with_E (calc_gradient_magnitude st) st).
  assert (Hfa : frame_eq st sta) by by repeat split.
  assert (Hia : carver_inv sta) by by eapply carver_inv_frame.
  destruct (gradient_magnitude_wf (resized_gs st)) as [HwE HsE]; [apply Hinv |].
  assert (Hp1 : (0 < nrows (resized_rgb sta))%nat) by (unfold sta; proj; apply Hpos; lia).
  assert (Hp2 : (0 < ncols (resized_rgb sta))%nat) by (unfold sta; proj; lia).
  assert (Hp3 : kind sta = Greedy ->
                (nrows (resized_rgb sta) <= ncols (resized_rgb sta) + 1)%nat).
  { unfold sta. proj. intros Hk. specialize (Hg Hk). lia. }
  destruct (find_minimal_seam_ok sta) as (seam & stb & Hfind & Hfb & Hlen & Hall);
    try done.
  set (stc := with_seam_history (seam_history stb ++ [seam]) stb).
  assert (Hic : carver_inv stc).
  { assert (Hib : carver_inv stb) by by eapply carver_inv_frame.
    exact Hib. }
  assert (Hrc : resized_rgb stc = resized_rgb st).
  { destruct Hfb as (_ & _ & Hr & _). exact Hr. }
  assert (Hkc : kind stc = kind st).
  { destruct Hfb as (Hk & _). exact Hk. }
  destruct (remove_seam_ok seam stc) as [std Hrem]; try done; rewrite ?Hrc; try done.
  destruct (remove_seam_preserves _ _ _ Hic Hrem) as (Hid & Hhd & Hwd & _ & Hkd & _).
  destruct (carver_inv_dims _ Hid) as [Hh' Hw'].
  destruct (carver_inv_dims _ Hic) as [Hh0 Hw0]. rewrite Hrc in Hh0, Hw0.
  destruct (IH std) as [st' Hrest]; try done; try lia.
  { rewrite Hkd, Hkc. intros Hk. specialize (Hg Hk). lia. }
  exists st'. unfold mbind, assign. cbn beta iota. fold sta.
  rewrite Hfind. cbn beta iota. fold stc. rewrite Hrem. exact Hrest.
Qed.

Lemma seams_removal_ok n st :
  carver_inv st ->
  (Z.to_nat n <> 0%nat -> (0 < nrows (resized_rgb st))%nat) ->
  (Z.to_nat n <= ncols (resized_rgb st))%nat ->
  (kind st = Greedy ->
   (nrows (resized_rgb st) + Z.to_nat n <= ncols (resized_rgb st) + 2)%nat) ->
  exists st', seams_removal n st = (Return tt, st').
Proof.
  intros Hinv Hpos Hle Hg.
  destruct (removal_loop_ok (Z.to_nat n) st) as [st1 Hloop]; try done.
  destruct (removal_loop_preserves _ _ _ Hinv Hloop) as (Hi1 & _).
  unfold seams_removal, mbind, eval. rewrite Hloop.
  destruct (vis_seams st1) eqn:Hvis; [| by eexists].
  destruct (paint_seams_ok st1 Hi1 Hvis) as (st' & Hp & _). by exists st'.
Qed.

Lemma seams_removal_horizontal_ok n st :
  carver_inv st ->
  (Z.to_nat n <> 0%nat -> (0 < ncols (resized_rgb st))%nat) ->
  (Z.to_nat n <= nrows (resized_rgb st))%nat ->
  (kind st = Greedy ->
   (ncols (resized_rgb st) + Z.to_nat n <= nrows (resized_rgb st) + 2)%nat) ->
  exists st', seams_removal_horizontal n st = (Return tt, st').
Proof.
  intros Hinv Hpos Hle Hg.
  destruct (rotate_mats true st) as [r1 st1] eqn:Hrot1.
  assert (r1 = Return tt) as -> by (rewrite rotate_mats_run in Hrot1; by injection Hrot1).
  destruct (rotate_mats_preserves _ _ _ Hinv Hrot1) as (Hi1 & Hh1 & Hw1 & _ & Hk1 & _).
  destruct (carver_inv_dims _ Hinv) as [Hh0 Hw0].
  destruct (carver_inv_dims _ Hi1) as [Hh1' Hw1'].
  assert (Hq1 : Z.to_nat n <> 0%nat -> (0 < nrows (resized_rgb st1))%nat).
  { intros Hn. specialize (Hpos Hn). lia. }
  assert (Hq2 : (Z.to_nat n <= ncols (resized_rgb st1))%nat) by lia.
  assert (Hq3 : kind st1 = Greedy ->
            (nrows (resized_rgb st1) + Z.to_nat n <= ncols (resized_rgb st1) + 2)%nat).
  { rewrite Hk1. intros Hk. specialize (Hg Hk). lia. }
  destruct (seams_removal_ok n st1) as [st2 Hrem]; try done.
  destruct (rotate_mats false st2) as [r3 st3] eqn:Hrot2.
  assert (r3 = Return tt) as -> by (rewrite rotate_mats_run in Hrot2; by injection Hrot2).
  exists st3. unfold seams_removal_horizontal, mbind. by rewrite Hrot1, Hrem.
Qed.
End RemovalRun.

(** ** The resize entry point returns *)

Section ResizeRun.
Context {F : Type} `{FloatOps F}.
Implicit Type st : SeamImage F.

Lemma SeamImage_init_ok k (img : ndarray (pixel F)) vis :
  wf_arr img -> nrows img <> 1%nat -> ncols img <> 1%nat ->
  exists st, SeamImage_init k img vis = Return st.
Proof.
  intros Hwf Hr Hc. unfold SeamImage_init, rgb_to_grayscale.
  rewrite decide_False by tauto.
  destruct k; [by eexists |].
  set (st0 := mkSeamImage DP img img vis _ _ _ _ _ _ _ _ _ _ _ _ _).
  destruct (gradient_magnitude_wf (arr_map gray img)) as [HwE HsE];
    [by apply arr_map_wf |].
  destruct (init_mats_ok st0) as (Mg & bt & st' & -> & _); try done.
  - by apply arr_map_wf.
  - by eexists.
Qed.

Lemma reinit_ok st :
  wf_arr (rgb st) -> nrows (rgb st) <> 1%nat -> ncols (rgb st) <> 1%nat ->
  exists st', reinit st = (Return tt, st').
Proof.
  intros Hwf Hr Hc.
  destruct (SeamImage_init_ok (kind st) (rgb st) true Hwf Hr Hc) as [st' Hinit].
  unfold reinit. rewrite Hinit. by eexists.
Qed.

(** The original image of an object a program holds went through
    [__init__], so neither dimension is 1. *)
Lemma reachable_rgb st :
  reachable st -> nrows (rgb st) <> 1%nat /\ ncols (rgb st) <> 1%nat.
Proof.
  induction 1 as [k img vis st Hwf Hinit | seam st st' Hre IH Hrun | b st st' Hre IH Hrun
                 | n st st' Hre IH Hrun | n st st' Hre IH Hrun | n st st' Hre IH Hrun
                 | shapes st img st' Hre IH Hrun].
  - apply SeamImage_init_inv in Hinit as (_ & _ & -> & _ & _ & _ & _ & _ & _ & _ & ? & ?);
      done.
  - apply remove_seam_preserves in Hrun as (_ & _ & _ & _ & _ & -> & _);
      [done | by apply reachable_inv].
  - apply rotate_mats_preserves in Hrun as (_ & _ & _ & _ & _ & -> & _);
      [done | by apply reachable_inv].
  - apply seams_removal_preserves in Hrun as (_ & _ & _ & _ & -> & _);
      [done | by apply reachable_inv].
  - apply seams_removal_preserves in Hrun as (_ & _ & _ & _ & -> & _);
      [done | by apply reachable_inv].
  - apply seams_removal_horizontal_preserves in Hrun as (_ & _ & _ & _ & -> & _);
      [done | by apply reachable_inv].
  - apply resize_preserves in Hrun as (_ & _ & -> & _);
      [done | by apply reachable_inv].
Qed.

(** A pass that is asked for no seam (or for a negative number of seams)
    only repaints the visualization. *)
Lemma seams_removal_zero n st :
  carver_inv st -> n <= 0 ->
  exists st', seams_removal n st = (Return tt, st') /\ frame_eq st st'.
Proof.
  intros Hinv Hn. unfold seams_removal, mbind, eval.
  replace (Z.to_nat n) with 0%nat by lia. cbn [removal_loop mret].
  destruct (vis_seams st) eqn:Hvis.
  - by apply paint_seams_ok.
  - exists st. split; [done | apply frame_eq_refl].
Qed.

Lemma seams_removal_horizontal_zero n st :
  carver_inv st -> n <= 0 ->
  exists st', seams_removal_horizontal n st = (Return tt, st') /\ frame_eq st st'.
Proof.
  intros Hinv Hn.
  destruct (rotate_mats true st) as [r1 st1] eqn:Hrot1.
  assert (r1 = Return tt) as -> by (rewrite rotate_mats_run in Hrot1; by injection Hrot1).
  destruct (rotate_mats_preserves _ _ _ Hinv Hrot1) as (Hi1 & _).
  destruct (seams_removal_zero n st1 Hi1 Hn) as (st2 & Hrem & Hfr).
  exists (rotate_mats false st2).2.
  split.
  { unfold seams_removal_horizontal, mbind. rewrite Hrot1, Hrem.
    rewrite rotate_mats_run. done. }
  rewrite rotate_mats_run in Hrot1. injection Hrot1 as Hst1.
  rewrite rotate_mats_run. cbn [snd].
  destruct Hfr as (Hk & Hr & Hrr & Hv & Hh & Hw & Hg & Hi & Hs).
  destruct Hinv as ((Hwf0 & Hwfr & Hwfg & _) & Hwfi & _).
  rewrite Hv. subst st1.
  destruct (vis_seams st) eqn:Hvis; proj; rewrite ?Hvis in *; proj;
    unfold frame_eq; proj; rewrite ?Hk, ?Hr, ?Hrr, ?Hh, ?Hw, ?Hg, ?Hi, ?Hs;
    unfold rot90; rewrite ?rot90_ccw_cw by done; split_and!; congruence.
Qed.

(** [resize_seam_carving] returns whenever every seam it is asked for
    exists, and (for the greedy finder) the walk cannot leave Python's
    index range. [wd] and [hd] are the numbers of loop iterations. *)
Lemma resize_seam_carving_ok shapes st :
  wf_arr (rgb st) -> nrows (rgb st) <> 1%nat -> ncols (rgb st) <> 1%nat ->
  let hh := nrows (rgb st) in
  let ww := ncols (rgb st) in
  let wd := Z.to_nat (width_diff shapes) in
  let hd := Z.to_nat (height_diff shapes) in
  (wd <> 0%nat -> (0 < hh)%nat) -> (wd <= ww)%nat ->
  (hd <> 0%nat -> (0 < ww - wd)%nat) -> (hd <= hh)%nat ->
  (kind st = Greedy -> (hh + wd <= ww + 2)%nat /\ (ww - wd + hd <= hh + 2)%nat) ->
  exists img st', resize_seam_carving shapes st = (Return img, st').
Proof.
  intros Hwf Hr Hc hh ww wd hd Hv1 Hv2 Hh1 Hh2 Hg.
  destruct (reinit_ok st Hwf Hr Hc) as (st1 & Hre).
  destruct (reinit_state st st1 Hwf Hre)
    as (Hi1 & Hk1 & Hr1 & _ & Hrr1 & _ & Hh1' & Hw1' & _).
  assert (Hd1 : nrows (resized_rgb st1) = hh /\ ncols (resized_rgb st1) = ww)
    by (by rewrite Hrr1).
  destruct Hd1 as [Hn1 Hc1].
  assert (Hg1 : kind st1 = Greedy ->
            (nrows (resized_rgb st1) + wd <= ncols (resized_rgb st1) + 2)%nat).
  { rewrite Hk1, Hn1, Hc1. intros Hk. by destruct (Hg Hk). }
  destruct (seams_removal_ok (width_diff shapes) st1) as [st2 Hrem]; try done;
    rewrite ?Hn1, ?Hc1; try done.
  destruct (seams_removal_preserves _ _ _ Hi1 Hrem) as (Hi2 & Hh2' & Hw2' & Hk2 & _).
  destruct (carver_inv_dims _ Hi1) as [Ha Hb].
  destruct (carver_inv_dims _ Hi2) as [Ha2 Hb2].
  assert (Hn2 : nrows (resized_rgb st2) = hh) by lia.
  assert (Hc2 : ncols (resized_rgb st2) = (ww - wd)%nat) by (fold wd in Hw2'; lia).
  assert (Hg2 : kind st2 = Greedy ->
            (ncols (resized_rgb st2) + hd <= nrows (resized_rgb st2) + 2)%nat).
  { rewrite Hk2, Hk1, Hn2, Hc2. intros Hk. by destruct (Hg Hk). }
  destruct (seams_removal_horizontal_ok (height_diff shapes) st2) as [st3 Hhor];
    try done; rewrite ?Hn2, ?Hc2; try done.
  exists (resized_rgb st3), st3.
  unfold resize_seam_carving, seams_removal_vertical, mbind, eval.
  by rewrite Hre, Hrem, Hhor.
Qed.
End ResizeRun.

(** ** Lookups in rolled and combined grids *)

Lemma roll_lookup {A} (s : Z) (l : list A) (i : nat) :
  (i < length l)%nat ->
  roll s l !! i = l !! Z.to_nat ((Z.of_nat i - s) mod Z.of_nat (length l)).
Proof.
  intros Hi. unfold roll.
  remember (Z.of_nat (length l)) as n eqn:Hnl.
  assert (Hn : 0 < n) by lia.
  replace (n =? 0) with false by (symmetry; apply Z.eqb_neq; lia).
  pose proof (Z.mod_pos_bound s n Hn) as Hm.
  pose proof (Z.div_mod s n ltac:(lia)) as Hdm.
  set (m := s mod n) in *. set (q := s / n) in *.
  destruct (decide (Z.of_nat i < m)) as [Hlt | Hge].
  - rewrite lookup_app_l by (rewrite length_drop; lia).
    rewrite lookup_drop. f_equal.
    assert (Hmod : (Z.of_nat i - s) mod n = Z.of_nat i - m + n).
    { symmetry. apply (Z.mod_unique_pos _ _ (- q - 1)); [lia |]. rewrite Hdm. ring. }
    rewrite Hmod. lia.
  - rewrite lookup_app_r by (rewrite length_drop; lia).
    rewrite length_drop, lookup_take_lt by lia. f_equal.
    assert (Hmod : (Z.of_nat i - s) mod n = Z.of_nat i - m).
    { symmetry. apply (Z.mod_unique_pos _ _ (- q)); [lia |]. rewrite Hdm. ring. }
    rewrite Hmod. lia.
Qed.

Lemma get2_lookup {A} (a : ndarray A) (i j : nat) r x :
  (i < nrows a)%nat -> (j < ncols a)%nat ->
  rows a !! i = Some r -> r !! j = Some x ->
  get2 a (Z.of_nat i) (Z.of_nat j) = Return x.
Proof.
  intros Hi Hj Hr Hx. unfold get2, get_row.
  rewrite py_index_nat by done. simpl.
  apply list_get_Return in Hr. rewrite Hr. simpl.
  rewrite py_index_nat by done. simpl. by apply list_get_Return.
Qed.

Lemma wf_lookup {A} (a : ndarray A) (i j : nat) :
  wf_arr a -> (i < nrows a)%nat -> (j < ncols a)%nat ->
  exists r x, rows a !! i = Some r /\ r !! j = Some x /\ length r = ncols a.
Proof.
  intros [Hl Hf] Hi Hj.
  destruct (lookup_lt_is_Some_2 (rows a) i) as [r Hr]; [lia |].
  pose proof (Forall_lookup_1 _ _ _ _ Hf Hr) as Hlr. simpl in Hlr.
  destruct (lookup_lt_is_Some_2 r j) as [x Hx]; [lia |].
  by exists r, x.
Qed.

Section CostFacts.
Context {F : Type} `{FloatOps F}.
Implicit Type st : SeamImage F.

Lemma rows_map3_lookup f (a b c : list (list F)) i j ra rb rc x y z :
  a !! i = Some ra -> b !! i = Some rb -> c !! i = Some rc ->
  ra !! j = Some x -> rb !! j = Some y -> rc !! j = Some z ->
  exists r, rows_map3 f a b c !! i = Some r /\ r !! j = Some (f x y z).
Proof.
  intros Ha Hb Hc Hx Hy Hz. unfold rows_map3. eexists. split.
  - rewrite lookup_zip_with, Ha. simpl. rewrite lookup_zip_with, Hb. simpl.
    rewrite Hc. simpl. reflexivity.
  - simpl. rewrite lookup_zip_with, Hx. simpl. rewrite lookup_zip_with, Hy. simpl.
    rewrite Hz. simpl. reflexivity.
Qed.

(** C8. The cost grids come from the current grayscale with circular wrap:
  for every cell (i, j), with a = gs[(i+1) mod h][j], b = gs[(i-1) mod h][j]
  and c = gs[i][j-1] (the last column when j = 0, as Python indexes),
  C_V[i][j] = |a - b|, C_L[i][j] = C_V[i][j] + |b - c| and
  C_R[i][j] = C_V[i][j] + |a - c|. *)
Theorem calc_C_formulas st (i j : nat) :
  wf_arr (resized_gs st) ->
  (i < nrows (resized_gs st))%nat -> (j < ncols (resized_gs st))%nat ->
  let gs := resized_gs st in
  let hh := Z.of_nat (nrows gs) in
  exists a b c,
    get2 gs ((Z.of_nat i + 1) mod hh) (Z.of_nat j) = Return a /\
    get2 gs ((Z.of_nat i - 1) mod hh) (Z.of_nat j) = Return b /\
    get2 gs (Z.of_nat i) (Z.of_nat j - 1) = Return c /\
    get2 (C_V (calc_C st)) (Z.of_nat i) (Z.of_nat j) = Return (fabs (fsub a b)) /\
    get2 (C_L (calc_C st)) (Z.of_nat i) (Z.of_nat j)
      = Return (fadd (fabs (fsub a b)) (fabs (fsub b c))) /\
    get2 (C_R (calc_C st)) (Z.of_nat i) (Z.of_nat j)
      = Return (fadd (fabs (fsub a b)) (fabs (fsub a c))).
Proof.
  intros Hwf Hi Hj gs hh. subst gs hh.
  set (gs := resized_gs st) in *.
  pose proof Hwf as [Hl Hf].
  set (ip := Z.to_nat ((Z.of_nat i + 1) mod Z.of_nat (nrows gs))).
  set (im := Z.to_nat ((Z.of_nat i - 1) mod Z.of_nat (nrows gs))).
  set (jm := Z.to_nat ((Z.of_nat j - 1) mod Z.of_nat (ncols gs))).
  assert (Hip : (ip < nrows gs)%nat).
  { subst ip. pose proof (Z.mod_pos_bound (Z.of_nat i + 1) (Z.of_nat (nrows gs))). lia. }
  assert (Him : (im < nrows gs)%nat).
  { subst im. pose proof (Z.mod_pos_bound (Z.of_nat i - 1) (Z.of_nat (nrows gs))). lia. }
  assert (Hjm : (jm < ncols gs)%nat).
  { subst jm. pose proof (Z.mod_pos_bound (Z.of_nat j - 1) (Z.of_nat (ncols gs))). lia. }
  destruct (wf_lookup gs ip j Hwf Hip Hj) as (rp & a & Hrp & Ha & _).
  destruct (wf_lookup gs im j Hwf Him Hj) as (rm & b & Hrm & Hb & _).
  destruct (wf_lookup gs i jm Hwf Hi Hjm) as (ri & c & Hri & Hc & Hlri).
  exists a, b, c.
  assert (Hjp : roll (-1) (rows gs) !! i = Some rp).
  { rewrite roll_lookup by lia. rewrite Hl.
    by replace (Z.of_nat i - -1) with (Z.of_nat i + 1) by lia. }
  assert (Hjmr : roll 1 (rows gs) !! i = Some rm).
  { rewrite roll_lookup by lia. by rewrite Hl. }
  assert (Himr : map (roll 1) (rows gs) !! i = Some (roll 1 ri)).
  { by rewrite list_lookup_fmap, Hri. }
  assert (Hcr : roll 1 ri !! j = Some c).
  { rewrite roll_lookup by lia. by rewrite Hlri. }
  split_and!.
  - replace ((Z.of_nat i + 1) mod Z.of_nat (nrows gs)) with (Z.of_nat ip).
    + by apply (get2_lookup gs ip j rp).
    + subst ip. apply Z2Nat.id, Z.mod_pos_bound. lia.
  - replace ((Z.of_nat i - 1) mod Z.of_nat (nrows gs)) with (Z.of_nat im).
    + by apply (get2_lookup gs im j rm).
    + subst im. apply Z2Nat.id, Z.mod_pos_bound. lia.
  - unfold get2, get_row. rewrite py_index_nat by done. simpl.
    apply list_get_Return in Hri. rewrite Hri. simpl.
    destruct j as [| j'].
    + rewrite py_index_neg by lia. simpl. apply list_get_Return.
      rewrite <- Hc. f_equal. subst jm.
      change (Z.of_nat 0 - 1) with (-1).
      replace (-1) with (Z.of_nat (ncols gs) - 1 + (-1) * Z.of_nat (ncols gs)) at 2 by lia.
      rewrite Z.mod_add, Z.mod_small by lia. lia.
    + rewrite py_index_nonneg by lia. simpl. apply list_get_Return.
      rewrite <- Hc. f_equal. subst jm.
      rewrite Z.mod_small by lia. lia.
  - destruct (rows_map3_lookup cost_V _ _ _ i j _ _ _ a b c Hjp Hjmr Himr Ha Hb Hcr)
      as (r & Hr & Hx).
    by apply (get2_lookup (C_V (calc_C st)) i j r).
  - destruct (rows_map3_lookup cost_L _ _ _ i j _ _ _ a b c Hjp Hjmr Himr Ha Hb Hcr)
      as (r & Hr & Hx).
    by apply (get2_lookup (C_L (calc_C st)) i j r).
  - destruct (rows_map3_lookup cost_R _ _ _ i j _ _ _ a b c Hjp Hjmr Himr Ha Hb Hcr)
      as (r & Hr & Hx).
    by apply (get2_lookup (C_R (calc_C st)) i j r).
Qed.
End CostFacts.
(** ** The gradient magnitude *)

Section GradientCellFacts.
Context {F : Type} `{FloatOps F}.

Lemma pad_bottom_right_lookup (x : F) (gs : ndarray F) (i j : nat) :
  wf_arr gs -> (i <= nrows gs)%nat -> (j <= ncols gs)%nat ->
  exists r v,
    rows (pad_bottom_right x gs) !! i = Some r /\ r !! j = Some v /\
    if decide (i < nrows gs /\ j < ncols gs)%nat
    then get2 gs (Z.of_nat i) (Z.of_nat j) = Return v
    else v = x.
Proof.
  intros Hwf Hi Hj. unfold pad_bottom_right. cbn [rows].
  destruct (decide (i < nrows gs)%nat) as [Hlt | Hge].
  - destruct (get_row_ok gs i Hwf Hlt) as (r & _ & Hr & Hlr).
    exists (r ++ [x]).
    rewrite lookup_app_l by (rewrite length_map; destruct Hwf; lia).
    rewrite list_lookup_fmap, Hr. cbn [fmap option_fmap option_map].
    destruct (decide (j < ncols gs)%nat) as [Hjlt | Hjge].
    + destruct (lookup_lt_is_Some_2 r j) as [v Hv]; [lia |].
      exists v. rewrite lookup_app_l by lia. split_and!; try done.
      rewrite decide_True by done. by apply (get2_lookup gs i j r v).
    + exists x. rewrite lookup_app_r by lia.
      replace (j - length r)%nat with 0%nat by lia. split_and!; try done.
      by rewrite decide_False by lia.
  - exists (replicate (S (ncols gs)) x), x.
    rewrite lookup_app_r by (rewrite length_map; destruct Hwf; lia).
    rewrite length_map. destruct Hwf as [Hl _].
    replace (i - length (rows gs))%nat with 0%nat by lia.
    split_and!; try done.
    + apply lookup_replicate_2. lia.
    + by rewrite decide_False by lia.
Qed.

(** One cell of the energy grid, in the arithmetic of the instance. *)
Lemma gradient_magnitude_cell (gs : ndarray F) (i j : nat) :
  wf_arr gs -> (i < nrows gs)%nat -> (j < ncols gs)%nat ->
  exists p down right,
    get2 gs (Z.of_nat i) (Z.of_nat j) = Return p /\
    (if decide (S i < nrows gs)%nat
     then get2 gs (Z.of_nat i + 1) (Z.of_nat j) = Return down else down = fhalf) /\
    (if decide (S j < ncols gs)%nat
     then get2 gs (Z.of_nat i) (Z.of_nat j + 1) = Return right else right = fhalf) /\
    get2 (gradient_magnitude gs) (Z.of_nat i) (Z.of_nat j)
    = Return (fsqrt (fadd (fmul (fsub down p) (fsub down p))
                          (fmul (fsub right p) (fsub right p)))).
Proof.
  intros Hwf Hi Hj.
  destruct (pad_bottom_right_lookup fhalf gs i j Hwf) as (ri & p & Hri & Hp & Hpv);
    [lia | lia |].
  destruct (pad_bottom_right_lookup fhalf gs (S i) j Hwf) as (rd & pd & Hrd & Hpd & Hdv);
    [lia | lia |].
  destruct (pad_bottom_right_lookup fhalf gs i (S j) Hwf) as (ri' & pr & Hri' & Hpr & Hrv);
    [lia | lia |].
  assert (ri' = ri) as -> by congruence.
  rewrite decide_True in Hpv by done.
  exists p, pd, pr. split_and!.
  - done.
  - destruct (decide (S i < nrows gs)%nat) as [Hlt | Hge].
    + rewrite decide_True in Hdv by done.
      by replace (Z.of_nat i + 1) with (Z.of_nat (S i)) by lia.
    + by rewrite decide_False in Hdv by lia.
  - destruct (decide (S j < ncols gs)%nat) as [Hlt | Hge].
    + rewrite decide_True in Hrv by done.
      by replace (Z.of_nat j + 1) with (Z.of_nat (S j)) by lia.
    + by rewrite decide_False in Hrv by lia.
  - eapply (get2_lookup (gradient_magnitude gs) i j); [done | done | |].
    + unfold gradient_magnitude. cbn [rows]. unfold rows_map2.
      rewrite lookup_zip_with.
      cbn [drop_last_col drop_last_row diff_axis0 diff_axis1 rows nrows ncols
           pad_bottom_right pred].
      change (map (fun r => r ++ [fhalf]) (rows gs) ++ [replicate (S (ncols gs)) fhalf])
        with (rows (pad_bottom_right fhalf gs)).
      rewrite list_lookup_fmap. unfold rows_map2.
      rewrite lookup_zip_with, lookup_tail, Hrd. cbn [mbind option_bind].
      rewrite Hri. cbn [mbind option_bind fmap option_fmap option_map].
      rewrite lookup_take_lt by lia. rewrite list_lookup_fmap, Hri.
      cbn [mbind option_bind fmap option_fmap option_map]. reflexivity.
    + rewrite lookup_zip_with.
      rewrite lookup_take_lt by done.
      rewrite !lookup_zip_with, lookup_tail, Hpd, Hpr, Hp.
      reflexivity.
Qed.

End GradientCellFacts.

(** The bound in exact arithmetic: the real-number instance, where no
    operation rounds. *)
Section GradientReal.
Local Open Scope R_scope.



End GradientReal.



Section RotationClaim.
Context {F : Type} `{FloatOps F}.
Implicit Type st : SeamImage F.

(** C10. Rotating clockwise and then counter-clockwise, with nothing in
  between, gives back the object as it was: the RGB buffer, the grayscale
  buffer, the index map and the stored height and width (and every other
  attribute). The hypotheses say that the three buffers are arrays, that
  is, that their rows have the length their shape gives. *)
Theorem rotate_mats_roundtrip st :
  wf_arr (resized_rgb st) -> wf_arr (resized_gs st) -> wf_arr (idx_map st) ->
  mbind (rotate_mats true) (fun _ => rotate_mats false) st = (Return tt, st).
Proof.
  intros Hrgb Hgs Hidx. unfold mbind. rewrite !rotate_mats_run. f_equal.
  destruct st as [k im rr vis sr hh ww gs cm e hist idx cv cl cr mm bt].
  cbn [resized_rgb resized_gs idx_map vis_seams h w] in *.
  destruct vis; cbv [with_idx_map with_hw with_resized_rgb with_resized_gs rot90
                     kind rgb resized_rgb vis_seams seams_rgb h w resized_gs cumm_mask
                     E seam_history idx_map C_V C_L C_R M backtrack_mat];
    rewrite !rot90_ccw_cw by done; done.
Qed.
End RotationClaim.
Section RemoveSeamClaim.
Context {F : Type} `{FloatOps F}.
Implicit Type st : SeamImage F.

Lemma remove_seam_ok_rows seam st :
  carver_inv st -> (0 < nrows (resized_rgb st))%nat ->
  (forall i, (i < nrows (resized_rgb st))%nat ->
     exists c, seam !! i = Some c /\
       - Z.of_nat (ncols (resized_rgb st)) <= c < Z.of_nat (ncols (resized_rgb st))) ->
  exists st', remove_seam seam st = (Return tt, st').
Proof.
  intros ((Hwf0 & Hwfr & Hwfg & Hsh & Hh & Hw) & Hwfi & Hidx) Hpos Hall.
  set (hh := nrows (resized_rgb st)) in *. set (ww := ncols (resized_rgb st)) in *.
  set (ks := map (fun c => Z.to_nat (if c <? 0 then Z.of_nat ww + c else c)) (take hh seam)).
  assert (Hks : forall j k, ks !! j = Some k ->
            exists c, seam !! (0 + j)%nat = Some c /\ py_index ww c = Return k).
  { intros j k Hj. subst ks. rewrite list_lookup_fmap in Hj.
    destruct (take hh seam !! j) as [c |] eqn:Hc; [| done]. simpl in Hj. injection Hj as <-.
    apply lookup_take_Some in Hc as [Hc Hjh].
    exists c. split; [done |].
    destruct (Hall j Hjh) as (c' & Hc' & Hr). rewrite Hc in Hc'. injection Hc' as <-.
    destruct (c <? 0) eqn:Hneg; [apply Z.ltb_lt in Hneg | apply Z.ltb_ge in Hneg].
    - by rewrite py_index_neg by lia.
    - by rewrite py_index_nonneg by lia. }
  assert (Hlks : length ks = hh).
  { subst ks. rewrite length_map, length_take. apply Nat.min_l.
    destruct hh as [| n]; [lia |].
    destruct (Hall n) as (c & Hc & _); [lia |].
    apply lookup_lt_Some in Hc. lia. }
  assert (Hlt : Forall (fun k => (k < ww)%nat) ks).
  { apply Forall_lookup. intros j k Hj. destruct (Hks j k Hj) as (c & _ & Hk).
    by apply py_index_inv in Hk as [? _]. }
  pose proof (mask_loop_ok seam ww hh 0 [] ks eq_refl Hlks Hks) as Hmask.
  simpl in Hmask.
  rewrite remove_seam_unfold. cbn zeta. fold hh ww. unfold seam_mask, np_full.
  rewrite Hmask.
  rewrite carve_spec by (done || lia).
  rewrite carve_spec by (done || lia).
  destruct (vis_seams st) eqn:Hvis; [| by eexists].
  destruct (Hidx eq_refl) as (_ & Hshi & _).
  rewrite carve_spec by (done || lia || congruence). by eexists.
Qed.

(** C5 (amended). [remove_seam] checks nothing itself; on an image with at
  least one row it fails exactly where Python's indexing fails. Only the
  entries seam[0 .. h-1] are read. (1) If for some row [i] below the
  height the seam has no entry (it is too short) or its entry is outside
  [-w, w), the call raises IndexError and leaves the whole object, so the
  RGB buffer, the grayscale buffer, the index map and the stored width, as
  it was. (2) Otherwise, so when every row below the height has an entry in
  [-w, w), the call returns: entries beyond the height are ignored, a
  negative entry counts from the right end, row [i] of the RGB and
  grayscale buffers loses that column and the stored width drops by
  one. *)
Theorem remove_seam_accepts_or_rejects st seam :
  let hh := nrows (resized_rgb st) in
  let ww := Z.of_nat (ncols (resized_rgb st)) in
  let col c := Z.to_nat (if c <? 0 then ww + c else c) in
  ((exists i, (i < hh)%nat /\
      forall c, seam !! i = Some c -> ~ (- ww <= c < ww)) ->
   remove_seam seam st = (Raise IndexError, st)) /\
  (reachable st -> (0 < hh)%nat ->
   (forall i, (i < hh)%nat -> exists c, seam !! i = Some c /\ - ww <= c < ww) ->
   exists st',
     remove_seam seam st = (Return tt, st') /\
     resized_rgb st' = cut_columns (map col (take hh seam)) (resized_rgb st) /\
     resized_gs st' = cut_columns (map col (take hh seam)) (resized_gs st) /\
     w st' = w st - 1).
Proof.
  intros hh ww col. split.
  - intros (i & Hi & Hbad). unfold remove_seam, mbind, eval. simpl.
    unfold seam_mask. rewrite (mask_loop_bad_row seam _ _ _ i); [done | lia | done].
  - intros Hreach Hpos Hall.
    pose proof (reachable_inv st Hreach) as Hinv.
    destruct (remove_seam_ok_rows seam st Hinv Hpos Hall) as [st' Hrun].
    exists st'. split; [done |].
    destruct (remove_seam_inv seam st st' Hinv Hrun) as (ks & Hks & _ & Hseam & ->).
    assert (Heq : ks = map col (take hh seam)).
    { apply list_eq. intros j. rewrite list_lookup_fmap.
      destruct (ks !! j) as [k |] eqn:Hk.
      - destruct (Hseam j k Hk) as (c & Hc & Hpy).
        apply lookup_lt_Some in Hk. fold hh in Hks.
        rewrite lookup_take_lt by lia. rewrite Hc. simpl.
        apply py_index_inv in Hpy as (_ & _ & Hkc). f_equal. unfold col, ww. lia.
      - apply lookup_ge_None in Hk. fold hh in Hks.
        rewrite (proj2 (lookup_ge_None (take hh seam) j)); [done |].
        rewrite length_take. lia. }
    rewrite <- Heq. destruct (vis_seams st); proj; done.
Qed.
End RemoveSeamClaim.

Section IndexMapClaim.
Context {F : Type} `{FloatOps F}.
Implicit Type st : SeamImage F.

(** X26. When [vis_seams] is true, after any sequence of seam removals,
  rotations and resizes the index map has exactly current height x current
  width entries, no entry occurs twice, and every entry is a coordinate of
  the original image. *)
Theorem idx_map_invariant st :
  reachable st -> vis_seams st = true ->
  Z.of_nat (length (idx_entries st)) = h st * w st /\
  NoDup (idx_entries st) /\
  Forall (in_bounds (rgb st)) (idx_entries st).
Proof.
  intros Hreach Hvis. apply reachable_inv in Hreach.
  destruct Hreach as ((_ & _ & _ & _ & Hh & Hw) & _ & Hidx).
  destruct (Hidx Hvis) as (Hwf & Hsh & Hnd & Hbd). injection Hsh as Hs1 Hs2.
  split_and!; try done.
  unfold idx_entries. rewrite (length_concat_wf _ _ _ Hwf). lia.
Qed.
End IndexMapClaim.

(** X26, witness: a 2x2 image, one vertical seam removed by the
    dynamic-programming carver, [vis_seams] true. *)
Lemma idx_map_invariant_witness :
  exists st : SeamImage PrimFloat.float,
    reachable st /\ vis_seams st = true /\
    Z.of_nat (length (idx_entries st)) = h st * w st /\
    NoDup (idx_entries st) /\
    Forall (in_bounds (rgb st)) (idx_entries st).
Proof.
  let r := eval vm_compute in (SeamImage_init DP (black_image 2 2) true) in
  lazymatch r with
  | Return ?s0 =>
      let r' := eval vm_compute in (seams_removal 1 s0) in
      lazymatch r' with
      | (Return tt, ?s1) =>
          assert (Hr : reachable s1);
          [ apply (reach_seams_removal 1 s0 s1);
            [ apply (reach_init DP (black_image 2 2) true s0);
              [ split; [reflexivity | repeat constructor]
              | vm_compute; reflexivity ]
            | vm_compute; reflexivity ]
          | exists s1; split; [exact Hr |]; split; [reflexivity |];
            exact (idx_map_invariant s1 Hr eq_refl) ]
      end
  end.
Defined.

(** C4 (code at the failing input). [remove_seam] updates the index map
    only under [if self.vis_seams], although its docstring promises the
    update without condition ("Updates idx_map_h and idx_map_v"; only the
    painting is tied to [vis_seams]). With [vis_seams] false, removing one
    seam from a 2x2 image leaves the index map with its four entries while
    height x width is 2. *)
Lemma idx_map_stale_without_vis :
  exists st st' : SeamImage PrimFloat.float,
    SeamImage_init DP (black_image 2 2) false = Return st /\
    seams_removal 1 st = (Return tt, st') /\
    reachable st' /\
    length (idx_entries st') = 4%nat /\ h st' * w st' = 2.
Proof.
  let r := eval vm_compute in (SeamImage_init DP (black_image 2 2) false) in
  lazymatch r with
  | Return ?s0 =>
      let r' := eval vm_compute in (seams_removal 1 s0) in
      lazymatch r' with
      | (Return tt, ?s1) =>
          assert (H0 : SeamImage_init DP (black_image 2 2) false = Return s0)
            by (vm_compute; reflexivity);
          assert (H1 : seams_removal 1 s0 = (Return tt, s1))
            by (vm_compute; reflexivity);
          exists s0, s1; split; [exact H0 |]; split; [exact H1 |];
          split; [| split; reflexivity];
          apply (reach_seams_removal 1 s0 s1); [| exact H1];
          apply (reach_init DP (black_image 2 2) false s0); [| exact H0];
          split; [reflexivity | repeat constructor]
      end
  end.
Qed.

Section ResizeClaims.
Context {F : Type} `{FloatOps F}.
Implicit Type st : SeamImage F.

(** C6 (amended). A resize request whose height delta or width delta is
    negative does not fail on that account: [range] of a negative number is
    empty, so no seam is removed in the direction of a negative delta, and
    the other direction is carved as for any request. Whenever the seams
    asked for in the other direction can be removed (its delta is at most
    the size of the image, the image has a row, resp. a column, to carve,
    and the greedy walk stays in range), the entry point returns the working
    image, of shape (H - max(0, dh), W - max(0, dw)) for an original image
    of shape (H, W); the original image is not touched. When neither delta
    is positive no seam is removed at all: the image returned is the
    original one, the index map is the identity map and the seam history is
    empty. *)
Theorem resize_negative_delta shapes st :
  reachable st ->
  height_diff shapes < 0 \/ width_diff shapes < 0 ->
  width_diff shapes <= Z.of_nat (ncols (rgb st)) ->
  height_diff shapes <= Z.of_nat (nrows (rgb st)) ->
  (0 < width_diff shapes ->
   (0 < nrows (rgb st))%nat /\
   (kind st = Greedy ->
    Z.of_nat (nrows (rgb st)) + width_diff shapes <= Z.of_nat (ncols (rgb st)) + 2)) ->
  (0 < height_diff shapes ->
   (0 < ncols (rgb st))%nat /\
   (kind st = Greedy ->
    Z.of_nat (ncols (rgb st)) + height_diff shapes <= Z.of_nat (nrows (rgb st)) + 2)) ->
  exists img st',
    resize_seam_carving shapes st = (Return img, st') /\
    resized_rgb st' = img /\ rgb st' = rgb st /\
    shape img = ((nrows (rgb st) - Z.to_nat (height_diff shapes))%nat,
                 (ncols (rgb st) - Z.to_nat (width_diff shapes))%nat) /\
    h st' = Z.of_nat (nrows (rgb st)) - Z.max 0 (height_diff shapes) /\
    w st' = Z.of_nat (ncols (rgb st)) - Z.max 0 (width_diff shapes) /\
    length (seam_history st')
      = (Z.to_nat (width_diff shapes) + Z.to_nat (height_diff shapes))%nat /\
    (height_diff shapes <= 0 -> width_diff shapes <= 0 ->
     img = rgb st /\ idx_map st' = meshgrid (nrows (rgb st)) (ncols (rgb st)) /\
     seam_history st' = []).
Proof.
  intros Hreach Hneg Hwle Hhle Hwpos Hhpos.
  destruct (reachable_rgb st Hreach) as [Hr Hc].
  pose proof (reachable_inv st Hreach) as Hinv.
  assert (Hwf : wf_arr (rgb st)) by apply Hinv.
  destruct (reinit_ok st Hwf Hr Hc) as (st1 & Hre).
  destruct (reinit_state st st1 Hwf Hre)
    as (Hi1 & Hk1 & _ & _ & Hrr1 & _ & Hh1 & Hw1 & Hs1 & Hx1 & _).
  destruct (carver_inv_dims _ Hi1) as [Hd1 Hd1'].
  assert (Hrem : exists st2, seams_removal (width_diff shapes) st1 = (Return tt, st2)).
  { destruct (decide (width_diff shapes <= 0)) as [Hle | Hgt].
    - destruct (seams_removal_zero _ st1 Hi1 Hle) as (st2 & Hrun & _). by exists st2.
    - destruct Hwpos as [Hrows Hgreedy]; [lia |].
      apply seams_removal_ok; [done | lia | lia |].
      rewrite Hk1. intros Hk. specialize (Hgreedy Hk). lia. }
  destruct Hrem as [st2 Hrem].
  destruct (seams_removal_preserves _ _ _ Hi1 Hrem) as (Hi2 & Hh2 & Hw2 & Hk2 & _).
  destruct (carver_inv_dims _ Hi2) as [Hd2 Hd2'].
  assert (Hhor : exists st3,
            seams_removal_horizontal (height_diff shapes) st2 = (Return tt, st3)).
  { destruct (decide (height_diff shapes <= 0)) as [Hle | Hgt].
    - destruct (seams_removal_horizontal_zero _ st2 Hi2 Hle) as (st3 & Hrun & _).
      by exists st3.
    - destruct Hhpos as [Hcols Hgreedy]; [lia |].
      apply seams_removal_horizontal_ok; [done | lia | lia |].
      rewrite Hk2, Hk1. intros Hk. specialize (Hgreedy Hk). lia. }
  destruct Hhor as [st3 Hhor].
  assert (Hrun : resize_seam_carving shapes st = (Return (resized_rgb st3), st3)).
  { unfold resize_seam_carving, seams_removal_vertical, mbind, eval.
    by rewrite Hre, Hrem, Hhor. }
  exists (resized_rgb st3), st3. split; [done |].
  destruct (resize_preserves _ _ _ _ Hinv Hrun)
    as (Hi3 & _ & Hr3 & _ & _ & Hh3 & Hw3 & Hs3).
  destruct (carver_inv_dims _ Hi3) as [Hd3 Hd3'].
  split_and!; try done; try lia.
  - unfold shape. f_equal; lia.
  - intros Hh Hw.
    destruct (seams_removal_zero _ st1 Hi1 Hw) as (st2' & Hrem' & Hf2).
    rewrite Hrem in Hrem'. injection Hrem' as <-.
    destruct (seams_removal_horizontal_zero _ st2 Hi2 Hh) as (st3' & Hhor' & Hf3).
    rewrite Hhor in Hhor'. injection Hhor' as <-.
    pose proof (frame_eq_trans _ _ _ Hf2 Hf3)
      as (_ & _ & Hrr & _ & _ & _ & _ & Hx3 & Hs3').
    split_and!; congruence.
Qed.

(** C7 (amended). Resizing a 10x10 image from shape (10,10) to shape (8,10)
  asks for a width delta of 0 and a height delta of 2: the call returns an
  image of shape (8,10), so the height lost two rows (two horizontal seams)
  and the width none (no vertical seam), and the seam history holds the two
  seams. *)
Theorem resize_10x10_to_8x10 st :
  reachable st -> shape (rgb st) = (10%nat, 10%nat) ->
  width_diff ((10, 10), (8, 10)) = 0 /\ height_diff ((10, 10), (8, 10)) = 2 /\
  exists img st',
    resize_seam_carving ((10, 10), (8, 10)) st = (Return img, st') /\
    shape img = (8%nat, 10%nat) /\ h st' = 8 /\ w st' = 10 /\
    length (seam_history st') = 2%nat.
Proof.
  intros Hreach [= Hn Hc]. split; [done |]. split; [done |].
  pose proof (reachable_inv st Hreach) as Hinv.
  assert (Hwf : wf_arr (rgb st)) by apply Hinv.
  destruct (reachable_rgb st Hreach) as [Hr1 Hc1].
  assert (Hok : exists img st',
            resize_seam_carving ((10, 10), (8, 10)) st = (Return img, st')).
  { apply resize_seam_carving_ok; try done; rewrite ?Hn, ?Hc;
      unfold width_diff, height_diff; cbn; lia. }
  destruct Hok as (img & st' & Hrun).
  exists img, st'. split; [done |].
  destruct (resize_preserves _ _ _ _ Hinv Hrun)
    as (Hi' & _ & _ & _ & -> & Hh' & Hw' & Hs').
  rewrite Hn, Hc in *. unfold width_diff, height_diff in *. cbn in Hh', Hw', Hs'.
  destruct (carver_inv_dims _ Hi') as [Ha Hb].
  split_and!; try done; try lia.
  unfold shape. f_equal; lia.
Qed.
End ResizeClaims.

(** C6, witness: a black 2x2 image and the shapes ((2, 2), (3, 1)): the
    height delta is -1, the width delta is 1; one vertical seam is removed
    and the result has shape (2, 1). *)
Lemma resize_negative_delta_witness :
  exists st : SeamImage PrimFloat.float,
    SeamImage_init DP (black_image 2 2) true = Return st /\
    height_diff ((2, 2), (3, 1)) = -1 /\ width_diff ((2, 2), (3, 1)) = 1 /\
    exists img st',
      resize_seam_carving ((2, 2), (3, 1)) st = (Return img, st') /\
      resized_rgb st' = img /\ rgb st' = rgb st /\
      shape img = ((nrows (rgb st) - Z.to_nat (height_diff ((2, 2), (3, 1))%Z))%nat,
                   (ncols (rgb st) - Z.to_nat (width_diff ((2, 2), (3, 1))%Z))%nat) /\
      h st' = Z.of_nat (nrows (rgb st)) - Z.max 0 (height_diff ((2, 2), (3, 1))) /\
      w st' = Z.of_nat (ncols (rgb st)) - Z.max 0 (width_diff ((2, 2), (3, 1))) /\
      length (seam_history st')
        = (Z.to_nat (width_diff ((2, 2), (3, 1))%Z)
           + Z.to_nat (height_diff ((2, 2), (3, 1))%Z))%nat /\
      (height_diff ((2, 2), (3, 1)) <= 0 -> width_diff ((2, 2), (3, 1)) <= 0 ->
       img = rgb st /\ idx_map st' = meshgrid (nrows (rgb st)) (ncols (rgb st)) /\
       seam_history st' = []).
Proof.
  let r := eval vm_compute in (SeamImage_init DP (black_image 2 2) true) in
  lazymatch r with
  | Return ?s0 =>
      exists s0; split; [vm_compute; reflexivity |];
      split; [reflexivity |]; split; [reflexivity |];
      apply (resize_negative_delta ((2, 2), (3, 1)) s0);
      [ apply (reach_init DP (black_image 2 2) true s0);
        [ vm_compute; (split; [reflexivity | repeat constructor])
        | vm_compute; reflexivity ]
      | left; reflexivity
      | vm_compute; discriminate
      | vm_compute; discriminate
      | intros _; split; [vm_compute; lia | intros Hk; vm_compute in Hk; discriminate Hk]
      | intros Hpos; vm_compute in Hpos; discriminate Hpos ]
  end.
Defined.

(** C6, counterexample to the claim as stated: the request to grow a 2x2
    image to 3x3 (both deltas are -1) returns normally, with the image
    unchanged. *)
Lemma resize_negative_delta_returns :
  exists st st' : SeamImage PrimFloat.float,
    SeamImage_init DP (black_image 2 2) true = Return st /\
    height_diff ((2, 2), (3, 3)) = -1 /\ width_diff ((2, 2), (3, 3)) = -1 /\
    resize_seam_carving ((2, 2), (3, 3)) st = (Return (black_image 2 2), st') /\
    resized_rgb st' = resized_rgb st.
Proof.
  let r := eval vm_compute in (SeamImage_init DP (black_image 2 2) true) in
  lazymatch r with
  | Return ?s0 =>
      let r' := eval vm_compute in (resize_seam_carving ((2, 2), (3, 3)) s0) in
      lazymatch r' with
      | (Return _, ?s1) =>
          exists s0, s1; split; [vm_compute; reflexivity |];
          split; [reflexivity |]; split; [reflexivity |];
          split; vm_compute; reflexivity
      end
  end.
Qed.

(** C7, witness: the dynamic-programming carver on a black 10x10 image. *)
Lemma resize_10x10_to_8x10_witness :
  exists st img st',
    SeamImage_init DP (black_image 10 10) true = Return st /\
    resize_seam_carving ((10, 10), (8, 10)) st = (Return img, st') /\
    shape img = (8%nat, 10%nat) /\ length (seam_history st') = 2%nat.
Proof.
  let r := eval vm_compute in (SeamImage_init DP (black_image 10 10) true) in
  lazymatch r with
  | Return ?s0 =>
      assert (H0 : SeamImage_init DP (black_image 10 10) true = Return s0)
        by (vm_compute; reflexivity);
      assert (Hr : reachable s0)
        by (apply (reach_init DP (black_image 10 10) true s0);
            [split; [reflexivity | repeat constructor] | exact H0]);
      destruct (resize_10x10_to_8x10 s0 Hr eq_refl)
        as (_ & _ & img & st' & Hrun & Hsh & _ & _ & Hhist);
      exists s0, img, st'; split; [exact H0 |]; split; [exact Hrun |];
      split; [exact Hsh | exact Hhist]
  end.
Defined.

(** C7, counterexample to the claim as stated (2 vertical seams, 0
    horizontal seams): on a black 10x10 image the vertical pass is asked for
    0 seams and the horizontal pass for 2, and the result has shape (8,10);
    two vertical seams and no horizontal one would leave shape (10,8). *)
Lemma resize_10x10_to_8x10_is_horizontal :
  exists st img st',
    SeamImage_init Greedy (black_image 10 10) true = Return st /\
    width_diff ((10, 10), (8, 10)) = 0 /\ height_diff ((10, 10), (8, 10)) = 2 /\
    resize_seam_carving ((10, 10), (8, 10)) st = (Return img, st') /\
    shape img = (8%nat, 10%nat) /\ shape img <> (10%nat, 8%nat) /\
    Forall (fun seam => length seam = 10%nat) (seam_history st').
Proof.
  let r := eval vm_compute in (SeamImage_init Greedy (black_image 10 10) true) in
  lazymatch r with
  | Return ?s0 =>
      let r' := eval vm_compute in (resize_seam_carving ((10, 10), (8, 10)) s0) in
      lazymatch r' with
      | (Return ?im, ?s1) =>
          exists s0, im, s1; split; [vm_compute; reflexivity |];
          split; [reflexivity |]; split; [reflexivity |];
          split; [vm_compute; reflexivity |];
          split; [reflexivity |]; split; [discriminate |];
          repeat constructor
      end
  end.
Qed.

(** ** The code run on concrete images *)

(** C2 (code at the failing input). On a black 2x2 image (width 2) the
    greedy finder returns the seam [0; -1]: from column 0 the list
    [candidates] has no left entry, [np.argmin] returns 0 for the centre, and
    [min_idx + direction - 1] is -1. The entry -1 is outside [0, 2). *)
Lemma greedy_seam_leaves_the_image :
  exists st st' : SeamImage PrimFloat.float,
    SeamImage_init Greedy (black_image 2 2) true = Return st /\
    seams_removal 1 st = (Return tt, st') /\
    seam_history st' = [[0; -1]].
Proof.
  let r := eval vm_compute in (SeamImage_init Greedy (black_image 2 2) true) in
  lazymatch r with
  | Return ?s0 =>
      let r' := eval vm_compute in (seams_removal 1 s0) in
      lazymatch r' with
      | (Return tt, ?s1) =>
          exists s0, s1; split; [vm_compute; reflexivity |];
          split; [vm_compute; reflexivity | reflexivity]
      end
  end.
Qed.

(** C3 (code at the failing input). Same image, row 0, current column 0:
    the candidates are the centre (cost 0.5) and the right neighbour (cost
    sqrt 0.5), the centre is the cheaper one, and the next column is -1, not
    the centre's column 0. *)
Lemma greedy_next_at_left_edge :
  exists st : SeamImage PrimFloat.float,
    SeamImage_init Greedy (black_image 2 2) true = Return st /\
    candidates (calc_C st) 2 0 0 = Return [0.5%float; 0.70710678118654757%float] /\
    argmin fltb [0.5%float; 0.70710678118654757%float] = Return 0%nat /\
    greedy_next (calc_C st) 2 0 0 = Return (-1).
Proof.
  let r := eval vm_compute in (SeamImage_init Greedy (black_image 2 2) true) in
  lazymatch r with
  | Return ?s0 =>
      exists s0; split; [vm_compute; reflexivity |];
      split; [vm_compute; reflexivity |];
      split; vm_compute; reflexivity
  end.
Qed.

(** C5, witness: on a black 2x2 image the seam [0], too short for the
    second row, is rejected and leaves the object as it was; the seam
    [-1; 0; 5], with a negative entry and one entry too many, is
    accepted. *)
Lemma remove_seam_accepts_or_rejects_witness :
  exists st : SeamImage PrimFloat.float,
    SeamImage_init DP (black_image 2 2) true = Return st /\
    remove_seam [0] st = (Raise IndexError, st) /\
    exists st',
      remove_seam [-1; 0; 5] st = (Return tt, st') /\
      resized_rgb st' = cut_columns [1%nat; 0%nat] (resized_rgb st) /\
      resized_gs st' = cut_columns [1%nat; 0%nat] (resized_gs st) /\
      w st' = w st - 1.
Proof.
  let r := eval vm_compute in (SeamImage_init DP (black_image 2 2) true) in
  lazymatch r with
  | Return ?s0 =>
      exists s0; split; [vm_compute; reflexivity |]; split;
      [ apply (proj1 (remove_seam_accepts_or_rejects s0 [0]));
        exists 1%nat; split;
        [ vm_compute; lia | intros c Hc; vm_compute in Hc; discriminate Hc ]
      | apply (proj2 (remove_seam_accepts_or_rejects s0 [-1; 0; 5]));
        [ apply (reach_init DP (black_image 2 2) true);
          [ vm_compute; (split; [reflexivity | repeat constructor]) | vm_compute; reflexivity ]
        | vm_compute; lia
        | intros [| [| i]] Hi;
          [ exists (-1); split; [reflexivity | vm_compute; split; congruence]
          | exists 0; split; [reflexivity | vm_compute; split; congruence]
          | vm_compute in Hi; lia ] ] ]
  end.
Defined.

(** C5, counterexample to the claim as stated: on a 2x2 image the seam
    [-1; -1] (columns outside [0, 2)) and the seam [0; 0; 0] (longer than the
    height) are both accepted, not rejected; the first removes the last column of each row,
    and both decrement the stored width. *)
Lemma remove_seam_accepts_malformed :
  exists st st1 st2 : SeamImage PrimFloat.float,
    SeamImage_init DP (black_image 2 2) true = Return st /\
    remove_seam [-1; -1] st = (Return tt, st1) /\
    w st1 = w st - 1 /\ idx_map st1 = mkArr 2 1 [[(0, 0)]; [(0, 1)]] /\
    remove_seam [0; 0; 0] st = (Return tt, st2) /\
    w st2 = w st - 1 /\ shape (resized_rgb st2) = (2%nat, 1%nat).
Proof.
  let r := eval vm_compute in (SeamImage_init DP (black_image 2 2) true) in
  lazymatch r with
  | Return ?s0 =>
      let r1 := eval vm_compute in (remove_seam [-1; -1] s0) in
      let r2 := eval vm_compute in (remove_seam [0; 0; 0] s0) in
      lazymatch r1 with
      | (Return tt, ?s1) =>
          lazymatch r2 with
          | (Return tt, ?s2) =>
              exists s0, s1, s2; split; [vm_compute; reflexivity |];
              split; [vm_compute; reflexivity |];
              split; [reflexivity |]; split; [reflexivity |];
              split; [vm_compute; reflexivity |];
              split; reflexivity
          end
      end
  end.
Qed.

(** C10, witness: the dynamic-programming carver on a black 2x2 image. *)
Lemma rotate_mats_roundtrip_witness :
  exists st : SeamImage PrimFloat.float,
    SeamImage_init DP (black_image 2 2) true = Return st /\
    mbind (rotate_mats true) (fun _ => rotate_mats false) st = (Return tt, st).
Proof.
  let r := eval vm_compute in (SeamImage_init DP (black_image 2 2) true) in
  lazymatch r with
  | Return ?s0 =>
      exists s0; split; [vm_compute; reflexivity |];
      apply (rotate_mats_roundtrip s0); vm_compute; (split; [reflexivity | repeat constructor])
  end.
Defined.

(** C1 (code at the failing input). [calc_M] fills row [i] of M from row
    [i - 1] of M and row [i - 1] of the cost grids ([self.C_L[i - 1]],
    [self.C_V[i - 1]], [self.C_R[i - 1]]), not row [i]. On the 3x2 image
    [red_dot], at row 1, column 0: E[1][0] = 0.42284985514955542,
    M[0][0] = 0.299, M[0][1] = 0.5; the costs of row 0 are C_V[0][0] = 0.299
    and C_R[0][0] = 0.598, those of row 1 are C_V[1][0] = 0 and
    C_R[1][0] = 0. The code stores E[1][0] + (M[0][0] + C_V[0][0]), which is
    1.0208498551495553; the recurrence with the costs of row 1 gives
    E[1][0] + (M[0][0] + C_V[1][0]), which is 0.72184985514955535. *)
Lemma calc_M_reads_costs_of_previous_row :
  exists st : SeamImage PrimFloat.float,
    SeamImage_init DP red_dot true = Return st /\
    get2 (E st) 1 0 = Return 0.42284985514955542%float /\
    get2 (M st) 0 0 = Return (Fin 0.29899999999999999%float) /\
    get2 (M st) 0 1 = Return (Fin 0.5%float) /\
    get2 (C_V st) 0 0 = Return 0.29899999999999999%float /\
    get2 (C_R st) 0 0 = Return 0.59799999999999998%float /\
    get2 (C_V st) 1 0 = Return 0%float /\
    get2 (C_R st) 1 0 = Return 0%float /\
    get2 (M st) 1 0 = Return (Fin 1.0208498551495553%float) /\
    recurrence_M_cell st 1 0 = Return (Fin 0.72184985514955535%float) /\
    PrimFloat.ltb 0.72184985514955535 1.0208498551495553 = true.
Proof.
  let r := eval vm_compute in (SeamImage_init DP red_dot true) in
  lazymatch r with
  | Return ?s0 =>
      exists s0; split; [vm_compute; reflexivity |];
      repeat (split; [vm_compute; reflexivity |]); vm_compute; reflexivity
  end.
Qed.

(** C8, witness: the top-left cell of the 3x2 image [red_dot]. *)
Lemma calc_C_formulas_witness :
  exists st : SeamImage PrimFloat.float,
    SeamImage_init DP red_dot true = Return st /\
    exists a b c,
      get2 (resized_gs st) ((Z.of_nat 0 + 1) mod Z.of_nat (nrows (resized_gs st))) (Z.of_nat 0)
        = Return a /\
      get2 (resized_gs st) ((Z.of_nat 0 - 1) mod Z.of_nat (nrows (resized_gs st))) (Z.of_nat 0)
        = Return b /\
      get2 (resized_gs st) (Z.of_nat 0) (Z.of_nat 0 - 1) = Return c /\
      get2 (C_V (calc_C st)) (Z.of_nat 0) (Z.of_nat 0) = Return (fabs (fsub a b)) /\
      get2 (C_L (calc_C st)) (Z.of_nat 0) (Z.of_nat 0)
        = Return (fadd (fabs (fsub a b)) (fabs (fsub b c))) /\
      get2 (C_R (calc_C st)) (Z.of_nat 0) (Z.of_nat 0)
        = Return (fadd (fabs (fsub a b)) (fabs (fsub a c))).
Proof.
  let r := eval vm_compute in (SeamImage_init DP red_dot true) in
  lazymatch r with
  | Return ?s0 =>
      exists s0; split; [vm_compute; reflexivity |];
      apply (calc_C_formulas s0 0 0);
      [ vm_compute; (split; [reflexivity | repeat constructor])
      | vm_compute; lia | vm_compute; lia ]
  end.
Defined.
Section DPSeam.
Context {F : Type} `{FloatOps F}.
Implicit Type st : SeamImage F.

(** X1. Dynamic-programming half of the seam property: in every loop
  iteration of [seams_removal] on a reachable state of the
  dynamic-programming carver whose image has at least one row and one
  column, [find_minimal_seam], run as the loop runs it (after
  [self.E = self.calc_gradient_magnitude()]), returns a seam with one
  column per row, every column within [0, w) and neighbouring columns at
  most one apart. *)
Theorem dp_seam_valid st :
  reachable st -> kind st = DP ->
  (0 < nrows (resized_rgb st))%nat -> (0 < ncols (resized_rgb st))%nat ->
  exists seam st',
    find_minimal_seam (with_E (calc_gradient_magnitude st) st) = (Return seam, st') /\
    valid_seam (nrows (resized_rgb st)) (ncols (resized_rgb st)) seam.
Proof.
  intros Hreach Hk Hh Hw.
  pose proof (reachable_inv st Hreach) as Hinv.
  set (sta := with_E (calc_gradient_magnitude st) st).
  assert (Hfa : frame_eq st sta) by by repeat split.
  assert (Hia : carver_inv sta) by by eapply carver_inv_frame.
  destruct (gradient_magnitude_wf (resized_gs st)) as [HwE HsE]; [apply Hinv |].
  destruct (dp_find_minimal_seam_ok sta) as (seam & st' & Hrun & _ & Hv); try done.
  exists seam, st'. split; [| done].
  unfold find_minimal_seam. by replace (kind sta) with (@DP) by (symmetry; exact Hk).
Qed.
End DPSeam.

(** X1, witness: the first iteration on a black 2x2 image. *)
Lemma dp_seam_valid_witness :
  exists st : SeamImage PrimFloat.float,
    SeamImage_init DP (black_image 2 2) true = Return st /\
    exists seam st',
      find_minimal_seam (with_E (calc_gradient_magnitude st) st) = (Return seam, st') /\
      valid_seam (nrows (resized_rgb st)) (ncols (resized_rgb st)) seam.
Proof.
  let r := eval vm_compute in (SeamImage_init DP (black_image 2 2) true) in
  lazymatch r with
  | Return ?s0 =>
      exists s0; split; [vm_compute; reflexivity |];
      apply (dp_seam_valid s0);
      [ apply (reach_init DP (black_image 2 2) true);
        [ vm_compute; (split; [reflexivity | repeat constructor]) | vm_compute; reflexivity ]
      | reflexivity | vm_compute; lia | vm_compute; lia ]
  end.
Defined.
Section RemoveSeamRun.
Context {F : Type} `{FloatOps F}.
Implicit Type st : SeamImage F.

(** X2. [remove_seam] on a seam with one column per row, each within
  [0, w): it returns, the RGB and grayscale buffers lose column [seam[i]]
  of row [i] and nothing else, the stored width drops by one and the
  stored height is unchanged. *)
Theorem remove_seam_well_formed seam st :
  reachable st -> (0 < nrows (resized_rgb st))%nat ->
  length seam = nrows (resized_rgb st) ->
  Forall (fun c => 0 <= c < Z.of_nat (ncols (resized_rgb st))) seam ->
  exists st',
    remove_seam seam st = (Return tt, st') /\
    resized_rgb st' = cut_columns (map Z.to_nat seam) (resized_rgb st) /\
    resized_gs st' = cut_columns (map Z.to_nat seam) (resized_gs st) /\
    h st' = h st /\ w st' = w st - 1.
Proof.
  intros Hreach Hpos Hlen Hall.
  pose proof (reachable_inv st Hreach) as Hinv.
  destruct (remove_seam_ok seam st) as [st' Hrun]; try done.
  { eapply Forall_impl; [exact Hall |]. intros c Hc. simpl in Hc. lia. }
  exists st'. split; [done |].
  destruct (remove_seam_inv seam st st' Hinv Hrun) as (ks & Hks & _ & Hseam & ->).
  assert (Heq : ks = map Z.to_nat seam).
  { apply list_eq. intros j. rewrite list_lookup_fmap.
    destruct (ks !! j) as [k |] eqn:Hk.
    - destruct (Hseam j k Hk) as (c & Hc & Hpy). rewrite Hc. simpl.
      pose proof (Forall_lookup_1 _ _ _ _ Hall Hc) as Hr. simpl in Hr.
      rewrite py_index_nonneg in Hpy by done. by injection Hpy as ->.
    - apply lookup_ge_None in Hk.
      rewrite (proj2 (lookup_ge_None seam j)) by lia. done. }
  rewrite <- Heq. destruct (vis_seams st); proj; done.
Qed.
End RemoveSeamRun.

(** X2, witness: the seam [0; 1] on a black 2x2 image. *)
Lemma remove_seam_well_formed_witness :
  exists st : SeamImage PrimFloat.float,
    SeamImage_init DP (black_image 2 2) true = Return st /\
    exists st',
      remove_seam [0; 1] st = (Return tt, st') /\
      resized_rgb st' = cut_columns (map Z.to_nat [0; 1]) (resized_rgb st) /\
      resized_gs st' = cut_columns (map Z.to_nat [0; 1]) (resized_gs st) /\
      h st' = h st /\ w st' = w st - 1.
Proof.
  let r := eval vm_compute in (SeamImage_init DP (black_image 2 2) true) in
  lazymatch r with
  | Return ?s0 =>
      exists s0; split; [vm_compute; reflexivity |];
      apply (remove_seam_well_formed [0; 1] s0);
      [ apply (reach_init DP (black_image 2 2) true);
        [ vm_compute; (split; [reflexivity | repeat constructor]) | vm_compute; reflexivity ]
      | vm_compute; lia | reflexivity | repeat constructor; vm_compute; congruence ]
  end.
Defined.
(** ** Invariants of every reachable object *)

Section MapFacts.
Context {A B : Type} (f : A -> B).

Lemma map_delete (k : nat) (r : list A) : map f (delete k r) = delete k (map f r).
Proof.
  revert k. induction r as [| x r IH]; intros [| k]; simpl; try done.
  by rewrite IH.
Qed.

Lemma arr_map_cut_columns ks (a : ndarray A) :
  arr_map f (cut_columns ks a) = cut_columns ks (arr_map f a).
Proof.
  unfold arr_map, cut_columns. simpl. f_equal.
  generalize (rows a) as m. induction ks as [| k ks IH]; intros [| r m]; simpl; try done.
  by rewrite IH, map_delete.
Qed.

Lemma transpose_map ww (m : list (list A)) :
  transpose ww (map (map f) m) = map (map f) (transpose ww m).
Proof.
  induction m as [| r m IH]; simpl.
  - induction ww as [| ww IHw]; simpl; [done | by rewrite IHw].
  - rewrite IH. generalize (transpose ww m) as T.
    induction r as [| x r IHr]; intros [| c T]; simpl; try done.
    by rewrite IHr.
Qed.

Lemma arr_map_rot90 b (a : ndarray A) : arr_map f (rot90 b a) = rot90 b (arr_map f a).
Proof.
  destruct b; unfold arr_map, rot90, rot90_cw, rot90_ccw; simpl; f_equal.
  - by rewrite <- transpose_map, fmap_reverse.
  - rewrite <- transpose_map. f_equal. rewrite <- !list_fmap_compose.
    apply list_fmap_ext. intros _ r _. simpl. by rewrite fmap_reverse.
Qed.
End MapFacts.
Section ReachInduction.
Context {F : Type} `{FloatOps F}.
Implicit Type st : SeamImage F.

(** A property that the constructor establishes, that [remove_seam] and
    [rotate_mats] keep, and that does not depend on the attributes seam
    finding, painting and the seam history write, holds of every
    reachable object. *)
Lemma reachable_invariant (P : SeamImage F -> Prop) :
  (forall st st', frame_eq st st' -> P st -> P st') ->
  (forall st v, P st -> P (with_seam_history v st)) ->
  (forall k img vis st, wf_arr img -> SeamImage_init k img vis = Return st -> P st) ->
  (forall seam st st', carver_inv st -> P st ->
                       remove_seam seam st = (Return tt, st') -> P st') ->
  (forall b st st', carver_inv st -> P st ->
                    rotate_mats b st = (Return tt, st') -> P st') ->
  forall st, reachable st -> P st.
Proof.
  intros Hframe Hhist Hinit Hrem Hrot.
  assert (Hloop : forall n st st', carver_inv st -> P st ->
            removal_loop n st = (Return tt, st') -> P st').
  { induction n as [| n IH]; intros st st' Hinv HP; simpl.
    - by intros [= <-].
    - intros Hrun.
      apply mbind_inv in Hrun as ([] & st1 & [= <-] & Hrun).
      apply mbind_inv in Hrun as (seam & st2 & Hfind & Hrun).
      apply mbind_inv in Hrun as ([] & st3 & [= <-] & Hrun).
      apply mbind_inv in Hrun as ([] & st4 & Hr & Hrun).
      apply framed_run in Hfind; [| apply find_minimal_seam_framed].
      set (sta := with_E _ st) in *.
      assert (Ha : frame_eq st sta) by by repeat split.
      assert (Hi2 : carver_inv st2).
      { eapply carver_inv_frame; [exact Hfind |]. by eapply carver_inv_frame. }
      assert (HP2 : P st2) by (eapply Hframe; [exact Hfind |]; by eapply Hframe).
      set (stb := with_seam_history _ st2) in *.
      assert (Hib : carver_inv stb) by exact Hi2.
      assert (HPb : P stb) by apply Hhist, HP2.
      apply (IH st4 st'); [| | done].
      + by apply remove_seam_preserves in Hr as [? _].
      + by eapply Hrem. }
  assert (Hsr : forall n st st', carver_inv st -> P st ->
            seams_removal n st = (Return tt, st') -> P st').
  { intros n st st' Hinv HP Hrun. unfold seams_removal in Hrun.
    apply mbind_inv in Hrun as ([] & st1 & Hl & Hrun).
    apply mbind_inv in Hrun as (vis & st2 & [= <- <-] & Hrun).
    assert (HP1 : P st1) by by eapply Hloop.
    destruct (vis_seams st1).
    - eapply Hframe; [| exact HP1].
      eapply framed_run; [apply paint_seams_framed | exact Hrun].
    - by injection Hrun as <-. }
  assert (Hsh : forall n st st', carver_inv st -> P st ->
            seams_removal_horizontal n st = (Return tt, st') -> P st').
  { intros n st st' Hinv HP Hrun. unfold seams_removal_horizontal in Hrun.
    apply mbind_inv in Hrun as ([] & st1 & Hrot1 & Hrun).
    apply mbind_inv in Hrun as ([] & st2 & Hr & Hrot2).
    destruct (rotate_mats_preserves _ _ _ Hinv Hrot1) as (Hi1 & _).
    destruct (seams_removal_preserves _ _ _ Hi1 Hr) as (Hi2 & _).
    eapply Hrot; [exact Hi2 | | exact Hrot2].
    eapply Hsr; [exact Hi1 | | exact Hr].
    eapply Hrot; [exact Hinv | exact HP | exact Hrot1]. }
  induction 1 as [k img vis st Hwf Hi | seam st st' Hre IH Hrun | b st st' Hre IH Hrun
                 | n st st' Hre IH Hrun | n st st' Hre IH Hrun | n st st' Hre IH Hrun
                 | shapes st img st' Hre IH Hrun].
  - by eapply Hinit.
  - eapply Hrem; [by apply reachable_inv | exact IH | exact Hrun].
  - eapply Hrot; [by apply reachable_inv | exact IH | exact Hrun].
  - eapply Hsr; [by apply reachable_inv | exact IH | exact Hrun].
  - eapply Hsr; [by apply reachable_inv | exact IH | exact Hrun].
  - eapply Hsh; [by apply reachable_inv | exact IH | exact Hrun].
  - pose proof (reachable_inv _ Hre) as Hinv.
    unfold resize_seam_carving, seams_removal_vertical in Hrun.
    apply mbind_inv in Hrun as ([] & st1 & Hr1 & Hrun).
    apply mbind_inv in Hrun as ([] & st2 & Hv & Hrun).
    apply mbind_inv in Hrun as ([] & st3 & Hh & [= <- <-]).
    assert (Hwf : wf_arr (rgb st)) by apply Hinv.
    destruct (reinit_inv st st1 Hwf Hr1) as (s0 & Hs0 & Hfr0).
    assert (HP1 : P st1) by (eapply Hframe; [exact Hfr0 |]; by eapply Hinit).
    destruct (reinit_state st st1 Hwf Hr1) as (Hi1 & _).
    destruct (seams_removal_preserves _ _ _ Hi1 Hv) as (Hi2 & _).
    eapply Hsh; [exact Hi2 | | exact Hh].
    eapply Hsr; [exact Hi1 | exact HP1 | exact Hv].
Qed.
End ReachInduction.
Section TrackingInvariants.
Context {F : Type} `{FloatOps F}.
Implicit Type st : SeamImage F.

Lemma remove_seam_buffers seam st st' :
  carver_inv st -> remove_seam seam st = (Return tt, st') ->
  exists ks,
    resized_rgb st' = cut_columns ks (resized_rgb st) /\
    resized_gs st' = cut_columns ks (resized_gs st) /\
    idx_map st' = (if vis_seams st then cut_columns ks (idx_map st) else idx_map st) /\
    rgb st' = rgb st /\ vis_seams st' = vis_seams st.
Proof.
  intros Hinv Hrun.
  destruct (remove_seam_inv seam st st' Hinv Hrun) as (ks & _ & _ & _ & ->).
  exists ks. by destruct (vis_seams st) eqn:Hvis; proj; rewrite ?Hvis.
Qed.

Lemma rotate_mats_buffers b st st' :
  rotate_mats b st = (Return tt, st') ->
  resized_rgb st' = rot90 b (resized_rgb st) /\
  resized_gs st' = rot90 b (resized_gs st) /\
  idx_map st' = (if vis_seams st then rot90 b (idx_map st) else idx_map st) /\
  rgb st' = rgb st /\ vis_seams st' = vis_seams st.
Proof.
  rewrite rotate_mats_run. intros [= <-].
  by destruct (vis_seams st) eqn:Hvis; proj; rewrite ?Hvis.
Qed.

Lemma meshgrid_lookup (img : ndarray (pixel F)) :
  wf_arr img ->
  arr_map (fun p : Z * Z => get2 img p.2 p.1) (meshgrid (nrows img) (ncols img))
  = arr_map Return img.
Proof.
  intros Hwf. unfold arr_map, meshgrid. simpl. f_equal.
  apply list_eq. intros i. rewrite !list_lookup_fmap.
  destruct (decide (i < nrows img)%nat) as [Hi | Hi].
  - rewrite lookup_seq_lt by done. simpl.
    destruct (get_row_ok img i Hwf Hi) as (r & _ & Hr & Hlr). rewrite Hr. simpl.
    f_equal. apply list_eq. intros j. rewrite !list_lookup_fmap.
    destruct (decide (j < ncols img)%nat) as [Hj | Hj].
    + rewrite lookup_seq_lt by done. simpl.
      destruct (lookup_lt_is_Some_2 r j) as [x Hx]; [lia |]. rewrite Hx. simpl.
      f_equal. by apply (get2_lookup img i j r x).
    + rewrite lookup_seq_ge by lia. by rewrite (proj2 (lookup_ge_None r j)) by lia.
  - rewrite lookup_seq_ge by lia. destruct Hwf as [Hl _].
    by rewrite (proj2 (lookup_ge_None (rows img) i)) by lia.
Qed.

Lemma idx_map_arr_map st :
  reachable st -> vis_seams st = true ->
  arr_map (fun p : Z * Z => get2 (rgb st) p.2 p.1) (idx_map st)
  = arr_map Return (resized_rgb st).
Proof.
  apply (reachable_invariant (fun st => vis_seams st = true ->
    arr_map (fun p : Z * Z => get2 (rgb st) p.2 p.1) (idx_map st)
    = arr_map Return (resized_rgb st))).
  - intros s s' (_ & -> & -> & -> & _ & _ & _ & -> & _). done.
  - intros s v. by proj.
  - intros k img vis s Hwf Hi.
    apply SeamImage_init_inv in Hi as (_ & _ & -> & _ & -> & _ & _ & _ & _ & -> & _);
      [| done].
    intros _. by apply meshgrid_lookup.
  - intros seam s s' Hinv HP Hrun.
    destruct (remove_seam_buffers _ _ _ Hinv Hrun) as (ks & -> & _ & -> & -> & ->).
    intros Hvis. rewrite Hvis. by rewrite !arr_map_cut_columns, HP.
  - intros b s s' Hinv HP Hrun.
    destruct (rotate_mats_buffers _ _ _ Hrun) as (-> & _ & -> & -> & ->).
    intros Hvis. rewrite Hvis. by rewrite !arr_map_rot90, HP.
Qed.

(** X4. With [vis_seams] true the index map tells where each pixel came
  from: in every reachable object, if cell (i, j) of [idx_map] holds
  (x, y), then cell (i, j) of [resized_rgb] is the pixel at row y, column
  x of the original image [rgb]. *)
Theorem idx_map_tracks_pixels st (i j : nat) r x y :
  reachable st -> vis_seams st = true ->
  rows (idx_map st) !! i = Some r -> r !! j = Some (x, y) ->
  exists p, get2 (resized_rgb st) (Z.of_nat i) (Z.of_nat j) = Return p /\
            get2 (rgb st) y x = Return p.
Proof.
  intros Hreach Hvis Hr Hxy.
  pose proof (idx_map_arr_map st Hreach Hvis) as Heq.
  pose proof (reachable_inv st Hreach) as ((_ & Hwr & _) & _ & Hidx).
  destruct (Hidx Hvis) as (Hwi & Hsh & _). injection Hsh as Hs1 Hs2.
  assert (Hi : (i < nrows (resized_rgb st))%nat).
  { rewrite <- Hs1. destruct Hwi as [<- _]. by eapply lookup_lt_Some. }
  assert (Hj : (j < ncols (resized_rgb st))%nat).
  { rewrite <- Hs2. destruct Hwi as [_ Hf].
    rewrite <- (Forall_lookup_1 _ _ _ _ Hf Hr). by eapply lookup_lt_Some. }
  destruct (wf_lookup (resized_rgb st) i j Hwr Hi Hj) as (rr & p & Hrr & Hp & _).
  exists p. split; [by apply (get2_lookup _ i j rr) |].
  apply (f_equal rows) in Heq. cbn [arr_map rows] in Heq.
  apply (f_equal (fun m => m !! i)) in Heq. rewrite !list_lookup_fmap, Hr, Hrr in Heq.
  simpl in Heq. injection Heq as Heq.
  apply (f_equal (fun l => l !! j)) in Heq. rewrite !list_lookup_fmap, Hxy, Hp in Heq.
  simpl in Heq. by injection Heq.
Qed.
End TrackingInvariants.
(** ** Attributes a method keeps *)

Section Keeps.
Context {F : Type} `{FloatOps F} {X : Type} (g : SeamImage F -> X).

Lemma keeps_bind {A B} (m : meth F A) (k : A -> meth F B) :
  (forall st, g (m st).2 = g st) -> (forall a st, g (k a st).2 = g st) ->
  forall st, g (mbind m k st).2 = g st.
Proof.
  intros Hm Hk st. unfold mbind. specialize (Hm st).
  destruct (m st) as [[a | e] st1]; simpl in *; [| done].
  by rewrite Hk.
Qed.

Lemma keeps_eval {A} (f : SeamImage F -> outcome A) st : g (eval f st).2 = g st.
Proof. done. Qed.

Lemma keeps_mret {A} (a : A) st : g ((mret a : meth F A) st).2 = g st.
Proof. done. Qed.
End Keeps.

Ltac keeps_step :=
  lazymatch goal with
  | |- forall st, _ (mbind _ _ st).2 = _ st => apply keeps_bind; [| intros ?]
  | |- forall st, _ (eval _ st).2 = _ st => intros ?; reflexivity
  | |- forall st, _ (mret _ st).2 = _ st => intros ?; reflexivity
  | |- forall st, _ (assign _ st).2 = _ st => intros ?; reflexivity
  end.

Section KeepsE.
Context {F : Type} `{FloatOps F}.
Implicit Type st : SeamImage F.

Lemma calc_M_loop_keeps {X} (g : SeamImage F -> X) ww n i Mg :
  (forall v st, g (with_backtrack_mat v st) = g st) ->
  forall st, g (calc_M_loop ww n i Mg st).2 = g st.
Proof.
  intros Hg. revert i Mg. induction n as [| n IH]; intros i Mg; simpl.
  - intros st. reflexivity.
  - repeat keeps_step. 2: apply IH. intros st. apply Hg.
Qed.

Lemma init_mats_keeps {X} (g : SeamImage F -> X) :
  (forall v st, g (with_backtrack_mat v st) = g st) ->
  (forall v st, g (with_M v st) = g st) ->
  (forall a b c st, g (with_C a b c st) = g st) ->
  forall st, g (init_mats st).2 = g st.
Proof.
  intros Hb HM HC. unfold init_mats. repeat keeps_step.
  - intros st. apply Hb.
  - intros st. apply HC.
  - unfold calc_M. repeat keeps_step.
    + intros st. apply Hb.
    + by apply calc_M_loop_keeps.
  - intros st. apply HM.
Qed.

Lemma init_mats_E st : E (init_mats st).2 = E st.
Proof. by apply init_mats_keeps. Qed.
End KeepsE.
(** ** What the public methods do when they return *)

Section MethodEffects.
Context {F : Type} `{FloatOps F}.
Implicit Type st : SeamImage F.

(** X5. The constructor fails with ValueError exactly on images with a
  single row or a single column ([squeeze] drops that axis and [np.pad]
  refuses the two-axis pad width); on every other rectangular image, empty
  ones included, both classes construct an object that stores the image
  and its shape, with an energy grid [E] of that shape. *)
Theorem SeamImage_init_single_row_or_column k (img : ndarray (pixel F)) vis :
  wf_arr img ->
  if decide (nrows img = 1%nat \/ ncols img = 1%nat)
  then SeamImage_init k img vis = Raise ValueError
  else exists st, SeamImage_init k img vis = Return st /\
                  rgb st = img /\ resized_rgb st = img /\
                  h st = Z.of_nat (nrows img) /\ w st = Z.of_nat (ncols img) /\
                  shape (E st) = shape img /\ seam_history st = [].
Proof.
  intros Hwf. destruct (decide _) as [Hone | Hmany].
  - unfold SeamImage_init, rgb_to_grayscale. by rewrite decide_True.
  - destruct (SeamImage_init_ok k img vis Hwf) as [st Hst]; [tauto | tauto |].
    exists st. split; [done |].
    pose proof Hst as Hst'.
    apply SeamImage_init_inv in Hst as (_ & _ & -> & _ & -> & Hgs & -> & -> & -> & _);
      [| done].
    split_and!; try done.
    unfold SeamImage_init, rgb_to_grayscale in Hst'.
    rewrite decide_False in Hst' by done.
    destruct (gradient_magnitude_wf (arr_map gray img)) as [_ HsE];
      [by apply arr_map_wf |].
    destruct k.
    + injection Hst' as <-. by proj.
    + match type of Hst' with
      | match init_mats ?s0 with _ => _ end = _ =>
          pose proof (init_mats_E s0) as HE;
          destruct (init_mats s0) as [[[] | e] s1]; [| done]
      end.
      injection Hst' as <-. simpl in HE. by rewrite HE.
Qed.

(** X6. [seams_removal(n)] with 0 <= n <= current width on an image with
  at least one row (and, for the greedy class, few enough rows that its
  walk stays within Python's index range): the call returns, the working
  image keeps its height and loses n columns, the stored width follows,
  n seams are appended to the history and the original image is not
  touched. *)
Theorem seams_removal_effect n st :
  reachable st -> 0 <= n <= w st -> 0 < h st ->
  (kind st = Greedy -> h st + n <= w st + 2) ->
  exists st',
    seams_removal n st = (Return tt, st') /\
    shape (resized_rgb st')
      = (nrows (resized_rgb st), (ncols (resized_rgb st) - Z.to_nat n)%nat) /\
    shape (resized_gs st') = shape (resized_rgb st') /\
    h st' = h st /\ w st' = w st - n /\ rgb st' = rgb st /\
    length (seam_history st') = (length (seam_history st) + Z.to_nat n)%nat.
Proof.
  intros Hreach Hn Hh Hg.
  pose proof (reachable_inv st Hreach) as Hinv.
  destruct (carver_inv_dims _ Hinv) as [Hh0 Hw0].
  destruct (seams_removal_ok n st) as [st' Hrun]; try done; try lia.
  { intros Hk. specialize (Hg Hk). lia. }
  exists st'. split; [done |].
  destruct (seams_removal_preserves _ _ _ Hinv Hrun) as (Hi' & Hh' & Hw' & _ & Hr' & _ & Hs').
  destruct (carver_inv_dims _ Hi') as [Hh1 Hw1].
  destruct Hi' as ((_ & _ & _ & Hsh & _) & _).
  split_and!; try done; try lia.
  unfold shape. f_equal; lia.
Qed.

(** X7. [seams_removal_horizontal(n)] with 0 <= n <= current height on an
  image with at least one column: the call returns, the working image
  keeps its width and loses n rows, and n seams are appended to the
  history. *)
Theorem seams_removal_horizontal_effect n st :
  reachable st -> 0 <= n <= h st -> 0 < w st ->
  (kind st = Greedy -> w st + n <= h st + 2) ->
  exists st',
    seams_removal_horizontal n st = (Return tt, st') /\
    shape (resized_rgb st')
      = ((nrows (resized_rgb st) - Z.to_nat n)%nat, ncols (resized_rgb st)) /\
    shape (resized_gs st') = shape (resized_rgb st') /\
    h st' = h st - n /\ w st' = w st /\ rgb st' = rgb st /\
    length (seam_history st') = (length (seam_history st) + Z.to_nat n)%nat.
Proof.
  intros Hreach Hn Hw Hg.
  pose proof (reachable_inv st Hreach) as Hinv.
  destruct (carver_inv_dims _ Hinv) as [Hh0 Hw0].
  destruct (seams_removal_horizontal_ok n st) as [st' Hrun]; try done; try lia.
  { intros Hk. specialize (Hg Hk). lia. }
  exists st'. split; [done |].
  destruct (seams_removal_horizontal_preserves _ _ _ Hinv Hrun)
    as (Hi' & Hh' & Hw' & _ & Hr' & _ & Hs').
  destruct (carver_inv_dims _ Hi') as [Hh1 Hw1].
  destruct Hi' as ((_ & _ & _ & Hsh & _) & _).
  split_and!; try done; try lia.
  unfold shape. f_equal; lia.
Qed.

(** X8. [resize_seam_carving] never looks at the shape of the image it
  holds: it removes shapes[0][1] - shapes[1][1] vertical seams and then
  shapes[0][0] - shapes[1][0] horizontal seams from the re-initialised
  H x W image. With the dynamic-programming class, H > 0 and deltas dw
  in [0, W] and dh in [0, H] the call returns an image of shape
  (H - dh, W - dw), whatever shapes[0] says (when dw = W, only for
  dh = 0: no seam can be found in an image without columns). *)
Theorem resize_seam_carving_shape shapes st :
  reachable st -> kind st = DP -> (0 < nrows (rgb st))%nat ->
  0 <= width_diff shapes <= Z.of_nat (ncols (rgb st)) ->
  0 <= height_diff shapes <= Z.of_nat (nrows (rgb st)) ->
  (0 < height_diff shapes -> width_diff shapes < Z.of_nat (ncols (rgb st))) ->
  exists img st',
    resize_seam_carving shapes st = (Return img, st') /\
    shape img = ((nrows (rgb st) - Z.to_nat (height_diff shapes))%nat,
                 (ncols (rgb st) - Z.to_nat (width_diff shapes))%nat) /\
    resized_rgb st' = img /\ rgb st' = rgb st /\ vis_seams st' = true.
Proof.
  intros Hreach Hk Hrows Hwd Hhd Hboth.
  pose proof (reachable_inv st Hreach) as Hinv.
  destruct (reachable_rgb st Hreach) as [Hr1 Hc1].
  assert (Hwf : wf_arr (rgb st)) by apply Hinv.
  assert (Hok : exists img st', resize_seam_carving shapes st = (Return img, st')).
  { apply resize_seam_carving_ok; try done; try lia. by rewrite Hk. }
  destruct Hok as (img & st' & Hrun).
  exists img, st'. split; [done |].
  destruct (resize_preserves _ _ _ _ Hinv Hrun)
    as (Hi' & Hv' & Hr' & _ & -> & Hh' & Hw' & _).
  destruct (carver_inv_dims _ Hi') as [Ha Hb].
  split_and!; try done.
  unfold shape. f_equal; lia.
Qed.
End MethodEffects.
(** ** Rotations *)

Section RotationFacts.
Context {A : Type}.
Implicit Types (m : list (list A)) (a : ndarray A).

Lemma transpose_map_reverse hh ww m :
  wf_rows hh ww m -> transpose ww (map reverse m) = reverse (transpose ww m).
Proof.
  intros Hwf. pose proof (transpose_wf _ _ _ Hwf) as HwT.
  assert (HwR : wf_rows ww hh (reverse (transpose ww m))).
  { destruct HwT as [Hl Hf]. split; [by rewrite length_reverse | by apply Forall_reverse]. }
  rewrite <- (transpose_involutive ww hh (reverse (transpose ww m)) HwR).
  f_equal. rewrite transpose_reverse by apply HwT.
  by rewrite (transpose_involutive hh ww m Hwf).
Qed.

Lemma rot90_cw_ccw a : wf_arr a -> rot90_cw (rot90_ccw a) = a.
Proof.
  destruct a as [hh ww m]. unfold wf_arr, rot90_ccw, rot90_cw. simpl. intros Hwf.
  f_equal. rewrite (transpose_map_reverse hh ww m Hwf), reverse_involutive.
  by apply transpose_involutive.
Qed.

Lemma wf_rows_reverse hh ww m : wf_rows hh ww m -> wf_rows hh ww (reverse m).
Proof. intros [Hl Hf]. split; [by rewrite length_reverse | by apply Forall_reverse]. Qed.

Lemma rot90_cw_cw a :
  wf_arr a ->
  rot90_cw (rot90_cw a) = mkArr (nrows a) (ncols a) (map reverse (reverse (rows a))).
Proof.
  destruct a as [hh ww m]. unfold wf_arr, rot90_cw. simpl. intros Hwf.
  f_equal. pose proof (wf_rows_reverse _ _ _ Hwf) as Hwr.
  pose proof (transpose_wf _ _ _ Hwr) as HwT.
  rewrite (transpose_reverse hh) by apply HwT.
  by rewrite (transpose_involutive hh ww) by done.
Qed.

Lemma rot90_cw_four a : wf_arr a -> rot90_cw (rot90_cw (rot90_cw (rot90_cw a))) = a.
Proof.
  intros Hwf. rewrite (rot90_cw_cw (rot90_cw (rot90_cw a))).
  - rewrite (rot90_cw_cw a Hwf). destruct a as [hh ww m]. simpl. f_equal.
    rewrite <- fmap_reverse, reverse_involutive. apply map_reverse_involutive.
  - rewrite (rot90_cw_cw a Hwf). destruct Hwf as [Hl Hf]. split; simpl.
    + by rewrite length_map, length_reverse.
    + apply Forall_fmap, Forall_reverse. eapply Forall_impl; [exact Hf |].
      intros r Hr. simpl. by rewrite length_reverse.
Qed.

Lemma transpose_lookup ww m (i j : nat) r x :
  Forall (fun r => length r = ww) m ->
  m !! j = Some r -> r !! i = Some x ->
  exists c, transpose ww m !! i = Some c /\ c !! j = Some x.
Proof.
  intros Hf. revert j r. induction Hf as [| r' m Hr' Hm IH]; intros j r Hj Hi; [done |].
  simpl. destruct j as [| j]; simpl in Hj.
  - injection Hj as ->.
    assert (Hl : length (transpose ww m) = ww) by by apply transpose_length.
    destruct (lookup_lt_is_Some_2 (transpose ww m) i) as [c Hc].
    { rewrite Hl, <- Hr'. by eapply lookup_lt_Some. }
    exists (x :: c). split; [| done].
    rewrite lookup_zip_with, Hi. simpl. by rewrite Hc.
  - destruct (IH j r Hj Hi) as (c & Hc & Hx).
    destruct (lookup_lt_is_Some_2 r' i) as [y Hy].
    { rewrite Hr'. rewrite <- (Forall_lookup_1 _ _ _ _ Hm Hj). by eapply lookup_lt_Some. }
    exists (y :: c). split; [| done].
    rewrite lookup_zip_with, Hy. simpl. by rewrite Hc.
Qed.

(** Clockwise: cell (i, j) of the result is cell (h - 1 - j, i). *)
Lemma rot90_cw_get2 a (i j : nat) :
  wf_arr a -> (i < ncols a)%nat -> (j < nrows a)%nat ->
  get2 (rot90_cw a) (Z.of_nat i) (Z.of_nat j)
  = get2 a (Z.of_nat (nrows a - 1 - j)) (Z.of_nat i).
Proof.
  intros Hwf Hi Hj.
  destruct (wf_lookup a (nrows a - 1 - j) i Hwf) as (r & x & Hr & Hx & _); [lia | lia |].
  rewrite (get2_lookup a _ _ r x) by (done || lia).
  destruct Hwf as [Hl Hf].
  destruct (transpose_lookup (ncols a) (reverse (rows a)) i j r x) as (c & Hc & Hcx).
  - by apply Forall_reverse.
  - rewrite reverse_lookup by lia. rewrite <- Hr. f_equal. lia.
  - done.
  - by apply (get2_lookup (rot90_cw a) i j c x).
Qed.

(** Counter-clockwise: cell (i, j) of the result is cell (j, w - 1 - i). *)
Lemma rot90_ccw_get2 a (i j : nat) :
  wf_arr a -> (i < ncols a)%nat -> (j < nrows a)%nat ->
  get2 (rot90_ccw a) (Z.of_nat i) (Z.of_nat j)
  = get2 a (Z.of_nat j) (Z.of_nat (ncols a - 1 - i)).
Proof.
  intros Hwf Hi Hj.
  destruct (wf_lookup a j (ncols a - 1 - i) Hwf) as (r & x & Hr & Hx & Hlr); [lia | lia |].
  rewrite (get2_lookup a _ _ r x) by (done || lia).
  destruct Hwf as [Hl Hf].
  destruct (transpose_lookup (ncols a) (map reverse (rows a)) i j (reverse r) x)
    as (c & Hc & Hcx).
  - apply Forall_fmap. eapply Forall_impl; [exact Hf |]. intros r' Hr'. simpl.
    by rewrite length_reverse.
  - by rewrite list_lookup_fmap, Hr.
  - rewrite reverse_lookup by lia. rewrite <- Hx. f_equal. lia.
  - by apply (get2_lookup (rot90_ccw a) i j c x).
Qed.
End RotationFacts.
Section RotateMats.
Context {F : Type} `{FloatOps F}.
Implicit Type st : SeamImage F.

(** X9. [rotate_mats(False)] followed by [rotate_mats(True)] gives back
  the object as it was (the rotations undo each other in this order
  too). *)
Theorem rotate_mats_roundtrip_ccw_cw st :
  wf_arr (resized_rgb st) -> wf_arr (resized_gs st) -> wf_arr (idx_map st) ->
  mbind (rotate_mats false) (fun _ => rotate_mats true) st = (Return tt, st).
Proof.
  intros Hrgb Hgs Hidx. unfold mbind. rewrite !rotate_mats_run. f_equal.
  destruct st as [k im rr vis sr hh ww gs cm e hist idx cv cl cr mm bt].
  cbn [resized_rgb resized_gs idx_map vis_seams h w] in *.
  destruct vis; cbv [with_idx_map with_hw with_resized_rgb with_resized_gs rot90
                     kind rgb resized_rgb vis_seams seams_rgb h w resized_gs cumm_mask
                     E seam_history idx_map C_V C_L C_R M backtrack_mat];
    rewrite !rot90_cw_ccw by done; done.
Qed.

(** X10. Four calls of [rotate_mats(True)] in a row give back the object
  as it was. *)
Theorem rotate_mats_four_times st :
  wf_arr (resized_rgb st) -> wf_arr (resized_gs st) -> wf_arr (idx_map st) ->
  mbind (rotate_mats true) (fun _ =>
    mbind (rotate_mats true) (fun _ =>
      mbind (rotate_mats true) (fun _ => rotate_mats true))) st = (Return tt, st).
Proof.
  intros Hrgb Hgs Hidx. unfold mbind. rewrite !rotate_mats_run. f_equal.
  destruct st as [k im rr vis sr hh ww gs cm e hist idx cv cl cr mm bt].
  cbn [resized_rgb resized_gs idx_map vis_seams h w] in *.
  destruct vis; cbv [with_idx_map with_hw with_resized_rgb with_resized_gs rot90
                     kind rgb resized_rgb vis_seams seams_rgb h w resized_gs cumm_mask
                     E seam_history idx_map C_V C_L C_R M backtrack_mat];
    rewrite !rot90_cw_four by done; done.
Qed.

(** X11. [rotate_mats] turns the working image a quarter turn and swaps
  the stored height and width: after [rotate_mats(True)] cell (i, j) of
  the RGB and grayscale buffers is the old cell (h - 1 - j, i)
  (clockwise); after [rotate_mats(False)] it is the old cell
  (j, w - 1 - i) (counter-clockwise). *)
Theorem rotate_mats_cells (b : bool) st (i j : nat) :
  reachable st -> (i < ncols (resized_rgb st))%nat -> (j < nrows (resized_rgb st))%nat ->
  let src := if b then (Z.of_nat (nrows (resized_rgb st) - 1 - j), Z.of_nat i)
             else (Z.of_nat j, Z.of_nat (ncols (resized_rgb st) - 1 - i)) in
  exists st',
    rotate_mats b st = (Return tt, st') /\
    h st' = w st /\ w st' = h st /\
    shape (resized_rgb st') = (ncols (resized_rgb st), nrows (resized_rgb st)) /\
    get2 (resized_rgb st') (Z.of_nat i) (Z.of_nat j) = get2 (resized_rgb st) src.1 src.2 /\
    get2 (resized_gs st') (Z.of_nat i) (Z.of_nat j) = get2 (resized_gs st) src.1 src.2.
Proof.
  intros Hreach Hi Hj src.
  pose proof (reachable_inv st Hreach) as Hinv.
  destruct Hinv as ((_ & Hwr & Hwg & Hsh & _) & _). injection Hsh as Hs1 Hs2.
  eexists. split; [apply rotate_mats_run |].
  destruct (vis_seams st); proj; (split; [done |]); (split; [done |]);
    (split; [by destruct b |]); subst src;
    destruct b; cbn [rot90 fst snd];
    rewrite ?rot90_cw_get2, ?rot90_ccw_get2 by (done || lia);
    rewrite ?Hs1, ?Hs2; done.
Qed.
End RotateMats.
(** ** The greedy walk *)

Section GreedyWalk.
Context {F : Type} `{FloatOps F}.
Implicit Type st : SeamImage F.

Lemma greedy_next_step st (hh ww i : nat) min_idx :
  wf_arr (E st) -> shape (E st) = (hh, ww) ->
  wf_arr (C_L st) -> shape (C_L st) = (hh, ww) ->
  wf_arr (C_V st) -> shape (C_V st) = (hh, ww) ->
  wf_arr (C_R st) -> shape (C_R st) = (hh, ww) ->
  (S i < hh)%nat -> - Z.of_nat ww <= min_idx <= Z.of_nat ww - 1 ->
  exists next, greedy_next st (Z.of_nat ww) (Z.of_nat i) min_idx = Return next /\
               min_idx - 1 <= next <= min_idx + 1 /\ next <= Z.of_nat ww - 1.
Proof.
  intros HwE HsE HwL HsL HwV HsV HwR HsR Hi Hm.
  unfold greedy_next, candidates.
  replace (Z.of_nat i + 1) with (Z.of_nat (S i)) by lia.
  destruct (candidate_ok st (C_V st) hh ww (S i) min_idx) as [cc Hcc]; try done; [lia |].
  destruct (0 <? min_idx) eqn:Hleft; [apply Z.ltb_lt in Hleft | apply Z.ltb_ge in Hleft].
  - destruct (candidate_ok st (C_L st) hh ww (S i) (min_idx - 1)) as [cl ->];
      try done; [lia |].
    cbn [obind]. rewrite Hcc. cbn [obind].
    destruct (min_idx <? Z.of_nat ww - 1) eqn:Hright;
      [apply Z.ltb_lt in Hright | apply Z.ltb_ge in Hright].
    + destruct (candidate_ok st (C_R st) hh ww (S i) (min_idx + 1)) as [cr ->];
        try done; [lia |].
      cbn [obind app]. destruct (argmin_ok fltb [cl; cc; cr]) as (d & -> & Hd); [done |].
      cbn [obind length] in *. eexists. split; [done | lia].
    + cbn [obind app]. destruct (argmin_ok fltb [cl; cc]) as (d & -> & Hd); [done |].
      cbn [obind length] in *. eexists. split; [done | lia].
  - cbn [obind]. rewrite Hcc. cbn [obind].
    destruct (min_idx <? Z.of_nat ww - 1) eqn:Hright;
      [apply Z.ltb_lt in Hright | apply Z.ltb_ge in Hright].
    + destruct (candidate_ok st (C_R st) hh ww (S i) (min_idx + 1)) as [cr ->];
        try done; [lia |].
      cbn [obind app]. destruct (argmin_ok fltb [cc; cr]) as (d & -> & Hd); [done |].
      cbn [obind length] in *. eexists. split; [done | lia].
    + cbn [obind app]. destruct (argmin_ok fltb [cc]) as (d & -> & Hd); [done |].
      cbn [obind length] in *. eexists. split; [done | lia].
Qed.

Lemma greedy_loop_walk st (hh ww : nat) :
  wf_arr (E st) -> shape (E st) = (hh, ww) ->
  wf_arr (C_L st) -> shape (C_L st) = (hh, ww) ->
  wf_arr (C_V st) -> shape (C_V st) = (hh, ww) ->
  wf_arr (C_R st) -> shape (C_R st) = (hh, ww) ->
  (hh <= ww + 1)%nat ->
  forall n (i : nat) min_idx seam,
    (i + n = hh)%nat -> length seam = hh ->
    - Z.of_nat i <= min_idx <= Z.of_nat ww - 1 ->
    walked ww i min_idx seam ->
    exists seam' last,
      greedy_loop st (Z.of_nat hh) (Z.of_nat ww) n (Z.of_nat i) min_idx seam = Return seam' /\
      length seam' = hh /\ walked ww hh last seam' /\
      (forall k, (k < i)%nat -> seam' !! k = seam !! k) /\
      (n <> 0%nat -> seam' !! i = Some min_idx).
Proof.
  intros HwE HsE HwL HsL HwV HsV HwR HsR Hhw.
  induction n as [| n IH]; intros i min_idx seam Hin Hlen Hm Hwk.
  - exists seam, min_idx. assert (Hih : i = hh) by lia. subst i. by split_and!.
  - cbn [greedy_loop]. rewrite Nat2Z.id.
    set (seam1 := <[i := min_idx]> seam).
    assert (Hl1 : length seam1 = hh) by by (unfold seam1; rewrite length_insert).
    assert (Hi1 : seam1 !! i = Some min_idx).
    { unfold seam1. apply list_lookup_insert_eq. lia. }
    assert (Hlt1 : forall k, (k < i)%nat -> seam1 !! k = seam !! k).
    { intros k Hk. unfold seam1. apply list_lookup_insert_ne. lia. }
    assert (Hwk1 : forall next, Z.abs (next - min_idx) <= 1 -> walked ww (S i) next seam1).
    { intros next Hnext. destruct Hwk as (Hb & Ha & Hc). split_and!.
      - intros k c Hk Hkc. destruct (decide (k = i)) as [-> | Hne].
        + rewrite Hi1 in Hkc. injection Hkc as <-. lia.
        + rewrite Hlt1 in Hkc by lia. apply Hb; [lia | done].
      - intros k a b Hk Hka Hkb. destruct (decide (S k = i)) as [<- | Hne].
        + rewrite Hi1 in Hkb. injection Hkb as <-.
          rewrite Hlt1 in Hka by lia. by apply (Hc k).
        + rewrite Hlt1 in Hka, Hkb by lia. apply (Ha k); [lia | done | done].
      - intros k a [= <-] Hka. rewrite Hi1 in Hka. by injection Hka as <-. }
    replace (Z.of_nat i + 1) with (Z.of_nat (S i)) by lia.
    destruct (Z.of_nat (S i) <? Z.of_nat hh) eqn:Hnext;
      [apply Z.ltb_lt in Hnext | apply Z.ltb_ge in Hnext].
    + destruct (greedy_next_step st hh ww i min_idx) as (next & -> & Hn1 & Hn2);
        try done; try lia.
      cbn [obind].
      destruct (IH (S i) next seam1) as (seam' & last & Hrun & Hl' & Hw' & Hpre & _);
        [lia | done | lia | apply Hwk1; lia |].
      exists seam', last. split_and!; try done.
      * intros k Hk. rewrite Hpre by lia. apply Hlt1. lia.
      * intros _. rewrite Hpre by lia. done.
    + destruct n; [| lia]. cbn [greedy_loop]. exists seam1, min_idx.
      split_and!; [done | done | | done | done].
      replace hh with (S i) by lia. apply Hwk1. lia.
Qed.
End GreedyWalk.
Section GreedySeam.
Context {F : Type} `{FloatOps F}.
Implicit Type st : SeamImage F.

(** X12. The greedy seam, in an iteration of the [seams_removal] loop on
  an image with h <= w + 1 rows: [find_minimal_seam] returns a seam of
  length h that starts at the first least entry of row 0 of E, moves by
  at most one column from a row to the next and never passes the last
  column; on the left it is only bounded by seam[i] >= -i (a negative
  entry is a column counted from the right end). *)
Theorem greedy_seam_walk st :
  reachable st -> kind st = Greedy ->
  (0 < nrows (resized_rgb st))%nat -> (0 < ncols (resized_rgb st))%nat ->
  (nrows (resized_rgb st) <= ncols (resized_rgb st) + 1)%nat ->
  exists seam st' row0 k,
    find_minimal_seam (with_E (calc_gradient_magnitude st) st) = (Return seam, st') /\
    length seam = nrows (resized_rgb st) /\
    rows (calc_gradient_magnitude st) !! 0%nat = Some row0 /\
    argmin fltb row0 = Return k /\ seam !! 0%nat = Some (Z.of_nat k) /\
    (forall i c, seam !! i = Some c ->
                 - Z.of_nat i <= c <= Z.of_nat (ncols (resized_rgb st)) - 1) /\
    (forall i a b, seam !! i = Some a -> seam !! S i = Some b -> Z.abs (b - a) <= 1).
Proof.
  intros Hreach Hkind Hpos_h Hpos_w Hhw.
  pose proof (reachable_inv st Hreach) as Hinv.
  set (sta := with_E (calc_gradient_magnitude st) st).
  destruct (gradient_magnitude_wf (resized_gs st)) as [HwE HsE]; [apply Hinv |].
  destruct Hinv as ((_ & _ & Hwg & Hsg & Hh & Hw) & _).
  set (hh := nrows (resized_rgb st)) in *. set (ww := ncols (resized_rgb st)) in *.
  assert (HsE' : shape (E sta) = (hh, ww)).
  { change (E sta) with (gradient_magnitude (resized_gs st)). by rewrite HsE, Hsg. }
  assert (HwE' : wf_arr (E sta)) by done.
  destruct (calc_C_wf sta Hwg) as (HwV & HwL & HwR & HsV & HsL & HsR).
  set (st1 := calc_C sta) in *.
  change (resized_gs sta) with (resized_gs st) in HsV, HsL, HsR.
  rewrite Hsg in HsV, HsL, HsR.
  assert (HE1 : nrows (E sta) = hh) by exact (f_equal fst HsE').
  assert (HE2 : ncols (E sta) = ww) by exact (f_equal snd HsE').
  destruct (get_row_ok (E sta) 0) as (row0 & Hrow0 & Hrow0' & Hlrow0); [done | lia |].
  destruct (argmin_ok fltb row0) as (k & Hk & Hklt).
  { intros ->. rewrite HE2 in Hlrow0. cbn [length] in Hlrow0. lia. }
  assert (Hlz : length (replicate hh (0:Z)) = hh) by by rewrite length_replicate.
  destruct (greedy_loop_walk st1 hh ww) with (n := hh) (i := 0%nat)
    (min_idx := Z.of_nat k) (seam := replicate hh 0)
    as (seam & last & Hloop & Hlen & (Hb & Ha & _) & _ & Hfirst); try done; try lia.
  { split_and!; intros; lia. }
  change (Z.of_nat 0) with 0 in Hrow0, Hloop.
  exists seam, st1, row0, k. split_and!; try done.
  - unfold find_minimal_seam. change (kind sta) with (kind st). rewrite Hkind.
    unfold greedy_find_minimal_seam, mbind, eval, assign. cbn beta iota.
    fold st1. change (E st1) with (E sta). rewrite Hrow0. cbn beta iota.
    rewrite Hk. cbn beta iota. rewrite HE1, HE2. by rewrite Hloop.
  - apply Hfirst. lia.
  - intros i c Hc. apply Hb; [| done]. rewrite <- Hlen. by eapply lookup_lt_Some.
  - intros i a b Hia Hib. apply (Ha i); [| done | done].
    rewrite <- Hlen. by eapply lookup_lt_Some.
Qed.
End GreedySeam.
(** ** The backtracking walk of the dynamic-programming finder *)

Section DPWalk.
Context {F : Type} `{FloatOps F}.
Implicit Type st : SeamImage F.

Lemma backtrack_loop_steps st (hh ww : nat) :
  wf_arr (backtrack_mat st) -> shape (backtrack_mat st) = (hh, ww) ->
  directions (backtrack_mat st) -> w st = Z.of_nat ww ->
  forall n min_idx,
    (n < hh)%nat -> 0 <= min_idx < Z.of_nat ww ->
    exists walk,
      backtrack_loop st n min_idx = Return walk /\ length walk = n /\
      forall i a b, (min_idx :: walk) !! i = Some a -> (min_idx :: walk) !! S i = Some b ->
        exists d, get2 (backtrack_mat st) (Z.of_nat (n - i)) a = Return d /\
                  b = Z.max 0 (Z.min (a + d) (w st - 2)).
Proof.
  intros Hwb Hsb Hdb Hw. injection Hsb as Hb1 Hb2.
  induction n as [| n IH]; intros min_idx Hn Hm.
  - exists []. simpl. split_and!; done.
  - cbn [backtrack_loop].
    destruct (get2 (backtrack_mat st) (Z.of_nat (S n)) min_idx) as [d | e] eqn:Hget.
    2: { destruct (get2_py (backtrack_mat st) (S n) min_idx) as [x Hx];
           [done | lia | lia |]. congruence. }
    assert (Hdir : -1 <= d <= 1).
    { unfold get2, get_row in Hget. rewrite py_index_nat in Hget by lia. simpl in Hget.
      destruct (list_get (rows (backtrack_mat st)) (S n)) as [row |] eqn:Hrow; [| done].
      simpl in Hget. rewrite py_index_nonneg in Hget by lia. simpl in Hget.
      apply list_get_Return in Hrow, Hget.
      pose proof (Forall_lookup_1 _ _ _ _ Hdb Hrow) as Hr.
      by apply (Forall_lookup_1 _ _ _ _ Hr Hget). }
    cbn [obind].
    set (m' := Z.max 0 (Z.min (min_idx + d) (w st - 2))).
    destruct (IH m') as (walk & -> & Hlen & Hstep); [lia | subst m'; lia |].
    cbn [obind]. exists (m' :: walk). split_and!; [done | simpl; lia |].
    intros [| i] a b Ha Hb; simpl in Ha, Hb.
    + injection Ha as <-. injection Hb as <-. exists d. split; [| done].
      by replace (S n - 0)%nat with (S n) by lia.
    + replace (S n - S i)%nat with (n - i)%nat by lia. by apply (Hstep i).
Qed.

(** X13. The dynamic-programming seam follows the backtrack grid from the
  bottom row up: its last entry is the first least entry of the last row
  of M, and the entry of row i is the entry c of row i + 1 moved by
  [backtrack_mat[i + 1][c]] and then clamped into [0, w - 2] (not
  [0, w - 1]). So above the bottom row the seam never takes the last
  column of an image that is at least two columns wide. *)
Theorem dp_seam_backtrack st :
  reachable st -> kind st = DP ->
  (0 < nrows (resized_rgb st))%nat -> (0 < ncols (resized_rgb st))%nat ->
  exists seam st' last k,
    find_minimal_seam (with_E (calc_gradient_magnitude st) st) = (Return seam, st') /\
    get_row (M st') (-1) = Return last /\ argmin xltb last = Return k /\
    seam !! (nrows (resized_rgb st) - 1)%nat = Some (Z.of_nat k) /\
    (forall i c c', seam !! S i = Some c -> seam !! i = Some c' ->
       exists d, get2 (backtrack_mat st') (Z.of_nat (S i)) c = Return d /\
                 c' = Z.max 0 (Z.min (c + d) (w st - 2))) /\
    (forall i c', (S i < nrows (resized_rgb st))%nat -> seam !! i = Some c' ->
       c' <= Z.max 0 (w st - 2)).
Proof.
  intros Hreach Hkind Hpos_h Hpos_w.
  pose proof (reachable_inv st Hreach) as Hinv.
  set (sta := with_E (calc_gradient_magnitude st) st).
  destruct (gradient_magnitude_wf (resized_gs st)) as [HwE HsE]; [apply Hinv |].
  destruct Hinv as ((_ & _ & Hwg & Hsg & Hh & Hw) & _).
  destruct (init_mats_ok sta HwE Hwg HsE)
    as (Mg & bt & st1 & Hinit & HM & Hbt & Hfr & HwM & HsM & Hwb & Hsb & Hdb).
  set (hh := nrows (resized_rgb st)) in *. set (ww := ncols (resized_rgb st)) in *.
  assert (HsE' : shape (E sta) = (hh, ww)).
  { change (E sta) with (gradient_magnitude (resized_gs st)). by rewrite HsE, Hsg. }
  rewrite HsE' in HsM, Hsb.
  assert (HM1 : nrows Mg = hh) by exact (f_equal fst HsM).
  assert (HM2 : ncols Mg = ww) by exact (f_equal snd HsM).
  destruct (get_row_ok Mg (hh - 1)) as (last & _ & Hlast & Hllast); [done | lia |].
  assert (Hget : get_row Mg (-1) = Return last).
  { unfold get_row. rewrite py_index_neg by lia. simpl.
    apply list_get_Return.
    by replace (Z.to_nat (Z.of_nat (nrows Mg) + -1)) with (hh - 1)%nat by lia. }
  destruct (argmin_ok xltb last) as (k & Hk & Hklt).
  { intros ->. simpl in Hllast. lia. }
  destruct Hfr as (Hf1 & Hf2 & Hf3 & Hf4 & Hf5 & Hf6 & Hf7 & Hf8 & Hf9).
  change (h sta) with (h st) in Hf5. change (w sta) with (w st) in Hf6.
  destruct (backtrack_loop_steps st1 hh ww) with (n := (hh - 1)%nat) (min_idx := Z.of_nat k)
    as (walk & Hwalk & Hlw & Hstep); try (subst bt; done); try lia.
  set (seam := reverse (Z.of_nat k :: walk)).
  assert (Hls : length (Z.of_nat k :: walk) = hh) by (simpl; lia).
  assert (Hsteps : forall i c c', seam !! S i = Some c -> seam !! i = Some c' ->
       exists d, get2 (backtrack_mat st1) (Z.of_nat (S i)) c = Return d /\
                 c' = Z.max 0 (Z.min (c + d) (w st - 2))).
  { intros i c c' Hc Hc'.
    assert (Hi : (S i < hh)%nat).
    { apply lookup_lt_Some in Hc. unfold seam in Hc. rewrite length_reverse in Hc. lia. }
    unfold seam in Hc, Hc'.
    rewrite reverse_lookup in Hc by lia. rewrite reverse_lookup in Hc' by lia.
    rewrite Hls in Hc, Hc'.
    replace (hh - S i)%nat with (S (hh - S (S i))) in Hc' by lia.
    destruct (Hstep _ _ _ Hc Hc') as (d & Hd & ->).
    exists d. rewrite <- Hf6. split; [| done].
    by replace (hh - 1 - (hh - S (S i)))%nat with (S i) in Hd by lia. }
  exists seam, st1, last, k. split_and!; try done.
  - unfold find_minimal_seam. change (kind sta) with (kind st). rewrite Hkind.
    unfold dp_find_minimal_seam, mbind, eval, mret. rewrite Hinit. cbn beta iota.
    rewrite HM, Hget. cbn beta iota. rewrite Hk. cbn beta iota.
    replace (Z.to_nat (h st1 - 1)) with (hh - 1)%nat by lia.
    by rewrite Hwalk.
  - by rewrite HM.
  - unfold seam. rewrite reverse_lookup by lia. rewrite Hls.
    by replace (hh - S (hh - 1))%nat with 0%nat by lia.
  - intros i c' Hi Hc'.
    destruct (lookup_lt_is_Some_2 seam (S i)) as [c Hc].
    { unfold seam. rewrite length_reverse. lia. }
    destruct (Hsteps i c c' Hc Hc') as (d & _ & ->). lia.
Qed.
End DPWalk.
(** ** The cells of M and of the backtrack grid *)

Section CostMatrixCells.
Context {F : Type} `{FloatOps F}.

Lemma cost_matrix_inv ww (m_prev : list (xfloat F)) CL CV CR cm :
  cost_matrix ww m_prev CL CV CR = Return cm ->
  length m_prev = ww /\ length CL = ww /\ length CV = ww /\ length CR = ww /\
  cm = [take 1 (replicate ww PInf)
          ++ zip_with xadd (take (ww - 1) m_prev) (map Fin (drop 1 CL));
        zip_with xadd m_prev (map Fin CV);
        zip_with xadd (drop 1 m_prev) (map Fin (take (ww - 1) CR))
          ++ drop (ww - 1) (replicate ww PInf)].
Proof.
  unfold cost_matrix. destruct (decide _) as [(? & ? & ? & ?) | ?]; [| done].
  intros [= <-]. by split_and!.
Qed.

Lemma cost_matrix_left ww (m_prev : list (xfloat F)) CL CV CR l v r (j : nat) :
  cost_matrix ww m_prev CL CV CR = Return [l; v; r] -> (j < ww)%nat ->
  match j with
  | O => l !! j = Some PInf
  | S j' => exists m c, m_prev !! j' = Some m /\ CL !! j = Some c /\
                        l !! j = Some (xadd m (Fin c))
  end.
Proof.
  intros Hcm Hj. apply cost_matrix_inv in Hcm as (Hm & Hl & Hv & Hr & [= -> -> ->]).
  destruct j as [| j'].
  - destruct ww; [lia |]. done.
  - destruct (lookup_lt_is_Some_2 m_prev j') as [m Hmj]; [lia |].
    destruct (lookup_lt_is_Some_2 CL (S j')) as [c Hc]; [lia |].
    exists m, c. split_and!; try done.
    destruct ww as [| ww']; [lia |].
    replace (take 1 (replicate (S ww') (@PInf F))) with [@PInf F] by done.
    rewrite lookup_app_r by (simpl; lia).
    replace (S j' - length [@PInf F])%nat with j' by (simpl; lia).
    rewrite lookup_zip_with, lookup_take_lt by lia. rewrite Hmj. cbn [mbind option_bind].
    rewrite list_lookup_fmap, lookup_drop. replace (1 + j')%nat with (S j') by lia.
    by rewrite Hc.
Qed.

Lemma cost_matrix_vertical ww (m_prev : list (xfloat F)) CL CV CR l v r (j : nat) :
  cost_matrix ww m_prev CL CV CR = Return [l; v; r] -> (j < ww)%nat ->
  exists m c, m_prev !! j = Some m /\ CV !! j = Some c /\ v !! j = Some (xadd m (Fin c)).
Proof.
  intros Hcm Hj. apply cost_matrix_inv in Hcm as (Hm & Hl & Hv & Hr & [= -> -> ->]).
  destruct (lookup_lt_is_Some_2 m_prev j) as [m Hmj]; [lia |].
  destruct (lookup_lt_is_Some_2 CV j) as [c Hc]; [lia |].
  exists m, c. split_and!; try done.
  by rewrite lookup_zip_with, Hmj, list_lookup_fmap, Hc.
Qed.

Lemma cost_matrix_right ww (m_prev : list (xfloat F)) CL CV CR l v r (j : nat) :
  cost_matrix ww m_prev CL CV CR = Return [l; v; r] -> (j < ww)%nat ->
  if decide (S j = ww) then r !! j = Some PInf
  else exists m c, m_prev !! S j = Some m /\ CR !! j = Some c /\
                   r !! j = Some (xadd m (Fin c)).
Proof.
  intros Hcm Hj. apply cost_matrix_inv in Hcm as (Hm & Hl & Hv & Hr & [= -> -> ->]).
  assert (Hlz : length (zip_with xadd (drop 1 m_prev) (map Fin (take (ww - 1) CR)))
                = (ww - 1)%nat).
  { rewrite length_zip_with, length_drop, length_map, length_take. lia. }
  destruct (decide (S j = ww)) as [Hlast | Hin].
  - rewrite lookup_app_r by lia. rewrite Hlz, lookup_drop.
    apply lookup_replicate_2. lia.
  - destruct (lookup_lt_is_Some_2 m_prev (S j)) as [m Hmj]; [lia |].
    destruct (lookup_lt_is_Some_2 CR j) as [c Hc]; [lia |].
    exists m, c. split_and!; try done.
    rewrite lookup_app_l by lia.
    rewrite lookup_zip_with, lookup_drop. replace (1 + j)%nat with (S j) by lia.
    rewrite Hmj. cbn [mbind option_bind].
    rewrite list_lookup_fmap, lookup_take_lt by lia. by rewrite Hc.
Qed.

(** One column of the three steps after [cost_matrix]: [np.argmin] down
    the column, the value it selects, and its direction code. *)
Lemma chosen_candidate ww (l v r : list (xfloat F)) ks vals dirs (j : nat) a b c :
  argmin_axis0 ww [l; v; r] = Return ks ->
  take_along [l; v; r] ks = Return vals ->
  omapM (list_get direction_map) ks = Return dirs ->
  (j < ww)%nat -> l !! j = Some a -> v !! j = Some b -> r !! j = Some c ->
  exists k x, argmin xltb [a; b; c] = Return k /\ [a; b; c] !! k = Some x /\
              vals !! j = Some x /\ dirs !! j = Some (Z.of_nat k - 1).
Proof.
  intros Hks Hvals Hdirs Hj Ha Hb Hc.
  unfold argmin_axis0 in Hks. apply omapM_Forall2 in Hks.
  unfold take_along in Hvals. apply omapM_Forall2 in Hvals.
  apply omapM_Forall2 in Hdirs.
  assert (Hlks : length ks = ww).
  { by rewrite <- (Forall2_length _ _ _ Hks), length_seq. }
  destruct (lookup_lt_is_Some_2 ks j) as [k Hk]; [lia |].
  destruct (Forall2_lookup_r _ _ _ _ _ Hks Hk) as (j' & Hj' & Harg).
  apply lookup_seq in Hj' as [-> _]. cbn [Nat.add] in Harg.
  unfold column in Harg. cbn [omap list_omap] in Harg. rewrite Ha, Hb, Hc in Harg.
  cbn [mbind option_bind] in Harg.
  assert (Hk3 : (k < 3)%nat).
  { destruct (argmin_ok xltb [a; b; c]) as (k' & Hk' & Hlt); [done |].
    rewrite Hk' in Harg. injection Harg as <-. simpl in Hlt. lia. }
  destruct (Forall2_lookup_l _ _ _ j k Hdirs Hk) as (d & Hd & Hget).
  assert (Hzip : zip ks (seq 0 (length ks)) !! j = Some (k, j)).
  { rewrite lookup_zip_with, Hk. cbn [mbind option_bind].
    rewrite lookup_seq_lt by lia. done. }
  destruct (Forall2_lookup_l _ _ _ j (k, j) Hvals Hzip) as (x & Hx & Hsel).
  cbn [fst snd] in Hsel.
  exists k, x. split; [done |].
  apply list_get_Return in Hget.
  destruct k as [| [| [| k]]]; [| | | lia]; cbn [list_get lookup list_lookup obind] in Hsel;
    apply list_get_Return in Hsel;
    simpl in Hget; injection Hget as <-; split_and!; try done;
    cbn [lookup list_lookup]; congruence.
Qed.
End CostMatrixCells.
Section CalcMRows.
Context {F : Type} `{FloatOps F}.
Implicit Type st : SeamImage F.

(** Row by row: the loop leaves the rows above [i] alone, and fills
    each later row from the row above it in the result and from row
    [r - 1] of the three cost grids. *)
Lemma calc_M_loop_rows ww n : forall (i : nat) Mg st,
  (1 <= i)%nat ->
  wf_arr Mg -> shape Mg = ((i + n)%nat, ww) ->
  wf_arr (C_L st) -> shape (C_L st) = ((i + n)%nat, ww) ->
  wf_arr (C_V st) -> shape (C_V st) = ((i + n)%nat, ww) ->
  wf_arr (C_R st) -> shape (C_R st) = ((i + n)%nat, ww) ->
  wf_arr (backtrack_mat st) -> shape (backtrack_mat st) = ((i + n)%nat, ww) ->
  exists Mg' bt',
    calc_M_loop ww n (Z.of_nat i) Mg st = (Return Mg', with_backtrack_mat bt' st) /\
    (forall r, (r < i)%nat ->
       rows Mg' !! r = rows Mg !! r /\ rows bt' !! r = rows (backtrack_mat st) !! r) /\
    (forall r, (i <= r < i + n)%nat ->
       exists prev init CL CV CR l v rr ks vals dirs,
         rows Mg' !! (r - 1)%nat = Some prev /\ rows Mg !! r = Some init /\
         rows (C_L st) !! (r - 1)%nat = Some CL /\
         rows (C_V st) !! (r - 1)%nat = Some CV /\
         rows (C_R st) !! (r - 1)%nat = Some CR /\
         cost_matrix ww prev CL CV CR = Return [l; v; rr] /\
         argmin_axis0 ww [l; v; rr] = Return ks /\
         take_along [l; v; rr] ks = Return vals /\
         omapM (list_get direction_map) ks = Return dirs /\
         rows Mg' !! r = Some (zip_with xadd init vals) /\
         rows bt' !! r = Some dirs).
Proof.
  induction n as [| n IH]; intros i Mg st Hi HwM HsM HwL HsL HwV HsV HwR HsR Hwb Hsb.
  - exists Mg, (backtrack_mat st). simpl. rewrite with_backtrack_mat_id.
    split_and!; [done | done | intros r Hr; lia].
  - injection HsM as HM1 HM2. injection HsL as HL1 HL2. injection HsV as HV1 HV2.
    injection HsR as HR1 HR2. injection Hsb as Hb1 Hb2.
    destruct (get_row_ok Mg (i - 1)) as (m_prev & Hmp & Hmp' & Hlmp); [done | lia |].
    destruct (get_row_ok (C_L st) (i - 1)) as (CL & HCL & HCL' & HlCL); [done | lia |].
    destruct (get_row_ok (C_V st) (i - 1)) as (CV & HCV & HCV' & HlCV); [done | lia |].
    destruct (get_row_ok (C_R st) (i - 1)) as (CR & HCR & HCR' & HlCR); [done | lia |].
    replace (Z.of_nat (i - 1)) with (Z.of_nat i - 1) in * by lia.
    destruct (cost_matrix_ok ww m_prev CL CV CR) as (l & v & r & Hcm & Hl & Hv & Hr);
      [congruence .. |].
    destruct (argmin_axis0_ok ww l v r) as (ks & Hks & Hlks & Hk3); [done .. |].
    destruct (take_along_ok ww l v r ks) as (vals & Hvals & Hlvals); [done .. |].
    destruct (directions_ok ww ks) as (dirs & Hdirs & Hldirs & Hdd); [done .. |].
    destruct (arr_set_row_ok (backtrack_mat st) i dirs) as [Hbt Hwbt];
      [done | lia | congruence |].
    destruct (get_row_ok Mg i) as (Mi & HMi & HMi' & HlMi); [done | lia |].
    destruct (arr_set_row_ok Mg i (zip_with xadd Mi vals)) as [HMg' HwMg'];
      [done | lia | rewrite length_zip_with; lia |].
    set (bt1 := mkArr _ _ (<[i := dirs]> (rows (backtrack_mat st)))) in *.
    set (Mg1 := mkArr _ _ (<[i := zip_with xadd Mi vals]> (rows Mg))) in *.
    destruct (IH (S i) Mg1 (with_backtrack_mat bt1 st))
      as (Mg' & bt' & Hrun & Hold & Hnew).
    { lia. } { done. }
    { unfold shape. subst Mg1. simpl. f_equal; lia. }
    { done. } { proj. unfold shape. f_equal; lia. }
    { done. } { proj. unfold shape. f_equal; lia. }
    { done. } { proj. unfold shape. f_equal; lia. }
    { done. }
    { proj. unfold shape. subst bt1. simpl. f_equal; lia. }
    proj.
    assert (Hlen : (i < length (rows Mg))%nat) by (destruct HwM; lia).
    assert (Hlenb : (i < length (rows (backtrack_mat st)))%nat) by (destruct Hwb; lia).
    exists Mg', bt'. split_and!.
    + cbn [calc_M_loop]. unfold mbind, eval, assign.
      rewrite Hmp, HCL, HCV, HCR, Hcm, Hks, Hvals, Hdirs, Hbt, HMi, HMg'.
      replace (Z.of_nat i + 1) with (Z.of_nat (S i)) by lia.
      exact Hrun.
    + intros r' Hr'. destruct (Hold r') as [Ho1 Ho2]; [lia |].
      rewrite Ho1, Ho2. subst Mg1 bt1. cbn [rows].
      by rewrite !list_lookup_insert_ne by lia.
    + intros r' Hr'. destruct (decide (r' = i)) as [-> | Hne].
      * destruct (Hold i) as [Ho1 Ho2]; [lia |].
        destruct (Hold (i - 1)%nat) as [Hp1 _]; [lia |].
        exists m_prev, Mi, CL, CV, CR, l, v, r, ks, vals, dirs.
        split_and!; try done.
        -- rewrite Hp1. subst Mg1. cbn [rows].
           by rewrite list_lookup_insert_ne by lia.
        -- rewrite Ho1. subst Mg1. cbn [rows]. by apply list_lookup_insert_eq.
        -- rewrite Ho2. subst bt1. cbn [rows]. by apply list_lookup_insert_eq.
      * destruct (Hnew r') as (prev & init & CL' & CV' & CR' & l' & v' & rr' & ks' & vals'
                               & dirs' & H1 & H2 & H3 & H4 & H5 & H6 & H7 & H8 & H9 & H10
                               & H11); [lia |].
        exists prev, init, CL', CV', CR', l', v', rr', ks', vals', dirs'.
        split_and!; try done.
        subst Mg1. cbn [rows] in H2. by rewrite list_lookup_insert_ne in H2 by lia.
Qed.
End CalcMRows.
Section CalcMCells.
Context {F : Type} `{FloatOps F}.
Implicit Type st : SeamImage F.

Lemma init_mats_rows st :
  wf_arr (E st) -> wf_arr (resized_gs st) -> shape (E st) = shape (resized_gs st) ->
  let st1 := calc_C st in
  exists Mg bt,
    init_mats st = (Return tt, with_M Mg (with_backtrack_mat bt st1)) /\
    ((0 < nrows (E st))%nat ->
     rows Mg !! 0%nat = rows (arr_map Fin (E st)) !! 0%nat /\
     rows bt !! 0%nat = Some (replicate (ncols (E st)) 0)) /\
    (forall r, (1 <= r < nrows (E st))%nat ->
       exists prev init CL CV CR l v rr ks vals dirs,
         rows Mg !! (r - 1)%nat = Some prev /\
         rows (arr_map Fin (E st)) !! r = Some init /\
         rows (C_L st1) !! (r - 1)%nat = Some CL /\
         rows (C_V st1) !! (r - 1)%nat = Some CV /\
         rows (C_R st1) !! (r - 1)%nat = Some CR /\
         cost_matrix (ncols (E st)) prev CL CV CR = Return [l; v; rr] /\
         argmin_axis0 (ncols (E st)) [l; v; rr] = Return ks /\
         take_along [l; v; rr] ks = Return vals /\
         omapM (list_get direction_map) ks = Return dirs /\
         rows Mg !! r = Some (zip_with xadd init vals) /\
         rows bt !! r = Some dirs).
Proof.
  intros HwE Hwg HsE st1.
  set (st0 := with_backtrack_mat (np_full (nrows (E st)) (ncols (E st)) 0) st).
  set (st2 := calc_C st0).
  assert (HwM0 : wf_arr (arr_map Fin (E st))) by by apply arr_map_wf.
  assert (Hwz : wf_arr (np_full (nrows (E st)) (ncols (E st)) (0:Z))).
  { apply wf_rows_replicate. }
  destruct (calc_C_wf st0) as (HwV & HwL & HwR & HsV & HsL & HsR); [by unfold st0; proj |].
  fold st2 in HwV, HwL, HwR, HsV, HsL, HsR.
  change (resized_gs st0) with (resized_gs st) in HsV, HsL, HsR.
  assert (Hrun : exists Mg bt,
    calc_M st2 = (Return Mg, with_backtrack_mat bt st2) /\
    ((0 < nrows (E st))%nat ->
     rows Mg !! 0%nat = rows (arr_map Fin (E st)) !! 0%nat /\
     rows bt !! 0%nat = Some (replicate (ncols (E st)) 0)) /\
    (forall r, (1 <= r < nrows (E st))%nat ->
       exists prev init CL CV CR l v rr ks vals dirs,
         rows Mg !! (r - 1)%nat = Some prev /\
         rows (arr_map Fin (E st)) !! r = Some init /\
         rows (C_L st2) !! (r - 1)%nat = Some CL /\
         rows (C_V st2) !! (r - 1)%nat = Some CV /\
         rows (C_R st2) !! (r - 1)%nat = Some CR /\
         cost_matrix (ncols (E st)) prev CL CV CR = Return [l; v; rr] /\
         argmin_axis0 (ncols (E st)) [l; v; rr] = Return ks /\
         take_along [l; v; rr] ks = Return vals /\
         omapM (list_get direction_map) ks = Return dirs /\
         rows Mg !! r = Some (zip_with xadd init vals) /\
         rows bt !! r = Some dirs)).
  { unfold calc_M, mbind, eval, assign. cbn beta iota.
    change (E st2) with (E st).
    destruct (nrows (E st)) as [| n] eqn:Hn.
    - exists (arr_map Fin (E st)), (np_full 0 (ncols (E st)) 0). simpl.
      split_and!; [done | lia | intros r Hr; lia].
    - cbn [Nat.sub]. rewrite Nat.sub_0_r.
      set (stz := with_backtrack_mat (np_full (S n) (ncols (E st)) 0) st2).
      assert (Hs0 : shape (arr_map Fin (E st)) = ((1 + n)%nat, ncols (E st))).
      { unfold shape, arr_map. simpl. by rewrite Hn. }
      assert (HsL' : shape (C_L stz) = ((1 + n)%nat, ncols (E st))).
      { unfold stz. proj. rewrite HsL, <- HsE. unfold shape. by rewrite Hn. }
      assert (HsV' : shape (C_V stz) = ((1 + n)%nat, ncols (E st))).
      { unfold stz. proj. rewrite HsV, <- HsE. unfold shape. by rewrite Hn. }
      assert (HsR' : shape (C_R stz) = ((1 + n)%nat, ncols (E st))).
      { unfold stz. proj. rewrite HsR, <- HsE. unfold shape. by rewrite Hn. }
      assert (Hwz' : wf_arr (backtrack_mat stz)) by apply wf_rows_replicate.
      assert (Hsz' : shape (backtrack_mat stz) = ((1 + n)%nat, ncols (E st))) by done.
      destruct (calc_M_loop_rows (ncols (E st)) n 1 (arr_map Fin (E st)) stz
                  (le_n 1) HwM0 Hs0 HwL HsL' HwV HsV' HwR HsR' Hwz' Hsz')
        as (Mg & bt & Hloop & Hold & Hnew).
      exists Mg, bt. split; [exact Hloop |]. split.
      + intros _. destruct (Hold 0%nat) as [Ho1 Ho2]; [lia |]. split; [done |].
        rewrite Ho2. done.
      + intros r Hr. apply Hnew. lia. }
  destruct Hrun as (Mg & bt & Hrun & Hrow0 & Hrows).
  exists Mg, bt. split; [| split; [done |]].
  - unfold init_mats, mbind, assign. cbn beta iota. fold st0. fold st2.
    rewrite Hrun. cbn beta iota. f_equal.
  - exact Hrows.
Qed.

(** X14. The recurrence [calc_M] implements, cell by cell. After
  [init_mats], for every row i > 0 and column j: the three candidates are
  M[i-1][j-1] + C_L[i-1][j] (infinite when j = 0), M[i-1][j] + C_V[i-1][j]
  and M[i-1][j+1] + C_R[i-1][j] (infinite when j = w - 1), the costs
  taken from row i - 1; with k the index [np.argmin] picks among them
  (the first least one), M[i][j] is E[i][j] plus candidate k and
  [backtrack_mat[i][j]] is k - 1. *)
Theorem calc_M_recurrence st (i j : nat) :
  wf_arr (E st) -> wf_arr (resized_gs st) -> shape (E st) = shape (resized_gs st) ->
  (1 <= i < nrows (E st))%nat -> (j < ncols (E st))%nat ->
  exists st' cands k x e,
    init_mats st = (Return tt, st') /\
    M_candidates st' (Z.of_nat i) (Z.of_nat j) = Return cands /\
    argmin xltb cands = Return k /\ cands !! k = Some x /\
    get2 (E st') (Z.of_nat i) (Z.of_nat j) = Return e /\
    get2 (M st') (Z.of_nat i) (Z.of_nat j) = Return (xadd (Fin e) x) /\
    get2 (backtrack_mat st') (Z.of_nat i) (Z.of_nat j) = Return (Z.of_nat k - 1).
Proof.
  intros HwE Hwg HsE Hi Hj.
  destruct (init_mats_rows st HwE Hwg HsE) as (Mg & bt & Hrun & _ & Hrows).
  destruct (init_mats_ok st HwE Hwg HsE)
    as (Mg0 & bt0 & st' & Hrun' & HM & Hbt & _ & HwM & HsM & Hwb & Hsb & _).
  rewrite Hrun in Hrun'. injection Hrun' as <-. proj. subst Mg0 bt0.
  set (st1 := calc_C st) in *. set (ww := ncols (E st)) in *.
  set (hh := nrows (E st)) in *.
  assert (HM1 : nrows Mg = hh) by exact (f_equal fst HsM).
  assert (HM2 : ncols Mg = ww) by exact (f_equal snd HsM).
  assert (Hb1 : nrows bt = hh) by exact (f_equal fst Hsb).
  assert (Hb2 : ncols bt = ww) by exact (f_equal snd Hsb).
  destruct (calc_C_wf st Hwg) as (HwV & HwL & HwR & HsV & HsL & HsR).
  fold st1 in HwV, HwL, HwR, HsV, HsL, HsR. rewrite <- HsE in HsV, HsL, HsR.
  assert (HV1 : nrows (C_V st1) = hh) by exact (f_equal fst HsV).
  assert (HV2 : ncols (C_V st1) = ww) by exact (f_equal snd HsV).
  assert (HL1 : nrows (C_L st1) = hh) by exact (f_equal fst HsL).
  assert (HL2 : ncols (C_L st1) = ww) by exact (f_equal snd HsL).
  assert (HR1 : nrows (C_R st1) = hh) by exact (f_equal fst HsR).
  assert (HR2 : ncols (C_R st1) = ww) by exact (f_equal snd HsR).
  destruct (Hrows i Hi) as (prev & init & CL & CV & CR & l & v & rr & ks & vals & dirs
                            & Hprev & Hinit & HCL & HCV & HCR & Hcm & Hks & Hvals & Hdirs
                            & HMi & Hbi).
  destruct (wf_lookup (E st) i j HwE) as (Ei & e & HEi & He & _); [lia | done |].
  cbn [arr_map rows] in Hinit. rewrite list_lookup_fmap, HEi in Hinit.
  injection Hinit as <-.
  pose proof (cost_matrix_left _ _ _ _ _ _ _ _ j Hcm Hj) as Hleft.
  destruct (cost_matrix_vertical _ _ _ _ _ _ _ _ j Hcm Hj) as (mv & cv & Hmv & Hcv & Hvj).
  pose proof (cost_matrix_right _ _ _ _ _ _ _ _ j Hcm Hj) as Hright.
  assert (Hlj : exists a, l !! j = Some a).
  { destruct j; [by eexists |]. destruct Hleft as (? & ? & _ & _ & ?). by eexists. }
  destruct Hlj as [a Ha].
  assert (Hrj : exists c, rr !! j = Some c).
  { destruct (decide (S j = ww)); [by eexists |].
    destruct Hright as (? & ? & _ & _ & ?). by eexists. }
  destruct Hrj as [c Hc].
  destruct (chosen_candidate ww l v rr ks vals dirs j a _ c Hks Hvals Hdirs Hj Ha Hvj Hc)
    as (k & x & Hk & Hx & Hvx & Hdx).
  exists (with_M Mg (with_backtrack_mat bt st1)), [a; xadd mv (Fin cv); c], k, x, e.
  proj. split_and!; try done.
  - unfold M_candidates. proj. change (ncols (E st1)) with ww.
    replace (Z.of_nat i - 1) with (Z.of_nat (i - 1)) by lia.
    rewrite (get2_lookup Mg (i - 1) j prev mv) by (done || lia). cbn [obind].
    rewrite (get2_lookup (C_V st1) (i - 1) j CV cv) by (done || lia). cbn [obind].
    destruct j as [| j'].
    + rewrite decide_True by done. cbn [obind]. rewrite Hleft in Ha. injection Ha as <-.
      destruct (decide (1%nat = ww)) as [H1 | H1].
      * rewrite decide_True by lia. cbn [obind]. rewrite Hright in Hc. by injection Hc as <-.
      * rewrite decide_False by lia.
        destruct Hright as (m & cr & Hm & Hcr & Hrr). rewrite Hrr in Hc. injection Hc as <-.
        replace (Z.of_nat 0 + 1) with (Z.of_nat 1) by lia.
        rewrite (get2_lookup Mg (i - 1) 1 prev m) by (done || lia). cbn [obind].
        by rewrite (get2_lookup (C_R st1) (i - 1) 0 CR cr) by (done || lia).
    + rewrite decide_False by lia.
      destruct Hleft as (m & cl & Hm & Hcl & Hll). rewrite Hll in Ha. injection Ha as <-.
      replace (Z.of_nat (S j') - 1) with (Z.of_nat j') by lia.
      rewrite (get2_lookup Mg (i - 1) j' prev m) by (done || lia). cbn [obind].
      rewrite (get2_lookup (C_L st1) (i - 1) (S j') CL cl) by (done || lia). cbn [obind].
      destruct (decide (S (S j') = ww)) as [H1 | H1].
      * rewrite decide_True by lia. cbn [obind]. rewrite Hright in Hc. by injection Hc as <-.
      * rewrite decide_False by lia.
        destruct Hright as (m' & cr & Hm' & Hcr & Hrr). rewrite Hrr in Hc.
        injection Hc as <-.
        replace (Z.of_nat (S j') + 1) with (Z.of_nat (S (S j'))) by lia.
        rewrite (get2_lookup Mg (i - 1) (S (S j')) prev m') by (done || lia). cbn [obind].
        by rewrite (get2_lookup (C_R st1) (i - 1) (S j') CR cr) by (done || lia).
  - apply (get2_lookup (E st) i j Ei e); [lia | done | done | done].
  - apply (get2_lookup Mg i j (zip_with xadd (map Fin Ei) vals)); [lia | lia | done |].
    by rewrite lookup_zip_with, list_lookup_fmap, He, Hvx.
  - by apply (get2_lookup bt i j dirs); [lia | lia | |].
Qed.

(** X15. The first row: after [init_mats], row 0 of M is row 0 of E and
  row 0 of the backtrack grid holds zeros. *)
Theorem calc_M_first_row st (j : nat) :
  wf_arr (E st) -> wf_arr (resized_gs st) -> shape (E st) = shape (resized_gs st) ->
  (0 < nrows (E st))%nat -> (j < ncols (E st))%nat ->
  exists st' e,
    init_mats st = (Return tt, st') /\
    get2 (E st') 0 (Z.of_nat j) = Return e /\
    get2 (M st') 0 (Z.of_nat j) = Return (Fin e) /\
    get2 (backtrack_mat st') 0 (Z.of_nat j) = Return 0.
Proof.
  intros HwE Hwg HsE Hi Hj.
  destruct (init_mats_rows st HwE Hwg HsE) as (Mg & bt & Hrun & Hrow0 & _).
  destruct (init_mats_ok st HwE Hwg HsE)
    as (Mg0 & bt0 & st' & Hrun' & HM & Hbt & _ & HwM & HsM & Hwb & Hsb & _).
  rewrite Hrun in Hrun'. injection Hrun' as <-. proj. subst Mg0 bt0.
  destruct (Hrow0 Hi) as [HM0 Hb0].
  assert (HM1 : nrows Mg = nrows (E st)) by exact (f_equal fst HsM).
  assert (HM2 : ncols Mg = ncols (E st)) by exact (f_equal snd HsM).
  assert (Hb1 : nrows bt = nrows (E st)) by exact (f_equal fst Hsb).
  assert (Hb2 : ncols bt = ncols (E st)) by exact (f_equal snd Hsb).
  destruct (wf_lookup (E st) 0 j HwE) as (E0 & e & HE0 & He & _); [lia | done |].
  cbn [arr_map rows] in HM0. rewrite list_lookup_fmap, HE0 in HM0. simpl in HM0.
  eexists _, e. split; [exact Hrun |]. proj. split_and!.
  - by apply (get2_lookup (E st) 0 j E0 e).
  - apply (get2_lookup Mg 0 j (map Fin E0)); [lia | lia | done |].
    by rewrite list_lookup_fmap, He.
  - apply (get2_lookup bt 0 j (replicate (ncols (E st)) 0)); [lia | lia | done |].
    by apply lookup_replicate_2.
Qed.
End CalcMCells.
(** ** The visualisation *)

Lemma slice_stop_all {A} (l : list A) k : k = Z.of_nat (length l) -> slice_stop k l = l.
Proof.
  intros ->. unfold slice_stop.
  replace (Z.of_nat (length l) <? 0) with false by (symmetry; apply Z.ltb_ge; lia).
  rewrite Nat2Z.id. apply firstn_all.
Qed.

Lemma set_all_spec (m : ndarray bool) ps :
  wf_arr m -> Forall (in_bounds m) ps ->
  exists m',
    set_all m ps = Return m' /\ wf_arr m' /\ shape m' = shape m /\
    forall (y x : nat) r b, rows m !! y = Some r -> r !! x = Some b ->
      exists r', rows m' !! y = Some r' /\
                 r' !! x = Some (b || bool_decide ((Z.of_nat x, Z.of_nat y) ∈ ps)).
Proof.
  intros Hwf Hall. revert m Hwf Hall.
  induction ps as [| p ps IH]; intros m Hwf Hall.
  - exists m. split_and!; try done. intros y x r b Hr Hb. exists r. split; [done |].
    rewrite bool_decide_eq_false_2 by apply not_elem_of_nil. by rewrite orb_false_r.
  - inversion Hall as [| ? ? [Hx Hy] Hrest]; subst.
    cbn [set_all]. unfold set_true, arr_set.
    rewrite py_index_nonneg by lia. cbn [obind]. rewrite py_index_nonneg by lia.
    cbn [obind].
    destruct (list_get_lt (rows m) (Z.to_nat p.2)) as (row & -> & Hrow);
      [destruct Hwf; lia |].
    cbn [obind].
    set (m1 := mkArr (nrows m) (ncols m)
                 (<[Z.to_nat p.2 := <[Z.to_nat p.1 := true]> row]> (rows m))).
    assert (Hwf1 : wf_arr m1).
    { destruct Hwf as [Hl Hf]. split; simpl.
      - by rewrite length_insert.
      - apply Forall_insert; [done |]. rewrite length_insert.
        by apply (Forall_lookup_1 _ _ _ _ Hf Hrow). }
    destruct (IH m1 Hwf1 Hrest) as (m' & Hrun & Hwf' & Hsh' & Hcells).
    exists m'. split_and!; try done.
    intros y x r b Hr Hb.
    assert (Hy' : (y < length (rows m))%nat) by by eapply lookup_lt_Some.
    assert (Hx' : (x < length r)%nat) by by eapply lookup_lt_Some.
    destruct (decide (y = Z.to_nat p.2)) as [-> | Hny].
    + assert (r = row) as -> by congruence.
      destruct (decide (x = Z.to_nat p.1)) as [-> | Hnx].
      * destruct (Hcells (Z.to_nat p.2) (Z.to_nat p.1) (<[Z.to_nat p.1 := true]> row) true)
          as (r' & Hr' & Hb').
        { subst m1. cbn [rows]. by apply list_lookup_insert_eq. }
        { by apply list_lookup_insert_eq. }
        exists r'. split; [done |]. rewrite Hb'. f_equal.
        rewrite (bool_decide_eq_true_2 (_ ∈ p :: ps)); [by rewrite orb_true_r |].
        apply elem_of_cons. left. destruct p as [px py]. simpl in *. f_equal; lia.
      * destruct (Hcells (Z.to_nat p.2) x (<[Z.to_nat p.1 := true]> row) b)
          as (r' & Hr' & Hb').
        { subst m1. cbn [rows]. by apply list_lookup_insert_eq. }
        { by rewrite list_lookup_insert_ne by done. }
        exists r'. split; [done |]. rewrite Hb'. do 2 f_equal.
        apply bool_decide_ext. rewrite elem_of_cons. split; [by right |].
        intros [Heq | Hin]; [| done]. destruct p as [px py]. simpl in *.
        injection Heq as <- <-. lia.
    + destruct (Hcells y x r b) as (r' & Hr' & Hb').
      { subst m1. cbn [rows]. by rewrite list_lookup_insert_ne by done. }
      { done. }
      exists r'. split; [done |]. rewrite Hb'. do 2 f_equal.
      apply bool_decide_ext. rewrite elem_of_cons. split; [by right |].
      intros [Heq | Hin]; [| done]. destruct p as [px py]. simpl in *.
      injection Heq as <- <-. lia.
Qed.

Section PaintSeams.
Context {F : Type} `{FloatOps F}.
Implicit Type st : SeamImage F.

(** X16. [paint_seams] with [vis_seams] true: it returns, and
  [seams_rgb] becomes a copy of the original image in which a pixel keeps
  its colour when its (column, row) pair is still in the index map and is
  red (1, 0, 0) when it is not, that is, when a removed seam went through
  it. *)
Theorem paint_seams_marks_removed st (y x : nat) :
  reachable st -> vis_seams st = true ->
  (y < nrows (rgb st))%nat -> (x < ncols (rgb st))%nat ->
  exists st' img p,
    paint_seams st = (Return tt, st') /\
    seams_rgb st' = Some img /\ shape img = shape (rgb st) /\
    get2 (rgb st) (Z.of_nat y) (Z.of_nat x) = Return p /\
    get2 img (Z.of_nat y) (Z.of_nat x)
      = Return (if bool_decide ((Z.of_nat x, Z.of_nat y) ∈ idx_entries st) then p else red).
Proof.
  intros Hreach Hvis Hy Hx.
  pose proof (reachable_inv st Hreach) as ((Hwf0 & Hwr & _ & _ & Hh & Hw) & Hwfi & Hidx).
  destruct (Hidx Hvis) as (_ & Hsh & _ & Hbd). injection Hsh as Hs1 Hs2.
  set (mask := np_full (nrows (rgb st)) (ncols (rgb st)) false).
  assert (Hps : concat (map (slice_stop (w st)) (slice_stop (h st) (rows (idx_map st))))
                = idx_entries st).
  { unfold idx_entries. destruct Hwfi as [Hl Hf].
    rewrite (slice_stop_all (rows (idx_map st))) by lia. f_equal.
    rewrite <- (map_id (rows (idx_map st))) at 2.
    apply map_ext_Forall. eapply Forall_impl; [exact Hf |]. intros r Hr. simpl in Hr.
    apply slice_stop_all. lia. }
  destruct (set_all_spec mask (idx_entries st)) as (m' & Hm' & Hwm' & Hsm' & Hcells).
  { apply wf_rows_replicate. }
  { exact Hbd. }
  destruct (wf_lookup (rgb st) y x Hwf0 Hy Hx) as (r & p & Hr & Hp & _).
  destruct (Hcells y x (replicate (ncols (rgb st)) false) false) as (mr & Hmr & Hmb).
  { unfold mask. cbn [np_full rows]. by apply lookup_replicate_2. }
  { by apply lookup_replicate_2. }
  eexists _, _, p. split_and!.
  - unfold paint_seams, mbind, assign, eval. cbn beta iota. proj. fold mask.
    rewrite Hps, Hm'. reflexivity.
  - proj. reflexivity.
  - done.
  - by apply (get2_lookup (rgb st) y x r p).
  - eapply (get2_lookup _ y x); [done | done | |].
    + unfold np_where, rows_map2. cbn [rows]. rewrite lookup_zip_with, Hmr.
      cbn [mbind option_bind]. by rewrite Hr.
    + rewrite lookup_zip_with, Hmb. cbn [mbind option_bind]. rewrite Hp.
      cbn [mbind option_bind orb]. done.
Qed.
End PaintSeams.
(** ** update_ref_mat *)

Section UpdateRefMat.
Context {F : Type}.
Implicit Type st : SeamImage F.

Lemma bump_from_lookup s (row : list (Z * Z)) (j : nat) p :
  row !! j = Some p ->
  bump_from s row !! j
  = Some (if decide (slice_start (length row) s <= j)%nat then bump p else p).
Proof.
  intros Hp. unfold bump_from. set (k := slice_start (length row) s).
  assert (Hj : (j < length row)%nat) by by eapply lookup_lt_Some.
  assert (Hk : (k <= length row)%nat).
  { unfold k, slice_start. destruct (s <? 0) eqn:Hs; [apply Z.ltb_lt in Hs |]; lia. }
  destruct (decide (k <= j)%nat) as [Hle | Hgt].
  - rewrite lookup_app_r by (rewrite length_take; lia).
    rewrite length_take, list_lookup_fmap, lookup_drop.
    replace (k + (j - k `min` length row))%nat with j by lia. by rewrite Hp.
  - rewrite lookup_app_l by (rewrite length_take; lia).
    by rewrite lookup_take_lt by lia.
Qed.

Lemma bump_from_length s (row : list (Z * Z)) : length (bump_from s row) = length row.
Proof.
  unfold bump_from. rewrite length_app, length_take, length_map, length_drop.
  assert (slice_start (length row) s <= length row)%nat; [| lia].
  unfold slice_start. destruct (s <? 0) eqn:Hs; [apply Z.ltb_lt in Hs |]; lia.
Qed.

Lemma update_ref_loop_spec seam : forall (i : nat) st,
  wf_arr (idx_map st) -> (i + length seam <= nrows (idx_map st))%nat ->
  exists idx',
    update_ref_loop seam i st = (Return tt, with_idx_map idx' st) /\
    wf_arr idx' /\ shape idx' = shape (idx_map st) /\
    (forall r, (r < i \/ i + length seam <= r)%nat -> rows idx' !! r = rows (idx_map st) !! r) /\
    (forall r s row, seam !! r = Some s -> rows (idx_map st) !! (i + r)%nat = Some row ->
                     rows idx' !! (i + r)%nat = Some (bump_from s row)).
Proof.
  induction seam as [| s seam IH]; intros i st Hwf Hlen.
  - exists (idx_map st). cbn [update_ref_loop mret].
    split_and!; try done. by destruct st.
  - cbn [update_ref_loop length] in *.
    destruct (get_row_ok (idx_map st) i Hwf) as (row & Hget & Hrow & Hlrow); [lia |].
    unfold mbind, eval, assign. rewrite Hget. cbn beta iota.
    set (idx1 := mkArr (nrows (idx_map st)) (ncols (idx_map st))
                   (<[i := bump_from s row]> (rows (idx_map st)))).
    set (st1 := with_idx_map idx1 st).
    assert (Hwf1 : wf_arr (idx_map st1)).
    { unfold st1. proj. apply wf_rows_insert; [done |]. by rewrite bump_from_length. }
    destruct (IH (S i) st1 Hwf1) as (idx' & Hrun & Hwf' & Hsh' & Hout & Hin).
    { unfold st1. proj. simpl. lia. }
    exists idx'. split; [exact Hrun |]. split; [done |]. split; [done |]. split.
    + intros r Hr. rewrite Hout by lia. unfold st1, idx1. proj. cbn [rows].
      apply list_lookup_insert_ne. lia.
    + intros r s' row' Hs' Hrow'. destruct r as [| r]; simpl in Hs'.
      * injection Hs' as <-. rewrite Nat.add_0_r in *.
        rewrite Hout by lia. unfold st1, idx1. proj. cbn [rows].
        assert (row' = row) as -> by congruence.
        apply list_lookup_insert_eq. destruct Hwf. lia.
      * replace (i + S r)%nat with (S i + r)%nat in * by lia.
        apply (Hin r s' row' Hs'). unfold st1, idx1. proj. cbn [rows].
        rewrite list_lookup_insert_ne by lia. done.
Qed.

(** X17. [update_ref_mat], given a last seam in the history that has at
  most as many entries as the index map has rows: it returns; in row i
  it adds one to BOTH numbers of every pair from column seam[i] on (from
  the clipped start of the slice [seam[i]:]) and leaves the pairs before
  it, the rows past the seam, the shape and every other attribute as they
  were. *)
Theorem update_ref_mat_cells st seam (i j : nat) row p :
  wf_arr (idx_map st) ->
  last (seam_history st) = Some seam ->
  (length seam <= nrows (idx_map st))%nat ->
  rows (idx_map st) !! i = Some row -> row !! j = Some p ->
  exists idx',
    update_ref_mat st = (Return tt, with_idx_map idx' st) /\
    shape idx' = shape (idx_map st) /\
    get2 idx' (Z.of_nat i) (Z.of_nat j)
    = Return (match seam !! i with
              | Some s => if decide (slice_start (length row) s <= j)%nat
                          then (p.1 + 1, p.2 + 1) else p
              | None => p
              end).
Proof.
  intros Hwf Hlast Hlen Hrow Hp.
  destruct (update_ref_loop_spec seam 0 st Hwf) as (idx' & Hrun & Hwf' & Hsh' & Hout & Hin);
    [simpl; lia |].
  exists idx'. split_and!; try done.
  - unfold update_ref_mat, mbind, eval.
    assert (Hne : seam_history st <> []) by (intros Heq; by rewrite Heq in Hlast).
    assert (Hpos : (0 < length (seam_history st))%nat).
    { destruct (seam_history st); [done | simpl; lia]. }
    rewrite py_index_neg by lia. cbn [obind].
    rewrite last_lookup in Hlast.
    replace (Z.to_nat (Z.of_nat (length (seam_history st)) + -1))
      with (pred (length (seam_history st))) by lia.
    unfold list_get. rewrite Hlast. exact Hrun.
  - assert (Hi : (i < nrows (idx_map st))%nat).
    { destruct Hwf as [<- _]. by eapply lookup_lt_Some. }
    assert (Hj : (j < ncols (idx_map st))%nat).
    { destruct Hwf as [_ Hf]. rewrite <- (Forall_lookup_1 _ _ _ _ Hf Hrow).
      by eapply lookup_lt_Some. }
    injection Hsh' as Hs1 Hs2.
    destruct (seam !! i) as [s |] eqn:Hs.
    + apply (get2_lookup idx' i j (bump_from s row)); [lia | lia | |].
      * by apply (Hin i s row Hs).
      * by apply bump_from_lookup.
    + apply (get2_lookup idx' i j row); [lia | lia | | done].
      rewrite Hout; [done |]. apply lookup_ge_None in Hs. simpl. lia.
Qed.
End UpdateRefMat.
(** ** Edge cases *)

Section EdgeCases.
Context {F : Type} `{FloatOps F}.
Implicit Type st : SeamImage F.

(** X18. [remove_seam] on a working image without rows raises ValueError
  whatever the seam ([reshape((0, -1, 3))] cannot infer the width), and
  changes nothing. *)
Theorem remove_seam_no_rows seam st :
  reachable st -> nrows (resized_rgb st) = 0%nat ->
  remove_seam seam st = (Raise ValueError, st).
Proof.
  intros Hreach Hz.
  pose proof (reachable_inv st Hreach) as ((_ & Hwr & _) & _).
  rewrite remove_seam_unfold. cbn zeta. rewrite Hz.
  unfold seam_mask. cbn [mask_loop].
  unfold carve, bool_index.
  rewrite decide_True by (unfold shape, np_full; simpl; by rewrite Hz).
  cbn [obind]. unfold reshape_rows. by rewrite decide_True.
Qed.

Lemma dp_find_no_columns st :
  carver_inv st -> wf_arr (E st) -> shape (E st) = shape (resized_gs st) ->
  (0 < nrows (resized_rgb st))%nat -> ncols (resized_rgb st) = 0%nat ->
  exists st', dp_find_minimal_seam st = (Raise ValueError, st') /\ frame_eq st st'.
Proof.
  intros ((_ & _ & Hwg & Hsg & Hh & Hw) & _) HwE HsE Hpos Hz.
  destruct (init_mats_ok st HwE Hwg HsE)
    as (Mg & bt & st1 & Hinit & HM & Hbt & Hfr & HwM & HsM & _).
  rewrite HsE, Hsg in HsM.
  assert (HM1 : nrows Mg = nrows (resized_rgb st)) by exact (f_equal fst HsM).
  assert (HM2 : ncols Mg = ncols (resized_rgb st)) by exact (f_equal snd HsM).
  destruct (get_row_ok Mg (nrows Mg - 1)) as (last & _ & Hlast & Hllast); [done | lia |].
  assert (Hget : get_row Mg (-1) = Return last).
  { unfold get_row. rewrite py_index_neg by lia. simpl.
    apply list_get_Return.
    by replace (Z.to_nat (Z.of_nat (nrows Mg) + -1)) with (nrows Mg - 1)%nat by lia. }
  assert (last = []) as -> by (apply length_zero_iff_nil; lia).
  exists st1. split; [| done].
  unfold dp_find_minimal_seam, mbind, eval, mret. rewrite Hinit. cbn beta iota.
  rewrite HM, Hget. done.
Qed.

Lemma removal_loop_app a b st :
  removal_loop (a + b) st = mbind (removal_loop a) (fun _ => removal_loop b) st.
Proof.
  revert st. induction a as [| a IH]; intros st; [done |].
  cbn [Nat.add removal_loop]. unfold mbind, assign at 1 3. cbn beta iota.
  destruct (find_minimal_seam _) as [[seam | e] st1]; [| done].
  unfold assign. cbn beta iota.
  destruct (remove_seam seam _) as [[[] | e] st2]; [| done].
  apply IH.
Qed.

(** X19. [seams_removal(n)] with n larger than the current width (and
  below 2^63, the largest length [range] can report to [tqdm]), on a
  dynamic-programming carver with at least one row: the loop removes every
  column, then [np.argmin] of an empty row raises ValueError. The call does
  not undo its work: the object is left with a working image of width 0
  and the seams removed so far in its history. *)
Theorem seams_removal_too_many n st :
  reachable st -> kind st = DP -> 0 < h st -> w st < n < 2 ^ 63 ->
  exists st',
    seams_removal n st = (Raise ValueError, st') /\
    shape (resized_rgb st') = (nrows (resized_rgb st), 0%nat) /\ w st' = 0 /\
    length (seam_history st')
      = (length (seam_history st) + ncols (resized_rgb st))%nat.
Proof.
  intros Hreach Hk Hh Hn.
  pose proof (reachable_inv st Hreach) as Hinv.
  destruct (carver_inv_dims _ Hinv) as [Hh0 Hw0].
  set (ww := ncols (resized_rgb st)) in *.
  destruct (removal_loop_ok ww st) as [st1 Hloop]; try done; try lia.
  { by rewrite Hk. }
  destruct (removal_loop_preserves _ _ _ Hinv Hloop)
    as (Hi1 & Hh1 & Hw1 & Hk1 & _ & _ & Hs1).
  destruct (carver_inv_dims _ Hi1) as [Hh1' Hw1'].
  set (sta := with_E (calc_gradient_magnitude st1) st1).
  assert (Hfa : frame_eq st1 sta) by by repeat split.
  assert (Hia : carver_inv sta) by by eapply carver_inv_frame.
  destruct (gradient_magnitude_wf (resized_gs st1)) as [HwE HsE]; [apply Hi1 |].
  destruct (dp_find_no_columns sta) as (st2 & Hfind & Hf2); try done.
  { change (resized_rgb sta) with (resized_rgb st1). lia. }
  { change (resized_rgb sta) with (resized_rgb st1). lia. }
  exists st2. split.
  - unfold seams_removal.
    replace (Z.to_nat n) with (ww + S (Z.to_nat n - ww - 1))%nat by lia.
    apply mbind_Raise. rewrite removal_loop_app. unfold mbind at 1. rewrite Hloop.
    cbn [removal_loop]. unfold mbind, assign. cbn beta iota. fold sta.
    unfold find_minimal_seam. change (kind sta) with (kind st1). rewrite Hk1, Hk.
    by rewrite Hfind.
  - destruct Hf2 as (_ & _ & Hrr & _ & _ & Hw2 & _ & _ & Hs2).
    change (resized_rgb sta) with (resized_rgb st1) in Hrr.
    change (w sta) with (w st1) in Hw2.
    change (seam_history sta) with (seam_history st1) in Hs2.
    rewrite Hrr, Hw2, Hs2. split_and!; [| lia | done].
    unfold shape. f_equal; lia.
Qed.

(** X21. [seams_removal(n)] and [seams_removal_horizontal(n)] with
  n <= 0 remove nothing: they return, and the working buffers, the index
  map, the stored height and width and the seam history are what they
  were. *)
Theorem seams_removal_nonpositive n st :
  reachable st -> n <= 0 ->
  exists st1 st2,
    seams_removal n st = (Return tt, st1) /\ frame_eq st st1 /\
    seams_removal_horizontal n st = (Return tt, st2) /\ frame_eq st st2.
Proof.
  intros Hreach Hn. pose proof (reachable_inv st Hreach) as Hinv.
  destruct (seams_removal_zero n st Hinv Hn) as (st1 & H1 & Hf1).
  destruct (seams_removal_horizontal_zero n st Hinv Hn) as (st2 & H2 & Hf2).
  by exists st1, st2.
Qed.
End EdgeCases.
Section RemoveSeamMore.
Context {F : Type} `{FloatOps F}.
Implicit Type st : SeamImage F.

(** X22. [remove_seam] reads a negative entry as Python does, as a column
  counted from the right end: with one entry per row, each in [-w, w), the
  call returns and row i of the RGB and grayscale buffers loses column
  seam[i] when seam[i] >= 0 and column w + seam[i] when seam[i] < 0. (The
  greedy finder produces such entries.) *)
Theorem remove_seam_negative_entries seam st :
  reachable st -> (0 < nrows (resized_rgb st))%nat ->
  length seam = nrows (resized_rgb st) ->
  Forall (fun c => - Z.of_nat (ncols (resized_rgb st)) <= c
                   < Z.of_nat (ncols (resized_rgb st))) seam ->
  let col c := Z.to_nat (if c <? 0 then Z.of_nat (ncols (resized_rgb st)) + c else c) in
  exists st',
    remove_seam seam st = (Return tt, st') /\
    resized_rgb st' = cut_columns (map col seam) (resized_rgb st) /\
    resized_gs st' = cut_columns (map col seam) (resized_gs st) /\
    w st' = w st - 1.
Proof.
  intros Hreach Hpos Hlen Hall col.
  pose proof (reachable_inv st Hreach) as Hinv.
  destruct (remove_seam_ok seam st) as [st' Hrun]; try done.
  exists st'. split; [done |].
  destruct (remove_seam_inv seam st st' Hinv Hrun) as (ks & Hks & _ & Hseam & ->).
  assert (Heq : ks = map col seam).
  { apply list_eq. intros j. rewrite list_lookup_fmap.
    destruct (ks !! j) as [k |] eqn:Hk.
    - destruct (Hseam j k Hk) as (c & Hc & Hpy). rewrite Hc. simpl.
      apply py_index_inv in Hpy as (_ & _ & Hkc). f_equal. unfold col. lia.
    - apply lookup_ge_None in Hk.
      rewrite (proj2 (lookup_ge_None seam j)) by lia. done. }
  rewrite <- Heq. destruct (vis_seams st); proj; done.
Qed.

(** X23. What [remove_seam] leaves alone: it cuts the index map like the
  two buffers when [vis_seams] is true and not at all when it is false,
  and in both cases it does not touch the original image, the
  visualisation [seams_rgb] (nothing is painted here), the seam history
  (the seam is not recorded here), the energy grid or the stored
  height. *)
Theorem remove_seam_frame seam st st' :
  reachable st -> remove_seam seam st = (Return tt, st') ->
  exists ks,
    resized_rgb st' = cut_columns ks (resized_rgb st) /\
    idx_map st' = (if vis_seams st then cut_columns ks (idx_map st) else idx_map st) /\
    rgb st' = rgb st /\ seams_rgb st' = seams_rgb st /\
    seam_history st' = seam_history st /\ E st' = E st /\ h st' = h st /\
    vis_seams st' = vis_seams st.
Proof.
  intros Hreach Hrun.
  pose proof (reachable_inv st Hreach) as Hinv.
  destruct (remove_seam_inv seam st st' Hinv Hrun) as (ks & _ & _ & _ & ->).
  exists ks. by destruct (vis_seams st) eqn:Hvis; proj; rewrite ?Hvis.
Qed.
End RemoveSeamMore.
(** ** The energy grid, cell by cell *)

Section GradientCells.
Context {F : Type} `{FloatOps F}.

(** X24. [calc_gradient_magnitude] in the machine arithmetic, cell by
  cell: with p = gs[i][j], [down] the value below it and [right] the value
  to its right, each replaced by the pad value 0.5 past the last row or
  column, E[i][j] = sqrt((down - p)^2 + (right - p)^2), the row difference
  squared first. *)
Theorem gradient_magnitude_cells (gs : ndarray F) (i j : nat) :
  wf_arr gs -> (i < nrows gs)%nat -> (j < ncols gs)%nat ->
  exists p down right,
    get2 gs (Z.of_nat i) (Z.of_nat j) = Return p /\
    (if decide (S i < nrows gs)%nat
     then get2 gs (Z.of_nat i + 1) (Z.of_nat j) = Return down else down = fhalf) /\
    (if decide (S j < ncols gs)%nat
     then get2 gs (Z.of_nat i) (Z.of_nat j + 1) = Return right else right = fhalf) /\
    get2 (gradient_magnitude gs) (Z.of_nat i) (Z.of_nat j)
    = Return (fsqrt (fadd (fmul (fsub down p) (fsub down p))
                          (fmul (fsub right p) (fsub right p)))).
Proof. exact (gradient_magnitude_cell gs i j). Qed.
End GradientCells.
(** ** The energy grid after a removal *)

Section StaleEnergy.
Context {F : Type} `{FloatOps F}.
Implicit Type st : SeamImage F.

Lemma find_minimal_seam_E st : E (find_minimal_seam st).2 = E st.
Proof.
  unfold find_minimal_seam. destruct (kind st).
  - revert st. unfold greedy_find_minimal_seam. repeat keeps_step.
  - revert st. unfold dp_find_minimal_seam. repeat keeps_step.
    intros st. apply init_mats_E.
Qed.

Lemma paint_seams_E st : E (paint_seams st).2 = E st.
Proof. revert st. unfold paint_seams. repeat keeps_step. Qed.

Lemma removal_loop_E n : forall st st',
  carver_inv st -> removal_loop (S n) st = (Return tt, st') ->
  shape (E st') = (nrows (resized_rgb st'), S (ncols (resized_rgb st'))).
Proof.
  induction n as [| n IH]; intros st st' Hinv Hrun.
  - cbn [removal_loop] in Hrun.
    apply mbind_inv in Hrun as ([] & st1 & [= <-] & Hrun).
    apply mbind_inv in Hrun as (seam & st2 & Hfind & Hrun).
    apply mbind_inv in Hrun as ([] & st3 & [= <-] & Hrun).
    apply mbind_inv in Hrun as ([] & st4 & Hrem & [= <-]).
    set (sta := with_E (calc_gradient_magnitude st) st) in *.
    pose proof (find_minimal_seam_E sta) as HE2. rewrite Hfind in HE2. cbn [snd] in HE2.
    apply framed_run in Hfind; [| apply find_minimal_seam_framed].
    assert (Ha : frame_eq st sta) by by repeat split.
    assert (Hi2 : carver_inv st2).
    { eapply carver_inv_frame; [exact Hfind |]. by eapply carver_inv_frame. }
    set (stb := with_seam_history _ st2) in *.
    assert (Hib : carver_inv stb) by exact Hi2.
    destruct (remove_seam_inv seam stb st4 Hib Hrem) as (ks & Hks & Hnz & Hseam & ->).
    destruct (gradient_magnitude_wf (resized_gs st)) as [_ HsE]; [apply Hinv |].
    assert (Hpos : (0 < ncols (resized_rgb stb))%nat).
    { destruct ks as [| k ks]; [cbn [length] in Hks; lia |].
      destruct (Hseam 0%nat k eq_refl) as (c & _ & Hk).
      apply py_index_inv in Hk as [? _]. lia. }
    destruct Hfind as (_ & _ & Hrr & _ & _ & _ & Hgs & _).
    change (resized_rgb sta) with (resized_rgb st) in Hrr.
    destruct Hinv as ((_ & _ & _ & Hsg & _) & _).
    assert (HEs : shape (E stb) = shape (resized_rgb stb)).
    { unfold stb. proj. rewrite HE2. unfold sta. proj.
      unfold calc_gradient_magnitude. by rewrite HsE, Hsg, Hrr. }
    destruct (vis_seams stb); proj; rewrite HEs; unfold shape, cut_columns;
      cbn [nrows ncols]; f_equal; lia.
  - cbn [removal_loop] in Hrun.
    apply mbind_inv in Hrun as ([] & st1 & [= <-] & Hrun).
    apply mbind_inv in Hrun as (seam & st2 & Hfind & Hrun).
    apply mbind_inv in Hrun as ([] & st3 & [= <-] & Hrun).
    apply mbind_inv in Hrun as ([] & st4 & Hrem & Hrun).
    apply framed_run in Hfind; [| apply find_minimal_seam_framed].
    set (sta := with_E (calc_gradient_magnitude st) st) in *.
    assert (Ha : frame_eq st sta) by by repeat split.
    assert (Hi2 : carver_inv st2).
    { eapply carver_inv_frame; [exact Hfind |]. by eapply carver_inv_frame. }
    set (stb := with_seam_history _ st2) in *.
    assert (Hib : carver_inv stb) by exact Hi2.
    apply (IH st4 st'); [| exact Hrun].
    by apply remove_seam_preserves in Hrem as [? _].
Qed.

(** X25. The energy grid is not refreshed after the last removal: when
  [seams_removal(n)] with n >= 1 returns, [E] is still the grid computed
  before the last seam was cut, one column wider than the working
  image. *)
Theorem seams_removal_leaves_stale_E n st :
  reachable st -> 1 <= n <= w st -> 0 < h st ->
  (kind st = Greedy -> h st + n <= w st + 2) ->
  exists st',
    seams_removal n st = (Return tt, st') /\
    shape (E st') = (nrows (resized_rgb st'), S (ncols (resized_rgb st'))).
Proof.
  intros Hreach Hn Hh Hg.
  pose proof (reachable_inv st Hreach) as Hinv.
  destruct (carver_inv_dims _ Hinv) as [Hh0 Hw0].
  destruct (seams_removal_ok n st) as [st' Hrun]; try done; try lia.
  { intros Hk. specialize (Hg Hk). lia. }
  exists st'. split; [done |].
  unfold seams_removal in Hrun.
  apply mbind_inv in Hrun as ([] & st1 & Hloop & Hrun).
  apply mbind_inv in Hrun as (vis & st2 & [= <- <-] & Hrun).
  replace (Z.to_nat n) with (S (Z.to_nat n - 1)) in Hloop by lia.
  pose proof (removal_loop_E _ _ _ Hinv Hloop) as HE.
  destruct (vis_seams st1).
  - pose proof (paint_seams_E st1) as HE'. rewrite Hrun in HE'. cbn [snd] in HE'.
    apply framed_run in Hrun; [| apply paint_seams_framed].
    destruct Hrun as (_ & _ & -> & _). by rewrite HE'.
  - by injection Hrun as <-.
Qed.
End StaleEnergy.

(** ** The theorems above at concrete images *)

Ltac init_state k img vis cont :=
  let r := eval vm_compute in (SeamImage_init k img vis) in
  lazymatch r with
  | Return ?s0 => cont s0
  end.

Ltac run_state t cont :=
  let r := eval vm_compute in t in
  lazymatch r with
  | (Return _, ?s1) => cont s1
  end.

Ltac by_eval := vm_compute; reflexivity.

Ltac wf_eval := vm_compute; (split; [reflexivity | repeat constructor]).

Ltac reach_init_eval k img vis s0 :=
  apply (reach_init k img vis s0); [wf_eval | by_eval].

(** X4, witness: the red-dot image after one seam removal; the index map
    sends cell (0, 0) to a pixel of the original image. *)
Lemma idx_map_tracks_pixels_witness :
  exists (st st' : SeamImage PrimFloat.float) r x y,
    SeamImage_init DP red_dot true = Return st /\
    seams_removal 1 st = (Return tt, st') /\
    rows (idx_map st') !! 0%nat = Some r /\ r !! 0%nat = Some (x, y) /\
    exists p, get2 (resized_rgb st') (Z.of_nat 0) (Z.of_nat 0) = Return p /\
              get2 (rgb st') y x = Return p.
Proof.
  init_state DP red_dot true ltac:(fun s0 =>
    run_state (seams_removal 1 s0) ltac:(fun s1 =>
      let row := eval vm_compute in (rows (idx_map s1) !! 0%nat) in
      lazymatch row with
      | Some ?r =>
          let e := eval vm_compute in (r !! 0%nat) in
          lazymatch e with
          | Some (?x, ?y) =>
              exists s0, s1, r, x, y; split; [by_eval |]; split; [by_eval |];
              split; [by_eval |]; split; [by_eval |];
              apply (idx_map_tracks_pixels s1 0 0 r x y);
              [ apply (reach_seams_removal 1 s0 s1);
                [reach_init_eval DP red_dot true s0 | by_eval]
              | by_eval | by_eval | by_eval ]
          end
      end)).
Defined.

(** X5, witness: a black 2x2 image. *)
Lemma SeamImage_init_single_row_or_column_witness :
  if decide (nrows (black_image 2 2) = 1%nat \/ ncols (black_image 2 2) = 1%nat)
  then SeamImage_init DP (black_image 2 2) true = Raise ValueError
  else exists st, SeamImage_init DP (black_image 2 2) true = Return st /\
                  rgb st = black_image 2 2 /\ resized_rgb st = black_image 2 2 /\
                  h st = Z.of_nat (nrows (black_image 2 2)) /\
                  w st = Z.of_nat (ncols (black_image 2 2)) /\
                  shape (E st) = shape (black_image 2 2) /\ seam_history st = [].
Proof.
  apply (SeamImage_init_single_row_or_column DP (black_image 2 2) true). wf_eval.
Defined.

(** X6, witness: one seam out of a black 2x2 image. *)
Lemma seams_removal_effect_witness :
  exists st : SeamImage PrimFloat.float,
    SeamImage_init DP (black_image 2 2) true = Return st /\
    exists st',
      seams_removal 1 st = (Return tt, st') /\
      shape (resized_rgb st')
        = (nrows (resized_rgb st), (ncols (resized_rgb st) - Z.to_nat 1)%nat) /\
      shape (resized_gs st') = shape (resized_rgb st') /\
      h st' = h st /\ w st' = w st - 1 /\ rgb st' = rgb st /\
      length (seam_history st') = (length (seam_history st) + Z.to_nat 1)%nat.
Proof.
  init_state DP (black_image 2 2) true ltac:(fun s0 =>
    exists s0; split; [by_eval |];
    apply (seams_removal_effect 1 s0);
    [ reach_init_eval DP (black_image 2 2) true s0
    | vm_compute; split; discriminate
    | reflexivity
    | intros Hk; vm_compute in Hk; discriminate Hk ]).
Defined.

(** X7, witness: one horizontal seam out of a black 2x2 image. *)
Lemma seams_removal_horizontal_effect_witness :
  exists st : SeamImage PrimFloat.float,
    SeamImage_init DP (black_image 2 2) true = Return st /\
    exists st',
      seams_removal_horizontal 1 st = (Return tt, st') /\
      shape (resized_rgb st')
        = ((nrows (resized_rgb st) - Z.to_nat 1)%nat, ncols (resized_rgb st)) /\
      shape (resized_gs st') = shape (resized_rgb st') /\
      h st' = h st - 1 /\ w st' = w st /\ rgb st' = rgb st /\
      length (seam_history st') = (length (seam_history st) + Z.to_nat 1)%nat.
Proof.
  init_state DP (black_image 2 2) true ltac:(fun s0 =>
    exists s0; split; [by_eval |];
    apply (seams_removal_horizontal_effect 1 s0);
    [ reach_init_eval DP (black_image 2 2) true s0
    | vm_compute; split; discriminate
    | reflexivity
    | intros Hk; vm_compute in Hk; discriminate Hk ]).
Defined.

(** X8, witness: a black 2x2 image and the shapes ((7, 7), (6, 7)), which
    do not describe it: one horizontal seam is removed. *)
Lemma resize_seam_carving_shape_witness :
  exists st : SeamImage PrimFloat.float,
    SeamImage_init DP (black_image 2 2) true = Return st /\
    exists img st',
      resize_seam_carving ((7, 7), (6, 7)) st = (Return img, st') /\
      shape img = ((nrows (rgb st) - Z.to_nat (height_diff ((7, 7), (6, 7))%Z))%nat,
                   (ncols (rgb st) - Z.to_nat (width_diff ((7, 7), (6, 7))%Z))%nat) /\
      resized_rgb st' = img /\ rgb st' = rgb st /\ vis_seams st' = true.
Proof.
  init_state DP (black_image 2 2) true ltac:(fun s0 =>
    exists s0; split; [by_eval |];
    apply (resize_seam_carving_shape ((7, 7), (6, 7)) s0);
    [ reach_init_eval DP (black_image 2 2) true s0
    | reflexivity
    | vm_compute; lia
    | vm_compute; split; discriminate
    | vm_compute; split; discriminate
    | intros _; reflexivity ]).
Defined.

(** X9, witness: the dynamic-programming carver on a black 2x2 image. *)
Lemma rotate_mats_roundtrip_ccw_cw_witness :
  exists st : SeamImage PrimFloat.float,
    SeamImage_init DP (black_image 2 2) true = Return st /\
    mbind (rotate_mats false) (fun _ => rotate_mats true) st = (Return tt, st).
Proof.
  init_state DP (black_image 2 2) true ltac:(fun s0 =>
    exists s0; split; [by_eval |];
    apply (rotate_mats_roundtrip_ccw_cw s0); wf_eval).
Defined.

(** X10, witness: the same object. *)
Lemma rotate_mats_four_times_witness :
  exists st : SeamImage PrimFloat.float,
    SeamImage_init DP (black_image 2 2) true = Return st /\
    mbind (rotate_mats true) (fun _ =>
      mbind (rotate_mats true) (fun _ =>
        mbind (rotate_mats true) (fun _ => rotate_mats true))) st = (Return tt, st).
Proof.
  init_state DP (black_image 2 2) true ltac:(fun s0 =>
    exists s0; split; [by_eval |];
    apply (rotate_mats_four_times s0); wf_eval).
Defined.

(** X11, witness: the 3x2 red-dot image turned clockwise, cell (0, 0). *)
Lemma rotate_mats_cells_witness :
  exists st : SeamImage PrimFloat.float,
    SeamImage_init DP red_dot true = Return st /\
    let src := (Z.of_nat (nrows (resized_rgb st) - 1 - 0), Z.of_nat 0) in
    exists st',
      rotate_mats true st = (Return tt, st') /\
      h st' = w st /\ w st' = h st /\
      shape (resized_rgb st') = (ncols (resized_rgb st), nrows (resized_rgb st)) /\
      get2 (resized_rgb st') (Z.of_nat 0) (Z.of_nat 0) = get2 (resized_rgb st) src.1 src.2 /\
      get2 (resized_gs st') (Z.of_nat 0) (Z.of_nat 0) = get2 (resized_gs st) src.1 src.2.
Proof.
  init_state DP red_dot true ltac:(fun s0 =>
    exists s0; split; [by_eval |];
    apply (rotate_mats_cells true s0 0 0);
    [ reach_init_eval DP red_dot true s0 | vm_compute; lia | vm_compute; lia ]).
Defined.

(** X12, witness: the greedy carver on a black 2x2 image. *)
Lemma greedy_seam_walk_witness :
  exists st : SeamImage PrimFloat.float,
    SeamImage_init Greedy (black_image 2 2) true = Return st /\
    exists seam st' row0 k,
      find_minimal_seam (with_E (calc_gradient_magnitude st) st) = (Return seam, st') /\
      length seam = nrows (resized_rgb st) /\
      rows (calc_gradient_magnitude st) !! 0%nat = Some row0 /\
      argmin fltb row0 = Return k /\ seam !! 0%nat = Some (Z.of_nat k) /\
      (forall i c, seam !! i = Some c ->
                   - Z.of_nat i <= c <= Z.of_nat (ncols (resized_rgb st)) - 1) /\
      (forall i a b, seam !! i = Some a -> seam !! S i = Some b -> Z.abs (b - a) <= 1).
Proof.
  init_state Greedy (black_image 2 2) true ltac:(fun s0 =>
    exists s0; split; [by_eval |];
    apply (greedy_seam_walk s0);
    [ reach_init_eval Greedy (black_image 2 2) true s0
    | reflexivity | vm_compute; lia | vm_compute; lia | vm_compute; lia ]).
Defined.

(** X13, witness: the dynamic-programming carver on the red-dot image. *)
Lemma dp_seam_backtrack_witness :
  exists st : SeamImage PrimFloat.float,
    SeamImage_init DP red_dot true = Return st /\
    exists seam st' last k,
      find_minimal_seam (with_E (calc_gradient_magnitude st) st) = (Return seam, st') /\
      get_row (M st') (-1) = Return last /\ argmin xltb last = Return k /\
      seam !! (nrows (resized_rgb st) - 1)%nat = Some (Z.of_nat k) /\
      (forall i c c', seam !! S i = Some c -> seam !! i = Some c' ->
         exists d, get2 (backtrack_mat st') (Z.of_nat (S i)) c = Return d /\
                   c' = Z.max 0 (Z.min (c + d) (w st - 2))) /\
      (forall i c', (S i < nrows (resized_rgb st))%nat -> seam !! i = Some c' ->
         c' <= Z.max 0 (w st - 2)).
Proof.
  init_state DP red_dot true ltac:(fun s0 =>
    exists s0; split; [by_eval |];
    apply (dp_seam_backtrack s0);
    [ reach_init_eval DP red_dot true s0
    | reflexivity | vm_compute; lia | vm_compute; lia ]).
Defined.

(** X14, witness: cell (1, 0) of the red-dot image. *)
Lemma calc_M_recurrence_witness :
  exists st : SeamImage PrimFloat.float,
    SeamImage_init DP red_dot true = Return st /\
    exists st' cands k x e,
      init_mats st = (Return tt, st') /\
      M_candidates st' (Z.of_nat 1) (Z.of_nat 0) = Return cands /\
      argmin xltb cands = Return k /\ cands !! k = Some x /\
      get2 (E st') (Z.of_nat 1) (Z.of_nat 0) = Return e /\
      get2 (M st') (Z.of_nat 1) (Z.of_nat 0) = Return (xadd (Fin e) x) /\
      get2 (backtrack_mat st') (Z.of_nat 1) (Z.of_nat 0) = Return (Z.of_nat k - 1).
Proof.
  init_state DP red_dot true ltac:(fun s0 =>
    exists s0; split; [by_eval |];
    apply (calc_M_recurrence s0 1 0);
    [ wf_eval | wf_eval | by_eval | vm_compute; lia | vm_compute; lia ]).
Defined.

(** X15, witness: cell (0, 1) of the red-dot image. *)
Lemma calc_M_first_row_witness :
  exists st : SeamImage PrimFloat.float,
    SeamImage_init DP red_dot true = Return st /\
    exists st' e,
      init_mats st = (Return tt, st') /\
      get2 (E st') 0 (Z.of_nat 1) = Return e /\
      get2 (M st') 0 (Z.of_nat 1) = Return (Fin e) /\
      get2 (backtrack_mat st') 0 (Z.of_nat 1) = Return 0.
Proof.
  init_state DP red_dot true ltac:(fun s0 =>
    exists s0; split; [by_eval |];
    apply (calc_M_first_row s0 1);
    [ wf_eval | wf_eval | by_eval | vm_compute; lia | vm_compute; lia ]).
Defined.

(** X16, witness: the red-dot image after one seam removal, pixel (0, 0)
    of the original image. *)
Lemma paint_seams_marks_removed_witness :
  exists st st0 : SeamImage PrimFloat.float,
    SeamImage_init DP red_dot true = Return st0 /\
    seams_removal 1 st0 = (Return tt, st) /\
    exists st' img p,
      paint_seams st = (Return tt, st') /\
      seams_rgb st' = Some img /\ shape img = shape (rgb st) /\
      get2 (rgb st) (Z.of_nat 0) (Z.of_nat 0) = Return p /\
      get2 img (Z.of_nat 0) (Z.of_nat 0)
        = Return (if bool_decide ((Z.of_nat 0, Z.of_nat 0) ∈ idx_entries st)
                  then p else red).
Proof.
  init_state DP red_dot true ltac:(fun s0 =>
    run_state (seams_removal 1 s0) ltac:(fun s1 =>
      exists s1, s0; split; [by_eval |]; split; [by_eval |];
      apply (paint_seams_marks_removed s1 0 0);
      [ apply (reach_seams_removal 1 s0 s1); [reach_init_eval DP red_dot true s0 | by_eval]
      | reflexivity | vm_compute; lia | vm_compute; lia ])).
Defined.

(** X17, witness: the red-dot image after one seam removal; the seam in
    the history has three entries, the index map three rows. *)
Lemma update_ref_mat_cells_witness :
  exists (st st0 : SeamImage PrimFloat.float) seam row p,
    SeamImage_init DP red_dot true = Return st0 /\
    seams_removal 1 st0 = (Return tt, st) /\
    last (seam_history st) = Some seam /\
    rows (idx_map st) !! 0%nat = Some row /\ row !! 0%nat = Some p /\
    exists idx',
      update_ref_mat st = (Return tt, with_idx_map idx' st) /\
      shape idx' = shape (idx_map st) /\
      get2 idx' (Z.of_nat 0) (Z.of_nat 0)
      = Return (match seam !! 0%nat with
                | Some s => if decide (slice_start (length row) s <= 0)%nat
                            then (p.1 + 1, p.2 + 1) else p
                | None => p
                end).
Proof.
  init_state DP red_dot true ltac:(fun s0 =>
    run_state (seams_removal 1 s0) ltac:(fun s1 =>
      let sm := eval vm_compute in (last (seam_history s1)) in
      let rw := eval vm_compute in (rows (idx_map s1) !! 0%nat) in
      lazymatch sm with
      | Some ?seam =>
          lazymatch rw with
          | Some ?row =>
              let e := eval vm_compute in (row !! 0%nat) in
              lazymatch e with
              | Some ?p =>
                  exists s1, s0, seam, row, p;
                  split; [by_eval |]; split; [by_eval |]; split; [by_eval |];
                  split; [by_eval |]; split; [by_eval |];
                  apply (update_ref_mat_cells s1 seam 0 0 row p);
                  [ wf_eval | by_eval | vm_compute; lia | by_eval | by_eval ]
              end
          end
      end)).
Defined.

(** X18, witness: an image with no rows and two columns. *)
Lemma remove_seam_no_rows_witness :
  exists st : SeamImage PrimFloat.float,
    SeamImage_init DP (black_image 0 2) true = Return st /\
    remove_seam [] st = (Raise ValueError, st).
Proof.
  init_state DP (black_image 0 2) true ltac:(fun s0 =>
    exists s0; split; [by_eval |];
    apply (remove_seam_no_rows [] s0);
    [ reach_init_eval DP (black_image 0 2) true s0 | reflexivity ]).
Defined.

(** X19, witness: three seams asked of a black 2x2 image. *)
Lemma seams_removal_too_many_witness :
  exists st : SeamImage PrimFloat.float,
    SeamImage_init DP (black_image 2 2) true = Return st /\
    exists st',
      seams_removal 3 st = (Raise ValueError, st') /\
      shape (resized_rgb st') = (nrows (resized_rgb st), 0%nat) /\ w st' = 0 /\
      length (seam_history st')
        = (length (seam_history st) + ncols (resized_rgb st))%nat.
Proof.
  init_state DP (black_image 2 2) true ltac:(fun s0 =>
    exists s0; split; [by_eval |];
    apply (seams_removal_too_many 3 s0);
    [ reach_init_eval DP (black_image 2 2) true s0
    | reflexivity | reflexivity | split; reflexivity ]).
Defined.

(** X21, witness: n = -1 on a black 2x2 image. *)
Lemma seams_removal_nonpositive_witness :
  exists st : SeamImage PrimFloat.float,
    SeamImage_init DP (black_image 2 2) true = Return st /\
    exists st1 st2,
      seams_removal (-1) st = (Return tt, st1) /\ frame_eq st st1 /\
      seams_removal_horizontal (-1) st = (Return tt, st2) /\ frame_eq st st2.
Proof.
  init_state DP (black_image 2 2) true ltac:(fun s0 =>
    exists s0; split; [by_eval |];
    apply (seams_removal_nonpositive (-1) s0);
    [ reach_init_eval DP (black_image 2 2) true s0 | discriminate ]).
Defined.

(** X22, witness: the seam [-1; 0] on a black 2x2 image. *)
Lemma remove_seam_negative_entries_witness :
  exists st : SeamImage PrimFloat.float,
    SeamImage_init DP (black_image 2 2) true = Return st /\
    let col c := Z.to_nat (if c <? 0 then Z.of_nat (ncols (resized_rgb st)) + c else c) in
    exists st',
      remove_seam [-1; 0] st = (Return tt, st') /\
      resized_rgb st' = cut_columns (map col [-1; 0]) (resized_rgb st) /\
      resized_gs st' = cut_columns (map col [-1; 0]) (resized_gs st) /\
      w st' = w st - 1.
Proof.
  init_state DP (black_image 2 2) true ltac:(fun s0 =>
    exists s0; split; [by_eval |];
    apply (remove_seam_negative_entries [-1; 0] s0);
    [ reach_init_eval DP (black_image 2 2) true s0
    | vm_compute; lia | reflexivity
    | repeat constructor; vm_compute; congruence ]).
Defined.

(** X23, witness: the seam [0; 0] removed from a black 2x2 image. *)
Lemma remove_seam_frame_witness :
  exists st st' : SeamImage PrimFloat.float,
    SeamImage_init DP (black_image 2 2) true = Return st /\
    remove_seam [0; 0] st = (Return tt, st') /\
    exists ks,
      resized_rgb st' = cut_columns ks (resized_rgb st) /\
      idx_map st' = (if vis_seams st then cut_columns ks (idx_map st) else idx_map st) /\
      rgb st' = rgb st /\ seams_rgb st' = seams_rgb st /\
      seam_history st' = seam_history st /\ E st' = E st /\ h st' = h st /\
      vis_seams st' = vis_seams st.
Proof.
  init_state DP (black_image 2 2) true ltac:(fun s0 =>
    run_state (remove_seam [0; 0] s0) ltac:(fun s1 =>
      exists s0, s1; split; [by_eval |]; split; [by_eval |];
      apply (remove_seam_frame [0; 0] s0 s1);
      [ reach_init_eval DP (black_image 2 2) true s0 | by_eval ])).
Defined.

(** X24, witness: the top-left cell of a float64 grid. *)
Lemma gradient_magnitude_cells_witness :
  exists p down right : PrimFloat.float,
    get2 (mkArr 2 2 [[1; 0]; [0; 0]]%float) (Z.of_nat 0) (Z.of_nat 0) = Return p /\
    (if decide (1 < nrows (mkArr 2 2 [[1; 0]; [0; 0]]%float))%nat
     then get2 (mkArr 2 2 [[1; 0]; [0; 0]]%float) (Z.of_nat 0 + 1) (Z.of_nat 0) = Return down
     else down = fhalf) /\
    (if decide (1 < ncols (mkArr 2 2 [[1; 0]; [0; 0]]%float))%nat
     then get2 (mkArr 2 2 [[1; 0]; [0; 0]]%float) (Z.of_nat 0) (Z.of_nat 0 + 1) = Return right
     else right = fhalf) /\
    get2 (gradient_magnitude (mkArr 2 2 [[1; 0]; [0; 0]]%float)) (Z.of_nat 0) (Z.of_nat 0)
    = Return (fsqrt (fadd (fmul (fsub down p) (fsub down p))
                          (fmul (fsub right p) (fsub right p)))).
Proof.
  apply (gradient_magnitude_cells (mkArr 2 2 [[1; 0]; [0; 0]]%float) 0 0).
  - wf_eval.
  - simpl; lia.
  - simpl; lia.
Defined.

(** X25, witness: one seam out of a black 2x2 image. *)
Lemma seams_removal_leaves_stale_E_witness :
  exists st : SeamImage PrimFloat.float,
    SeamImage_init DP (black_image 2 2) true = Return st /\
    exists st',
      seams_removal 1 st = (Return tt, st') /\
      shape (E st') = (nrows (resized_rgb st'), S (ncols (resized_rgb st'))).
Proof.
  init_state DP (black_image 2 2) true ltac:(fun s0 =>
    exists s0; split; [by_eval |];
    apply (seams_removal_leaves_stale_E 1 s0);
    [ reach_init_eval DP (black_image 2 2) true s0
    | vm_compute; split; discriminate
    | reflexivity
    | intros Hk; vm_compute in Hk; discriminate Hk ]).
Defined.
